(** * Discord-FAQ-Bot: the message-management cog

    A shallow embedding of [src/message_management.py] and the properties
    of its commands: link enrichment ([fix_item_links]), cascade insertion
    ([insert_message]), [republish], export and import ([save_messages],
    [publish]) and [dump_messages].

    Conventions.
    - A Python [str] is a list of code points ([text]); [txt] turns an
      ASCII literal into one.
    - The two regular expressions of [fix_item_links] are written as
      syntax trees and run by a backtracking matcher that tries the
      alternatives in the order Python's [re] does.
    - The chat platform, the HTTP services and the file system are state:
      a command is a function from a world to an outcome and a new world,
      and it records what it did in the world's trace. *)

From Stdlib Require Import String Ascii.
From stdpp Require Import gmap list pretty.

Local Open Scope nat_scope.

(** ** Text *)

Abbreviation char := N (only parsing).
Abbreviation text := (list N) (only parsing).

Fixpoint txt (s : string) : text :=
  match s with
  | EmptyString => []
  | String a s' => N_of_ascii a :: txt s'
  end.

#[global] Arguments txt : simpl never.

(** [s[a:b]] for non-negative [a] and [b]. *)
Definition slice (s : text) (a b : nat) : text := take (b - a) (drop a s).

(** [s.startswith(l)] *)
Fixpoint starts_with (l s : text) : bool :=
  match l, s with
  | [], _ => true
  | a :: l', b :: s' => N.eqb a b && starts_with l' s'
  | _ :: _, [] => false
  end.

(** The character classes [\s] and [\d] of a [str] pattern follow the
    Unicode database, which is not part of the repository: they are
    parameters of the development. *)
Class Unicode := {
  py_isspace : char -> bool;
  py_isdecimal : char -> bool
}.

(** ** Regular expressions *)

Inductive citem :=
| IChar (c : char)   (* a literal character of a class *)
| ISpace             (* \s *)
| IDigit.            (* \d *)

Inductive cset :=
| Dot                     (* .      anything but a line feed *)
| OneOf (l : list citem)  (* [...]  *)
| NoneOf (l : list citem) (* [^...] *).

Inductive node :=
| Lit (s : text)                              (* literal characters *)
| Opt (s : text)                              (* (?:s)?  *)
| Rep (lo : nat) (greedy : bool) (cs : cset)  (* cs*, cs+, cs*? *)
| Mark.                                       (* a group boundary *)

Record Match := { m_start : nat; m_end : nat; m_marks : list nat }.

Fixpoint first_some {A B} (f : A -> option B) (l : list A) : option B :=
  match l with
  | [] => None
  | a :: l' => match f a with Some b => Some b | None => first_some f l' end
  end.

(** The repetition counts a backtracking matcher tries, in order: the
    longest run first when greedy, the shortest first when lazy. *)
Definition counts (lo n : nat) (greedy : bool) : list nat :=
  let up := seq lo (S n - lo) in
  if greedy then reverse up else up.

Section Regex.
Context `{Unicode}.

Definition citem_mem (i : citem) (c : char) : bool :=
  match i with
  | IChar x => N.eqb x c
  | ISpace => py_isspace c
  | IDigit => py_isdecimal c
  end.

Definition cset_mem (cs : cset) (c : char) : bool :=
  match cs with
  | Dot => negb (N.eqb c 10)
  | OneOf l => existsb (fun i => citem_mem i c) l
  | NoneOf l => negb (existsb (fun i => citem_mem i c) l)
  end.

(** Length of the longest prefix of [s] inside the class. *)
Fixpoint run (cs : cset) (s : text) : nat :=
  match s with
  | c :: s' => if cset_mem cs c then S (run cs s') else 0
  | [] => 0
  end.

(** [match_at r s pos]: match [r] against [s], the text that starts at
    position [pos]; the first success in backtracking order gives the end
    position and the positions of the group boundaries. *)
Fixpoint match_at (r : list node) (s : text) (pos : nat) : option (nat * list nat) :=
  match r with
  | [] => Some (pos, [])
  | Lit l :: r' =>
      if starts_with l s
      then match_at r' (drop (length l) s) (pos + length l)
      else None
  | Opt l :: r' =>
      match (if starts_with l s
             then match_at r' (drop (length l) s) (pos + length l)
             else None) with
      | Some x => Some x
      | None => match_at r' s pos
      end
  | Rep lo greedy cs :: r' =>
      first_some (fun k => match_at r' (drop k s) (pos + k))
                 (counts lo (run cs s) greedy)
  | Mark :: r' =>
      match match_at r' s pos with
      | Some (e, ms) => Some (e, pos :: ms)
      | None => None
      end
  end.

(** Leftmost, non-overlapping matches, left to right. [skip] counts the
    characters still inside the last match; after an empty match the scan
    moves one character on. *)
Fixpoint scan (r : list node) (s : text) (pos skip : nat) : list Match :=
  match skip with
  | S k => match s with [] => [] | _ :: s' => scan r s' (S pos) k end
  | 0 =>
      match match_at r s pos with
      | Some (e, ms) =>
          {| m_start := pos; m_end := e; m_marks := ms |} ::
          match s with [] => [] | _ :: s' => scan r s' (S pos) (e - pos - 1) end
      | None => match s with [] => [] | _ :: s' => scan r s' (S pos) 0 end
      end
  end.

(** [re.finditer] *)
Definition finditer (r : list node) (s : text) : list Match := scan r s 0 0.

(** [m.group(0)] and [m.group(1)] of a match found in [s]. *)
Definition group0 (s : text) (m : Match) : text := slice s (m_start m) (m_end m).

Definition group1 (s : text) (m : Match) : text :=
  match m_marks m with
  | a :: b :: _ => slice s a b
  | _ => []
  end.

(** [re.sub] with a function: the text between the matches is kept, each
    match is replaced by [repl]. *)
Fixpoint sub_loop (s : text) (repl : text -> Match -> text)
    (ms : list Match) (pos : nat) : text :=
  match ms with
  | [] => slice s pos (length s)
  | m :: ms' => slice s pos (m_start m) ++ repl s m ++ sub_loop s repl ms' (m_end m)
  end.

Definition re_sub (r : list node) (repl : text -> Match -> text) (s : text) : text :=
  sub_loop s repl (finditer r s) 0.

(** [re.findall] for a pattern with one group. *)
Definition findall (r : list node) (s : text) : list text :=
  fmap (group1 s) (finditer r s).

End Regex.

(** [list(dict.fromkeys(l))]: duplicates removed, first occurrences kept in
    order. *)
Fixpoint fromkeys_acc (seen l : list text) : list text :=
  match l with
  | [] => []
  | x :: l' =>
      if bool_decide (x ∈ seen) then fromkeys_acc seen l'
      else x :: fromkeys_acc (x :: seen) l'
  end.

Definition fromkeys (l : list text) : list text := fromkeys_acc [] l.

(** ** Data model *)

Record Attachment := { att_filename : text; att_bytes : list N }.

(** A [discord.File]: what is uploaded with a send or an edit. *)
Record File := { file_name : text; file_bytes : list N }.

Record Embed := {
  embed_title : option text;
  embed_description : option text;
  embed_colour : option Z
}.

Record Message := {
  msg_id : Z;
  author : Z;
  content : text;
  attachments : list Attachment;
  embeds : list Embed;
  suppress_embeds : bool
}.

Record User := { user_id : Z; user_name : text }.

Inductive exn :=
| HTTPError (status : Z)
| ConnectionError
| JSONDecodeError
| KeyError (key : text)
| AttributeError (attr : text)
| ValueError
| IndexError
| NotFound (id : Z)
| FileNotFoundError (path : text).

(** Results of fallible pure steps. *)
Definition Res (A : Type) : Type := exn + A.

#[global] Instance res_ret : MRet Res := fun A x => inr x.
#[global] Instance res_bind : MBind Res := fun A B f x =>
  match x with
  | inl e => inl e
  | inr a => f a
  end.

(** ** The item catalogue and its token service *)

(** A [requests.Response]: the status and, when the body is a JSON object
    of strings, its fields. *)
Record Response := { status_code : Z; json : option (list (text * text)) }.

(** What the two remote endpoints answer; [inl] is an exception raised by
    [requests] itself. *)
Record Http := {
  post_token : Res Response;
  get_item : text -> text -> Res Response
}.

Inductive call :=
| PostToken
| GetItem (item_id token : text).

(** [response.raise_for_status()] raises for the 4xx and 5xx statuses. *)
Definition raise_for_status (r : Response) : Res unit :=
  if bool_decide (400 ≤ status_code r < 600)%Z
  then inl (HTTPError (status_code r))
  else inr ().

Fixpoint assoc (k : text) (l : list (text * text)) : option text :=
  match l with
  | [] => None
  | (k', v) :: l' => if bool_decide (k = k') then Some v else assoc k l'
  end.

(** [response.json()[k]] *)
Definition json_get (r : Response) (k : text) : Res text :=
  match json r with
  | None => inl JSONDecodeError
  | Some o =>
      match assoc k o with
      | Some v => inr v
      | None => inl (KeyError k)
      end
  end.

Definition _get_blizzard_token (h : Http) : Res text :=
  response ← post_token h;
  _ ← raise_for_status response;
  json_get response (txt "access_token").

(** The inner [get_item_name]: every exception becomes [None]. *)
Definition get_item_name (h : Http) (item_id token : text) : option text :=
  match (response ← get_item h item_id token;
         _ ← raise_for_status response;
         json_get response (txt "name")) with
  | inr name => Some name
  | inl _ => None
  end.

(** The pool's loop: a name is stored when it is not empty. The ids are
    distinct, so the table does not depend on the order in which the
    lookups complete; the calls are listed in submission order. *)
Fixpoint fetch_names (h : Http) (token : text) (item_ids : list text)
    (id_to_name : gmap text text) : gmap text text :=
  match item_ids with
  | [] => id_to_name
  | item_id :: rest =>
      fetch_names h token rest
        match get_item_name h item_id token with
        | Some (c :: name) => <[item_id := c :: name]> id_to_name
        | _ => id_to_name
        end
  end.

(** The outcome of [fix_item_links]: what it raised, the message as it
    is afterwards, and the requests it made. *)
Record Enriched := {
  outcome : Res unit;
  message_after : Message;
  calls : list call
}.

Definition with_content (m : Message) (c : text) : Message :=
  {| msg_id := msg_id m; author := author m; content := c;
     attachments := attachments m; embeds := embeds m;
     suppress_embeds := suppress_embeds m |}.

Section Enrichment.
Context `{Unicode}.

(** [\[.*?\]\(https://(?:www\.)?wowhead\.com/[^\)]*item=\d+[^\)]*\)] *)
Definition fixed_link_re : list node :=
  [Lit (txt "["); Rep 0 false Dot; Lit (txt "](https://"); Opt (txt "www.");
   Lit (txt "wowhead.com/"); Rep 0 true (NoneOf [IChar 41]); Lit (txt "item=");
   Rep 1 true (OneOf [IDigit]); Rep 0 true (NoneOf [IChar 41]); Lit (txt ")")].

(** [https://(?:www\.)?wowhead\.com/[^\s\)]*item=(\d+)[^\s\)]*] *)
Definition unfixed_link_re : list node :=
  [Lit (txt "https://"); Opt (txt "www."); Lit (txt "wowhead.com/");
   Rep 0 true (NoneOf [ISpace; IChar 41]); Lit (txt "item="); Mark;
   Rep 1 true (OneOf [IDigit]); Mark; Rep 0 true (NoneOf [ISpace; IChar 41])].

(** [lambda m: ' ' * len(m.group())] *)
Definition blank (s : text) (m : Match) : text :=
  replicate (length (group0 s m)) 32%N.

Definition blanked (s : text) : text := re_sub fixed_link_re blank s.

Definition item_ids (s : text) : list text :=
  fromkeys (findall unfixed_link_re (blanked s)).

Definition display_link (name item_id : text) : text :=
  txt "[" ++ name ++ txt "](https://www.wowhead.com/ru/item=" ++ item_id ++ txt ")".

Definition replace_match (id_to_name : gmap text text) (s : text) (m : Match) : text :=
  let item_id := group1 s m in
  match id_to_name !! item_id with
  | Some (c :: name) => display_link (c :: name) item_id
  | _ => group0 s m
  end.

(** The loop of [replace_unfixed]: [result] grows by the rewritten chunk
    before each already-fixed link and by the link itself. *)
Fixpoint replace_unfixed_loop (id_to_name : gmap text text) (s : text)
    (fixed : list Match) (pos : nat) (result : list text) : list text :=
  match fixed with
  | [] =>
      result ++ [re_sub unfixed_link_re (replace_match id_to_name)
                        (slice s pos (length s))]
  | f :: rest =>
      let chunk := slice s pos (m_start f) in
      replace_unfixed_loop id_to_name s rest (m_end f)
        ((result ++ [re_sub unfixed_link_re (replace_match id_to_name) chunk])
           ++ [group0 s f])
  end.

Definition replace_unfixed (id_to_name : gmap text text) (s : text) : text :=
  concat (replace_unfixed_loop id_to_name s (finditer fixed_link_re s) 0 []).

Definition fix_item_links (h : Http) (message : Message) : Enriched :=
  match item_ids (content message) with
  | [] => {| outcome := inr (); message_after := message; calls := [] |}
  | ids =>
      match _get_blizzard_token h with
      | inl e => {| outcome := inl e; message_after := message; calls := [PostToken] |}
      | inr token =>
          let id_to_name := fetch_names h token ids ∅ in
          {| outcome := inr ();
             message_after :=
               with_content message (replace_unfixed id_to_name (content message));
             calls := PostToken :: fmap (fun i => GetItem i token) ids |}
      end
  end.

(** *** The partition the rewrite is specified by

    The text is cut into the already-fixed links, the bare links between
    them and the plain text around both; a rewrite maps each part. *)
Inductive span :=
| Plain (t : text)
| Bare (url item_id : text)
| Resolved (t : text).

Definition span_text (p : span) : text :=
  match p with
  | Plain t => t
  | Bare url _ => url
  | Resolved t => t
  end.

Definition rewrite_span (id_to_name : gmap text text) (p : span) : text :=
  match p with
  | Plain t => t
  | Resolved t => t
  | Bare url item_id =>
      match id_to_name !! item_id with
      | Some (c :: name) => display_link (c :: name) item_id
      | _ => url
      end
  end.

Fixpoint cut (s : text) (ms : list Match) (pos : nat)
    (hit : Match -> span) (gap : text -> list span) : list span :=
  match ms with
  | [] => gap (slice s pos (length s))
  | m :: ms' => gap (slice s pos (m_start m)) ++ hit m :: cut s ms' (m_end m) hit gap
  end.

Definition bare_spans (chunk : text) : list span :=
  cut chunk (finditer unfixed_link_re chunk) 0
      (fun m => Bare (group0 chunk m) (group1 chunk m)) (fun t => [Plain t]).

Definition link_spans (s : text) : list span :=
  cut s (finditer fixed_link_re s) 0 (fun m => Resolved (group0 s m)) bare_spans.

End Enrichment.

(** ** The channel, the file store and the commands' world *)

(** One element of the exported document: the header, or a record. *)
Inductive entry :=
| Header (chn_name : text) (chn_id : Z)
| Rec (rec_content : text) (rec_images : list text) (rec_embeds : list (option text)).

Inductive event :=
| Responded (t : text) (ephemeral : bool)   (* ctx.respond *)
| Sent (m : Message)                        (* channel.send / ctx.send *)
| Fetched (id : Z)                          (* channel.fetch_message *)
| Edited (m : Message)                      (* message.edit; the record afterwards *)
| Deleted (id : Z)                          (* message.delete *)
| Downloaded (a : Attachment)               (* Attachment.to_file / read *)
| DirectMessage (user : Z) (t : text)       (* user.send *)
| MadeDir (path : text)                     (* Path.mkdir *)
| WroteFile (path : text)                   (* open(path, 'wb').write *)
| WroteDocument (path : text).              (* json.dump *)

(** [chan] is the channel of the command, oldest record first; ids are
    handed out by the platform from [next_id]. Replies to the interaction
    are not records of the channel: they are only traced. [files] holds
    the attachment files, [documents] the exported JSON documents. *)
Record World := {
  chan : list Message;
  next_id : Z;
  trace : list event;
  files : gmap text (list N);
  documents : gmap text (list entry)
}.

Definition M (A : Type) : Type := World -> Res A * World.

#[global] Instance m_ret : MRet M := fun A x w => (inr x, w).
#[global] Instance m_bind : MBind M := fun A B f c w =>
  match c w with
  | (inl e, w') => (inl e, w')
  | (inr a, w') => f a w'
  end.

Definition raise {A} (e : exn) : M A := fun w => (inl e, w).

Definition log (ev : event) : M unit := fun w =>
  (inr (), {| chan := chan w; next_id := next_id w; trace := trace w ++ [ev];
              files := files w; documents := documents w |}).

Definition set_chan (l : list Message) : M unit := fun w =>
  (inr (), {| chan := l; next_id := next_id w; trace := trace w;
              files := files w; documents := documents w |}).

Definition get_chan : M (list Message) := fun w => (inr (chan w), w).

Definition fresh_id : M Z := fun w =>
  (inr (next_id w), {| chan := chan w; next_id := next_id w + 1; trace := trace w;
                       files := files w; documents := documents w |}).

Fixpoint for_each {A} (l : list A) (body : A -> M unit) : M unit :=
  match l with
  | [] => mret ()
  | x :: l' => _ ← body x; for_each l' body
  end.

Fixpoint find_msg (id : Z) (l : list Message) : option Message :=
  match l with
  | [] => None
  | m :: l' => if bool_decide (msg_id m = id) then Some m else find_msg id l'
  end.

Definition put_msg (m' : Message) (l : list Message) : list Message :=
  fmap (fun m => if bool_decide (msg_id m = msg_id m') then m' else m) l.

Definition remove_msg (id : Z) (l : list Message) : list Message :=
  filter (fun m => msg_id m ≠ id) l.

(** An uploaded file becomes an attachment with the same name and bytes. *)
Definition upload (f : File) : Attachment :=
  {| att_filename := file_name f; att_bytes := file_bytes f |}.

(** [await discord.Attachment.to_file(x)] *)
Definition to_file (x : Attachment) : M File :=
  _ ← log (Downloaded x);
  mret {| file_name := att_filename x; file_bytes := att_bytes x |}.

(** [[await discord.Attachment.to_file(x) for x in l]] *)
Fixpoint to_files (l : list Attachment) : M (list File) :=
  match l with
  | [] => mret []
  | x :: l' => f ← to_file x; fs ← to_files l'; mret (f :: fs)
  end.

(** [ctx.respond] *)
Definition respond (t : text) (ephemeral : bool) : M unit :=
  log (Responded t ephemeral).

(** [channel.history]: the records of the channel as they are when the
    iteration starts, newest first unless [oldest_first]. The commands
    pass no [limit]; how many records the client library, which is not
    part of the repository, then yields is its own matter: here the
    iteration yields every record of the channel. *)
Definition history (oldest_first : bool) : M (list Message) :=
  l ← get_chan; mret (if oldest_first then l else reverse l).

(** [channel.fetch_message] *)
Definition fetch_message (id : Z) : M Message :=
  l ← get_chan;
  match find_msg id l with
  | Some m => _ ← log (Fetched id); mret m
  | None => raise (NotFound id)
  end.

(** [message.edit]: a field that is not passed keeps its value; the files
    are added to the attachments that are kept. *)
Definition edit (id : Z) (new_content : option text)
    (keep : option (list Attachment)) (new_files : list File)
    (new_embeds : option (list Embed)) (suppress : option bool) : M unit :=
  l ← get_chan;
  match find_msg id l with
  | None => raise (NotFound id)
  | Some m =>
      let m' := {| msg_id := msg_id m; author := author m;
                   content := default (content m) new_content;
                   attachments := default (attachments m) keep ++ fmap upload new_files;
                   embeds := default (embeds m) new_embeds;
                   suppress_embeds := default (suppress_embeds m) suppress |} in
      _ ← set_chan (put_msg m' l);
      log (Edited m')
  end.

(** [message.delete] *)
Definition delete (id : Z) : M unit :=
  l ← get_chan;
  match find_msg id l with
  | None => raise (NotFound id)
  | Some _ => _ ← set_chan (remove_msg id l); log (Deleted id)
  end.

(** [user.send] *)
Definition user_send (u : User) (t : text) : M unit :=
  log (DirectMessage (user_id u) t).

(** [l[i]] *)
Definition index (l : list Z) (i : nat) : M Z :=
  match l !! i with
  | Some x => mret x
  | None => raise IndexError
  end.

(** What the cog takes from the rest of the program and from its
    context: the bot, the modules [emoji_management] and [constants], the
    channel of the command and the date. [reTitleGroup s] is
    [match(reTitleGroup, s)], reduced to its first group. *)
Class Env := {
  bot_user : Z;
  get_user : Z -> option User;
  py_int : text -> Res Z;
  emojify : text -> text;
  deemojify : text -> text;
  FILEPATH : text;
  reTitleGroup : text -> option text;
  channel_id : Z;
  channel_name : text;
  jump_url : Z -> text;
  today_day : nat;
  today_month : nat
}.

(** [str(n)] *)
Definition str_nat (n : nat) : text := txt (pretty n).

(** The last component of a path: the name [discord.File] gives a file
    opened from a path. *)
Fixpoint basename_acc (acc p : text) : text :=
  match p with
  | [] => acc
  | c :: p' => if N.eqb c 47 then basename_acc [] p' else basename_acc (acc ++ [c]) p'
  end.

Definition basename (p : text) : text := basename_acc [] p.

Definition lift {A} (r : Res A) : M A := fun w => (r, w).

Definition write_file (path : text) (data : list N) : M unit := fun w =>
  (inr (), {| chan := chan w; next_id := next_id w;
              trace := trace w ++ [WroteFile path];
              files := <[path := data]> (files w); documents := documents w |}).

Definition write_document (path : text) (doc : list entry) : M unit := fun w =>
  (inr (), {| chan := chan w; next_id := next_id w;
              trace := trace w ++ [WroteDocument path];
              files := files w; documents := <[path := doc]> (documents w) |}).

Definition get_document (path : text) : M (option (list entry)) := fun w =>
  (inr (documents w !! path), w).

(** [discord.File(path)] *)
Definition open_file (path : text) : M File := fun w =>
  match files w !! path with
  | Some data => (inr {| file_name := basename path; file_bytes := data |}, w)
  | None => (inl (FileNotFoundError path), w)
  end.

(** [s.replace(c, '')] for a single character [c]. *)
Definition remove_char (c : N) (s : text) : text :=
  filter (fun x => x ≠ c) s.

(** [user.name] and [user.send] on what [get_user] returned. *)
Definition attr_name (user : option User) : M text :=
  match user with
  | Some u => mret (user_name u)
  | None => raise (AttributeError (txt "name"))
  end.

Definition attr_send (user : option User) (t : text) : M unit :=
  match user with
  | Some u => user_send u t
  | None => raise (AttributeError (txt "send"))
  end.

(** The title of the table of contents, as code points. *)
Definition toc_title : text :=
  [1057; 1086; 1076; 1077; 1088; 1078; 1072; 1085; 1080; 1077]%N.

(** [discord.Colour.blurple()] *)
Definition blurple : Z := 5793266.

Definition has_toc_title (e : Embed) : bool :=
  bool_decide (embed_title e = Some toc_title).

(** [suppress=False if embeds else True] *)
Definition suppress_for (es : list Embed) : bool :=
  match es with
  | [] => true
  | _ :: _ => false
  end.

Section Commands.
Context `{Unicode} `{Env}.

(** [channel.send] and [ctx.send] *)
Definition channel_send (c : text) (fs : list File) (es : list Embed)
    (suppress : bool) : M Message :=
  id ← fresh_id;
  l ← get_chan;
  let m := {| msg_id := id; author := bot_user; content := c;
              attachments := fmap upload fs; embeds := es;
              suppress_embeds := suppress |} in
  _ ← set_chan (l ++ [m]);
  _ ← log (Sent m);
  mret m.

(** [s.strip()] *)
Fixpoint lstrip (s : text) : text :=
  match s with
  | c :: s' => if py_isspace c then lstrip s' else s
  | [] => []
  end.

Definition strip (s : text) : text := reverse (lstrip (reverse (lstrip s))).

(** *** insert_message *)

(** The loop over [ctx.channel.history()], newest record first; it
    leaves at the target. *)
Fixpoint collect_bot_msgs (target : Z) (hist : list Message)
    (chnl_bot_msgs : list Z) : list Z :=
  match hist with
  | [] => chnl_bot_msgs
  | msg :: rest =>
      if bool_decide (author msg = bot_user) then
        if bool_decide (target = msg_id msg)
        then chnl_bot_msgs ++ [msg_id msg]
        else collect_bot_msgs target rest (chnl_bot_msgs ++ [msg_id msg])
      else collect_bot_msgs target rest chnl_bot_msgs
  end.

(** The body of [for i in range(len(chnl_bot_msgs[0:-1]))]. The two
    fetches of [asyncio.gather] are both done before the edit. *)
Definition shift_step (chnl_bot_msgs : list Z) (i : nat) : M unit :=
  a ← index chnl_bot_msgs i;
  b ← index chnl_bot_msgs (i + 1);
  msg_crt ← fetch_message a;
  msg_nxt ← fetch_message b;
  fs ← to_files (attachments msg_nxt);
  edit (msg_id msg_crt) (Some (content msg_nxt)) (Some []) fs
       (Some (embeds msg_nxt)) (Some (suppress_for (embeds msg_nxt))).

Definition insert_message (message : Message) : M unit :=
  _ ← respond (txt "Inserted empty message at " ++ jump_url (msg_id message)) true;
  _ ← channel_send (txt "*** ***") [] [] false;
  hist ← history false;
  let chnl_bot_msgs := collect_bot_msgs (msg_id message) hist [] in
  _ ← for_each (seq 0 (length (removelast chnl_bot_msgs))) (shift_step chnl_bot_msgs);
  edit (msg_id message) (Some (txt "**[PH]**")) None [] (Some []) (Some true).

(** *** summary and republish *)

Definition toc_line (description : text) (msg : Message) : text :=
  match reTitleGroup (content msg) with
  | Some g =>
      description ++ txt "[" ++ strip (remove_char 35 g) ++ txt "]("
        ++ jump_url (msg_id msg) ++ txt ")" ++ [10%N]
  | None => description
  end.

Definition summary : M unit :=
  _ ← respond (txt "Starting the process...") true;
  hist ← history true;
  let description := foldl toc_line [] hist in
  _ ← channel_send [] []
        [{| embed_title := Some toc_title; embed_description := Some description;
            embed_colour := Some blurple |}] false;
  mret ().

(** The body of the loop of [republish]. *)
Definition republish_one (message : Message) : M unit :=
  _ ← match content message with
      | _ :: _ =>
          if bool_decide (author message = bot_user) then
            fs ← to_files (attachments message);
            _ ← channel_send (content message) fs (embeds message)
                  (suppress_for (embeds message));
            mret ()
          else
            fs ← to_files (attachments message);
            _ ← channel_send (emojify (content message)) fs (embeds message)
                  (suppress_for (embeds message));
            mret ()
      | [] =>
          match embeds message with
          | e :: _ =>
              if has_toc_title e then summary
              else _ ← channel_send (txt "*** ***") [] [] false; mret ()
          | [] => _ ← channel_send (txt "*** ***") [] [] false; mret ()
          end
      end;
  delete (msg_id message).

Definition republish : M unit :=
  _ ← respond (txt "Starting the process") true;
  hist ← history true;
  for_each hist republish_one.

(** *** save_messages and publish *)

Definition default_filename : text :=
  if bool_decide (channel_id = 862009501036838952%Z) then txt "resto"
  else if bool_decide (channel_id = 780149018104954921%Z) then txt "feral"
  else if bool_decide (channel_id = 780458782181294131%Z) then txt "guardian"
  else if bool_decide (channel_id = 779796524275204107%Z) then txt "boomkin"
  else channel_name.

(** The loop over [msg.attachments]. [img_id] is a variable of the
    function: each round starts by setting it to 0 and ends by adding 1. *)
Fixpoint save_attachments (filename : text) (l : list Attachment)
    (images : list text) (img_id : nat) : M (list text * nat) :=
  match l with
  | [] => mret (images, img_id)
  | attachment :: rest =>
      let img_id := 0 in
      _ ← log (Downloaded attachment);
      _ ← write_file (FILEPATH ++ txt "/" ++ filename ++ txt "/"
                        ++ str_nat img_id ++ txt ".png")
                     (att_bytes attachment);
      let images := images ++ [filename ++ txt "/" ++ str_nat img_id ++ txt ".png"] in
      let img_id := img_id + 1 in
      save_attachments filename rest images img_id
  end.

(** The loop over the history of [save_messages]. *)
Fixpoint save_records (filename : text) (hist : list Message)
    (msgs : list entry) (img_id : nat) : M (list entry) :=
  match hist with
  | [] => mret msgs
  | msg :: rest =>
      let content := deemojify (content msg) in
      let embeds := fmap embed_description (embeds msg) in
      '(images, img_id) ← save_attachments filename (attachments msg) [] img_id;
      save_records filename rest (msgs ++ [Rec content images embeds]) img_id
  end.

Definition save_messages (filename : option text) : M unit :=
  _ ← respond (txt "Saving") true;
  let msgs := [Header channel_name channel_id] in
  let filename :=
    match filename with
    | Some f => f
    | None => default_filename ++ txt "-" ++ str_nat today_day ++ txt "."
                ++ str_nat today_month
    end in
  _ ← log (MadeDir (FILEPATH ++ txt "/" ++ filename));
  hist ← history true;
  msgs ← save_records filename hist msgs 0;
  _ ← write_document (FILEPATH ++ txt "/" ++ filename ++ txt ".json") msgs;
  respond (txt "Done") true.

(** [[discord.File(f"{FILEPATH}/{image}") for image in images]] *)
Fixpoint open_files (images : list text) : M (list File) :=
  match images with
  | [] => mret []
  | image :: rest =>
      f ← open_file (FILEPATH ++ txt "/" ++ image);
      fs ← open_files rest;
      mret (f :: fs)
  end.

(** The body of the loop of [publish]. *)
Definition publish_one (msg : entry) : M unit :=
  match msg with
  | Header _ _ => raise (KeyError (txt "images"))
  | Rec c images descriptions =>
      fs ← open_files images;
      let es := fmap (fun d => {| embed_title := None; embed_description := d;
                                 embed_colour := None |}) descriptions in
      _ ← channel_send (emojify c) fs es false;
      mret ()
  end.

Definition publish (filename : text) : M unit :=
  doc ← get_document (FILEPATH ++ txt "/" ++ filename ++ txt ".json");
  match doc with
  | None => respond (txt "Bad filename: " ++ filename) true
  | Some messages =>
      _ ← respond (txt "Starting") false;
      for_each (drop 1 messages) publish_one
  end.

(** *** dump_messages *)

Definition dump_messages (id : text) : M unit :=
  n ← lift (py_int id);
  let user := get_user n in
  if user is None then
    name ← attr_name user;
    respond (txt "Bad user name " ++ name) false
  else
    name ← attr_name user;
    _ ← respond (txt "Sending the messages to " ++ name) true;
    hist ← history true;
    for_each hist (fun message =>
      attr_send user (txt "```" ++ deemojify (content message) ++ txt "```")).

End Commands.

(** ** More of [str] *)

(** [sub in s] *)
Fixpoint contains (sub s : text) : bool :=
  starts_with sub s
  || match s with
     | [] => false
     | _ :: s' => contains sub s'
     end.

(** The scan of [s.split(sep)], left to right: [part] is the text since
    the last separator, [skip] counts the characters of a separator that
    was found and is still to be passed. *)
Fixpoint split_loop (sep s : text) (skip : nat) (part : text) : list text :=
  match s with
  | [] => [part]
  | c :: s' =>
      match skip with
      | S k => split_loop sep s' k part
      | 0 =>
          if starts_with sep s then part :: split_loop sep s' (length sep - 1) []
          else split_loop sep s' 0 (part ++ [c])
      end
  end.

(** [s.split(sep)]; an empty separator is an error. *)
Definition py_split (sep s : text) : Res (list text) :=
  match sep with
  | [] => inl ValueError
  | _ :: _ => inr (split_loop sep s 0 [])
  end.

(** The scan of [s.replace(old, new)] for an [old] that is not empty. *)
Fixpoint replace_loop (old new s : text) (skip : nat) : text :=
  match s with
  | [] => []
  | c :: s' =>
      match skip with
      | S k => replace_loop old new s' k
      | 0 =>
          if starts_with old s then new ++ replace_loop old new s' (length old - 1)
          else c :: replace_loop old new s' 0
      end
  end.

(** [s.replace(old, new)]; an empty [old] matches before every character
    and at the end. *)
Definition py_replace (old new s : text) : text :=
  match old with
  | [] => new ++ flat_map (fun c => c :: new) s
  | _ :: _ => replace_loop old new s 0
  end.

(** [str.lower] follows the Unicode database, like the character
    classes. *)
Class Casing := { py_lower : text -> text }.

Section MoreCommands.
Context `{Unicode} `{Env} `{Casing}.

(** *** embedify_message *)

(** [match(reTitleGroup, s).group(1)]: without a match, [group] is looked
    up on [None]. *)
Definition title_group (s : text) : M text :=
  match reTitleGroup s with
  | Some g => mret g
  | None => raise (AttributeError (txt "group"))
  end.

Definition embedify_message (message : Message) : M unit :=
  if negb (bool_decide (author message = bot_user)) then
    respond (txt "Cannot edit non-bot message") true
  else
    title ← title_group (content message);
    let messageContent := strip (py_replace title [] (content message)) in
    let embed2 := {| embed_title := None; embed_description := Some messageContent;
                     embed_colour := None |} in
    _ ← edit (msg_id message) (Some title) None [] (Some [embed2]) (Some false);
    respond (txt "Successfully changed message at " ++ jump_url (msg_id message)) true.

(** *** edit_message *)

(** [f"{x}"] for a description, which may be [None]. *)
Definition str_description (d : option text) : text :=
  match d with
  | Some t => t
  | None => txt "None"
  end.

Definition cancel_hint : text :=
  txt "``` " ++ [10%N] ++ txt " Write " ++ [34%N] ++ txt "Cancel" ++ [34%N]
    ++ txt " to stop the process".

(** The text sent to the user: the record as it is, to be edited. *)
Definition edit_prompt (m : Message) : text :=
  match embeds m with
  | e :: _ =>
      txt " ```" ++ deemojify (content m) ++ [10%N] ++ txt "EMBED" ++ [10%N]
        ++ str_description (embed_description e) ++ cancel_hint
  | [] => txt " ```" ++ deemojify (content m) ++ cancel_hint
  end.

(** [answer] is what [bot.wait_for] gives: the next message of the user
    in the direct-message channel that is not empty, or the exception it
    raises when none comes in time. The files of the first direct message
    are read and go with it. *)
Definition edit_message (h : Http) (user : User) (answer : Res Message)
    (message : Message) : M unit :=
  if negb (bool_decide (author message = bot_user)) then
    respond (txt "Cannot edit non-bot message") true
  else
    let originalMessage := message in
    _ ← respond (txt "Sent you a dm") true;
    _ ← to_files (attachments originalMessage);
    _ ← user_send user (edit_prompt originalMessage);
    answ ← lift answer;
    if bool_decide (py_lower (content answ) = txt "cancel") then
      user_send user (txt "Cancelled")
    else
      let enriched := fix_item_links h answ in
      _ ← lift (outcome enriched);
      let answ := message_after enriched in
      _ ← (if contains (txt "EMBED") (content answ) then
             parts ← lift (py_split (txt "EMBED") (content answ));
             match strip <$> parts with
             | [messageContent; embedContent] =>
                 let embed := {| embed_title := None;
                                 embed_description := Some embedContent;
                                 embed_colour := None |} in
                 edit (msg_id originalMessage) (Some (emojify messageContent))
                      None [] (Some [embed]) None
             | _ => raise ValueError
             end
           else
             fs ← to_files (attachments answ);
             edit (msg_id originalMessage) (Some (emojify (content answ)))
                  (Some []) fs None None);
      user_send user
        (txt "Successfully changed message at " ++ jump_url (msg_id originalMessage)).

End MoreCommands.

(** ** The patterns of a trigger ([message_triggers.py])

    [set_trigger] takes the patterns as one text, separated by commas,
    and stores them joined by commas again; [on_message] reads the stored
    text the way [set_trigger] read its argument. *)

(** [sep.join(l)] *)
Fixpoint py_join (sep : text) (l : list text) : text :=
  match l with
  | [] => []
  | [x] => x
  | x :: l' => x ++ sep ++ py_join sep l'
  end.

Section Triggers.
Context `{Unicode}.

(** [[p.strip() for p in patterns.split(",") if p.strip()]] *)
Definition pattern_list (patterns : text) : list text :=
  filter (fun p => p ≠ []) (strip <$> split_loop (txt ",") patterns 0 []).

(** [",".join(pattern_list)] *)
Definition patterns_str (patterns : text) : text :=
  py_join (txt ",") (pattern_list patterns).

End Triggers.

(** The text [on_message] replies with, for the response text and the
    link of the trigger that matched: the link takes the place of every
    [<>], or is appended. *)
Definition reply_content (response_text : text) (message_url : option text) : text :=
  match message_url with
  | Some (c :: url) =>
      if contains (txt "<>") response_text
      then py_replace (txt "<>") (c :: url) response_text
      else response_text ++ txt " " ++ c :: url
  | _ => response_text
  end.

(** * Specifications

    The definitions the theorems are stated with: what a rewrite or a
    command is expected to leave behind, written without the loops and
    the accumulators of the code. *)

(** ** Matching *)

(** Matches in reading order, each inside [pos .. n] and none before the
    end of the one before it. *)
Fixpoint sorted_spans (pos n : nat) (ms : list Match) : Prop :=
  match ms with
  | [] => True
  | m :: ms' =>
      pos ≤ m_start m ∧ m_start m ≤ m_end m ∧ m_end m ≤ n
      ∧ sorted_spans (m_end m) n ms'
  end.

Section Shapes.
Context `{Unicode}.

(** The words a pattern matches, with the offsets of its group
    boundaries from the start of the word. *)
Inductive matches : list node -> text -> list nat -> Prop :=
| matches_nil : matches [] [] []
| matches_lit l r w ms :
    matches r w ms ->
    matches (Lit l :: r) (l ++ w) ((fun k => length l + k) <$> ms)
| matches_opt_yes l r w ms :
    matches r w ms ->
    matches (Opt l :: r) (l ++ w) ((fun k => length l + k) <$> ms)
| matches_opt_no l r w ms :
    matches r w ms -> matches (Opt l :: r) w ms
| matches_rep lo g cs r u w ms :
    lo ≤ length u -> Forall (fun c => cset_mem cs c = true) u ->
    matches r w ms ->
    matches (Rep lo g cs :: r) (u ++ w) ((fun k => length u + k) <$> ms)
| matches_mark r w ms :
    matches r w ms -> matches (Mark :: r) w (0 :: ms).

(** A character of a bare link: no white space, no closing parenthesis. *)
Definition url_char (c : N) : Prop := py_isspace c = false ∧ c ≠ 41%N.

(** [[label](https://www.wowhead.com/...item=123...)] *)
Definition is_display_link (t : text) : Prop :=
  ∃ label www path digits tail,
    t = txt "[" ++ label ++ txt "](https://" ++ www ++ txt "wowhead.com/"
          ++ path ++ txt "item=" ++ digits ++ tail ++ txt ")"
    ∧ (www = [] ∨ www = txt "www.")
    ∧ (10%N ∉ label) ∧ (41%N ∉ path) ∧ (41%N ∉ tail)
    ∧ digits ≠ [] ∧ Forall (fun c => py_isdecimal c = true) digits.

(** [https://www.wowhead.com/...item=123...], with its id. *)
Definition is_bare_link (url item_id : text) : Prop :=
  ∃ www path tail,
    url = txt "https://" ++ www ++ txt "wowhead.com/" ++ path ++ txt "item="
            ++ item_id ++ tail
    ∧ (www = [] ∨ www = txt "www.")
    ∧ Forall url_char path ∧ Forall url_char tail
    ∧ item_id ≠ [] ∧ Forall (fun c => py_isdecimal c = true) item_id.

Definition span_shape (p : span) : Prop :=
  match p with
  | Plain _ => True
  | Bare url item_id => is_bare_link url item_id
  | Resolved t => is_display_link t
  end.

End Shapes.

(** ** The two passes of the enrichment

    What a second enrichment does to the text the first one wrote is
    read off the scan: where the display-link pattern matches, and where
    it does not. *)
Section Passes.
Context `{Unicode}.

(** The pattern matches at the start of the text. *)
Definition live (r : list node) (s : text) : Prop := is_Some (match_at r s 0).

(** A match at position 0, moved to position [pos]. *)
Definition shift_result (pos : nat) (x : nat * list nat) : nat * list nat :=
  (pos + x.1, (fun k => pos + k) <$> x.2).

(** The pattern matches nowhere in [g]; it matches nowhere inside [g]
    when [rest] follows. *)
Definition dead_all (r : list node) (g : text) : Prop :=
  ∀ j, j ≤ length g -> match_at r (drop j g) 0 = None.

Definition dead_in (r : list node) (g rest : text) : Prop :=
  ∀ j, j < length g -> match_at r (drop j g ++ rest) 0 = None.

Definition never_empty (r : list node) : Prop :=
  ∀ T e ms, match_at r T 0 = Some (e, ms) -> 0 < e.

(** The display-link pattern after the label. *)
Definition fixed_tail : list node :=
  [Lit (txt "](https://"); Opt (txt "www.");
   Lit (txt "wowhead.com/"); Rep 0 true (NoneOf [IChar 41]); Lit (txt "item=");
   Rep 1 true (OneOf [IDigit]); Rep 0 true (NoneOf [IChar 41]); Lit (txt ")")].

Definition is_link_tail (v : text) : Prop :=
  ∃ www path digits tail,
    v = txt "](https://" ++ www ++ txt "wowhead.com/"
          ++ path ++ txt "item=" ++ digits ++ tail ++ txt ")"
    ∧ (www = [] ∨ www = txt "www.")
    ∧ (41%N ∉ path) ∧ (41%N ∉ tail)
    ∧ digits ≠ [] ∧ Forall (fun c => py_isdecimal c = true) digits.

(** A name the rewrite can write into a label without changing how the
    text around it is read: not empty, no closing parenthesis, no line
    feed. *)
Definition plain_name (name : text) : Prop :=
  name ≠ [] ∧ (41%N ∉ name) ∧ (10%N ∉ name).

(** Every bare link of the partition has a plain name in the table. *)
Definition resolves (idn : gmap text text) (l : list span) : Prop :=
  ∀ u i, Bare u i ∈ l -> ∃ name, idn !! i = Some name ∧ plain_name name.

(** A part the rewrite copies. *)
Definition kept (p : span) : Prop := ∀ u i, p ≠ Bare u i.

(** No bare link starts inside [x], whatever follows in its chunk. *)
Definition no_bare (x : text) : Prop := ∃ R, dead_in unfixed_link_re x R.

(** A bare link [B0] with the link [B] written for it, or a display link
    that is kept; [T0] is the text after [B0]. *)
Definition block (idn : gmap text text) (T0 B0 B : text) : Prop :=
  (∃ i name, is_bare_link B0 i ∧ idn !! i = Some name ∧ plain_name name
             ∧ B = display_link name i)
  ∨ (B = B0 ∧ ∃ ms, match_at fixed_link_re (B0 ++ T0) 0 = Some (length B0, ms)).

(** [paired idn T0 T]: [T0] is a text from a position outside its display
    links, [T] what the rewrite with the table [idn] makes of it, when
    every bare link of [T0] has a plain name in [idn]. The text before
    each block holds no match of either pattern. *)
Inductive paired (idn : gmap text text) : text -> text -> Prop :=
| paired_end x :
    dead_in fixed_link_re x [] -> no_bare x -> paired idn x x
| paired_block x B0 B T0 T :
    paired idn T0 T -> block idn T0 B0 B ->
    dead_in fixed_link_re x (B0 ++ T0) -> no_bare x ->
    paired idn (x ++ B0 ++ T0) (x ++ B ++ T).

End Passes.

(** The catalogue gives no usable name for the id. *)
Definition unresolved (h : Http) (token item_id : text) : Prop :=
  get_item_name h item_id token = None ∨ get_item_name h item_id token = Some [].

(** ** Channels *)

(** Ids are unique and below the next id the platform hands out. *)
Definition wf (w : World) : Prop :=
  NoDup (msg_id <$> chan w) ∧ Forall (fun m => (msg_id m < next_id w)%Z) (chan w).

Definition with_chan (w : World) (l : list Message) (evs : list event) : World :=
  {| chan := l; next_id := next_id w; trace := trace w ++ evs;
     files := files w; documents := documents w |}.

(** What a reader sees of a record. *)
Definition payload (m : Message) : text * list Attachment * list Embed :=
  (content m, attachments m, embeds m).

(** [dst] after it was overwritten with what [src] shows. *)
Definition take_payload (dst src : Message) : Message :=
  {| msg_id := msg_id dst; author := author dst; content := content src;
     attachments := attachments src; embeds := embeds src;
     suppress_embeds := suppress_for (embeds src) |}.

(** The target after the last edit of [insert_message]. *)
Definition placeholder_edit (m : Message) : Message :=
  {| msg_id := msg_id m; author := author m; content := txt "**[PH]**";
     attachments := attachments m; embeds := []; suppress_embeds := true |}.

(** The record as [message.edit] leaves it. *)
Definition edited (m : Message) (c : option text) (keep : option (list Attachment))
    (fs : list File) (es : option (list Embed)) (s : option bool) : Message :=
  {| msg_id := msg_id m; author := author m;
     content := default (content m) c;
     attachments := default (attachments m) keep ++ (upload <$> fs);
     embeds := default (embeds m) es;
     suppress_embeds := default (suppress_embeds m) s |}.

Fixpoint adjacent {A} (l : list A) : list (A * A) :=
  match l with
  | a :: (b :: _) as l' => (a, b) :: adjacent l'
  | _ => []
  end.

(** One step of the shift: both records are fetched, the attachments of
    the second are downloaded, the first is overwritten. *)
Definition copy_events (p : Message * Message) : list event :=
  [Fetched (msg_id p.1); Fetched (msg_id p.2)]
    ++ (Downloaded <$> attachments p.2) ++ [Edited (take_payload p.1 p.2)].

Definition overwrite (p : Message * Message) : event :=
  Edited (take_payload p.1 p.2).

Definition is_edit (ev : event) : bool :=
  match ev with
  | Edited _ => true
  | _ => false
  end.

(** The edits of a trace, in order. *)
Definition edits (tr : list event) : list event :=
  filter (fun ev => is_edit ev) tr.

Definition is_send_or_delete (ev : event) : bool :=
  match ev with
  | Sent _ | Deleted _ => true
  | _ => false
  end.

(** The sends and deletions of a trace, in order. *)
Definition sends_deletes (tr : list event) : list event :=
  filter (fun ev => is_send_or_delete ev) tr.

(** A record replaced: the new one is sent, then the old one deleted. *)
Definition swap_events (p : Message * Message) : list event :=
  [Sent p.2; Deleted (msg_id p.1)].

(** [message.embeds and message.embeds[0].title == ...] *)
Definition qualifies (m : Message) : bool :=
  match embeds m with
  | e :: _ => has_toc_title e
  | [] => false
  end.

Definition description_only (d : option text) : Embed :=
  {| embed_title := None; embed_description := d; embed_colour := None |}.

Section Specifications.
Context `{Unicode} `{Env}.

Definition is_bot (m : Message) : Prop := author m = bot_user.

#[global] Instance is_bot_dec m : Decision (is_bot m) := _.

(** The record [channel.send("*** ***")] appends. *)
Definition placeholder (id : Z) : Message :=
  {| msg_id := id; author := bot_user; content := txt "*** ***";
     attachments := []; embeds := []; suppress_embeds := false |}.

(** The records after the target, oldest first, once the content moved
    one automation-owned record later: each of them shows what the
    automation-owned record before it showed ([carry]). *)
Fixpoint shifted (carry : Message) (l : list Message) : list Message :=
  match l with
  | [] => []
  | m :: l' =>
      if bool_decide (is_bot m) then take_payload m carry :: shifted m l'
      else m :: shifted carry l'
  end.

(** One round of the shift loop on two ids. *)
Definition copy (a b : Z) : M unit :=
  msg_crt ← fetch_message a;
  msg_nxt ← fetch_message b;
  fs ← to_files (attachments msg_nxt);
  edit (msg_id msg_crt) (Some (content msg_nxt)) (Some []) fs
       (Some (embeds msg_nxt)) (Some (suppress_for (embeds msg_nxt))).

(** The shift loop, by recursion on the collected ids. *)
Fixpoint shift_pairs (c : list Z) : M unit :=
  match c with
  | a :: (b :: _) as c' => _ ← copy a b; shift_pairs c'
  | _ => mret ()
  end.

(** The world [insert_message] leaves, for the channel [pre ++ t :: post]. *)
Definition inserted (w : World) (pre : list Message) (t : Message)
    (post : list Message) : World :=
  let p := placeholder (next_id w) in
  {| chan := pre ++ placeholder_edit t :: shifted t (post ++ [p]);
     next_id := next_id w + 1;
     trace := trace w
       ++ [Responded (txt "Inserted empty message at " ++ jump_url (msg_id t)) true;
           Sent p]
       ++ flat_map copy_events (adjacent (reverse (filter is_bot (post ++ [p])) ++ [t]))
       ++ [Edited (placeholder_edit t)];
     files := files w; documents := documents w |}.

(** The table of contents [summary] sends when the channel is [l]. *)
Definition toc_record (l : list Message) (id : Z) : Message :=
  {| msg_id := id; author := bot_user; content := []; attachments := [];
     embeds := [{| embed_title := Some toc_title;
                   embed_description := Some (foldl toc_line [] l);
                   embed_colour := Some blurple |}];
     suppress_embeds := false |}.

(** A copy of [m] sent by the bot with the text [c]. *)
Definition copy_of (m : Message) (c : text) (id : Z) : Message :=
  {| msg_id := id; author := bot_user; content := c;
     attachments := attachments m; embeds := embeds m;
     suppress_embeds := suppress_for (embeds m) |}.

(** [replaces l id m r]: [r] is the record [republish] sends for [m] when
    the channel is [l] and the next id is [id]. *)
Inductive replaces (l : list Message) (id : Z) (m : Message) : Message -> Prop :=
| replaces_verbatim :
    content m ≠ [] -> is_bot m -> replaces l id m (copy_of m (content m) id)
| replaces_emojified :
    content m ≠ [] -> ¬ is_bot m ->
    replaces l id m (copy_of m (emojify (content m)) id)
| replaces_toc :
    content m = [] -> qualifies m = true -> replaces l id m (toc_record l id)
| replaces_placeholder :
    content m = [] -> qualifies m = false -> replaces l id m (placeholder id).

(** *** Export and import *)

Definition image_ref (filename : text) : text :=
  filename ++ txt "/" ++ str_nat 0 ++ txt ".png".

Definition image_path (filename : text) : text :=
  FILEPATH ++ txt "/" ++ filename ++ txt "/" ++ str_nat 0 ++ txt ".png".

Definition document_path (filename : text) : text :=
  FILEPATH ++ txt "/" ++ filename ++ txt ".json".

(** The files after the attachments [l] were written, one after the
    other, all to the same path. *)
Definition store_all (filename : text) (l : list Attachment)
    (fs : gmap text (list N)) : gmap text (list N) :=
  foldl (fun fs a => <[image_path filename := att_bytes a]> fs) fs l.

Definition saved (w : World) (filename : text) (l : list Attachment) : World :=
  {| chan := chan w; next_id := next_id w;
     trace := trace w
       ++ flat_map (fun a => [Downloaded a; WroteFile (image_path filename)]) l;
     files := store_all filename l (files w); documents := documents w |}.

Definition export_entry (filename : text) (m : Message) : entry :=
  Rec (deemojify (content m))
      (replicate (length (attachments m)) (image_ref filename))
      (embed_description <$> embeds m).

(** The world [save_messages] leaves. *)
Definition exported (w : World) (filename : text) : World :=
  let atts := concat (attachments <$> chan w) in
  {| chan := chan w; next_id := next_id w;
     trace := trace w
       ++ [Responded (txt "Saving") true; MadeDir (FILEPATH ++ txt "/" ++ filename)]
       ++ flat_map (fun a => [Downloaded a; WroteFile (image_path filename)]) atts
       ++ [WroteDocument (document_path filename); Responded (txt "Done") true];
     files := store_all filename atts (files w);
     documents := <[document_path filename :=
                      Header channel_name channel_id
                        :: (export_entry filename <$> chan w)]> (documents w) |}.

(** The file an image reference of the export opens at import. *)
Definition stored_file (fs : gmap text (list N)) (filename : text) : File :=
  {| file_name := basename (FILEPATH ++ txt "/" ++ image_ref filename);
     file_bytes := default [] (fs !! (FILEPATH ++ txt "/" ++ image_ref filename)) |}.

Definition imported_record (fs : gmap text (list N)) (filename : text)
    (id : Z) (m : Message) : Message :=
  {| msg_id := id; author := bot_user;
     content := emojify (deemojify (content m));
     attachments := upload <$> replicate (length (attachments m)) (stored_file fs filename);
     embeds := description_only <$> (embed_description <$> embeds m);
     suppress_embeds := false |}.

Fixpoint imported (fs : gmap text (list N)) (filename : text)
    (hist : list Message) (id : Z) : list Message :=
  match hist with
  | [] => []
  | m :: rest => imported_record fs filename id m :: imported fs filename rest (id + 1)
  end.

(** The channel an export is replayed into: empty, on the same platform
    and with the same file store. *)
Definition empty_channel (w : World) : World :=
  {| chan := []; next_id := next_id w; trace := trace w;
     files := files w; documents := documents w |}.

(** *** The claims that do not hold, as they are stated *)

(** Cascade insertion with the ids read oldest first, target first: each
    record would take what its successor shows. *)
Definition stated_pairing (w : World) (t : Message) (post : list Message) : Prop :=
  let ids := t :: filter is_bot post in
  edits (trace (insert_message t w).2)
  = (overwrite <$> adjacent ids) ++ [Edited (placeholder_edit t)].

(** The target is the newest automation-owned record: one id collected,
    one edit. *)
Definition stated_edge_case (w : World) (t : Message) (post : list Message) : Prop :=
  filter is_bot post = [] ->
  length (collect_bot_msgs (msg_id t)
            (reverse (chan w ++ [placeholder (next_id w)])) []) = 1
  ∧ edits (trace (insert_message t w).2) = [Edited (placeholder_edit t)].

(** Enriching twice gives what enriching once gives. *)
Definition idempotent_at (h : Http) (m : Message) : Prop :=
  let once := message_after (fix_item_links h m) in
  message_after (fix_item_links h once) = once.

(** Export, then import into an empty channel. *)
Definition round_trip (w : World) (filename : text) : World :=
  (publish filename (empty_channel (save_messages (Some filename) w).2)).2.

Definition stated_round_trip (w : World) (filename : text) : Prop :=
  let w2 := round_trip w filename in
  content <$> chan w2 = content <$> chan w
  ∧ (fun m => att_bytes <$> attachments m) <$> chan w2
    = (fun m => att_bytes <$> attachments m) <$> chan w
  ∧ (fun m => embed_description <$> embeds m) <$> chan w2
    = (fun m => embed_description <$> embeds m) <$> chan w.

End Specifications.

(** ** What the other commands leave

    The records, texts and events the properties of the commands below
    are stated with. *)

(** The name the loop of [fix_item_links] stores for an id: what
    [get_item_name] returns, when it is not empty. *)
Definition stored_name (h : Http) (token item_id : text) : option text :=
  match get_item_name h item_id token with
  | Some (c :: name) => Some (c :: name)
  | _ => None
  end.

(** The catalogue answers the request for an id with a status outside
    4xx and 5xx and a JSON object whose [name] is [name]. *)
Definition answers_name (h : Http) (token item_id name : text) : Prop :=
  ∃ r o, get_item h item_id token = inr r
    ∧ ¬ (400 ≤ status_code r < 600)%Z
    ∧ json r = Some o ∧ assoc (txt "name") o = Some name.

Definition is_send_or_response (ev : event) : Prop :=
  match ev with
  | Sent _ | Responded _ _ => True
  | _ => False
  end.

(** The ids of the bare links of a partition, in order. *)
Definition bare_ids (l : list span) : list text :=
  flat_map (fun p => match p with Bare _ i => [i] | _ => [] end) l.

Section MoreSpecifications.
Context `{Unicode} `{Env} `{Casing}.

(** No node of the pattern takes the character [c]. *)
Definition rejects (c : char) (n : node) : Prop :=
  match n with
  | Lit l | Opt l => c ∉ l
  | Rep _ _ cs => cset_mem cs c = false
  | Mark => True
  end.

(** A match moved [p] characters to the right. *)
Definition shift_match (p : nat) (m : Match) : Match :=
  {| m_start := p + m_start m; m_end := p + m_end m;
     m_marks := (fun k => p + k) <$> m_marks m |}.

Definition fenced (m : Message) : text :=
  txt "```" ++ deemojify (content m) ++ txt "```".

(** The line of the table of contents for a record, if it has a title. *)
Definition toc_entry (msg : Message) : text :=
  match reTitleGroup (content msg) with
  | Some g =>
      txt "[" ++ strip (remove_char 35 g) ++ txt "]("
        ++ jump_url (msg_id msg) ++ txt ")" ++ [10%N]
  | None => []
  end.

(** The name [save_messages] exports under. *)
Definition export_name (filename : option text) : text :=
  match filename with
  | Some f => f
  | None => default_filename ++ txt "-" ++ str_nat today_day ++ txt "."
              ++ str_nat today_month
  end.

(** The attachment [publish] uploads for an image reference. *)
Definition image_attachment (fs : gmap text (list N)) (image : text) : Attachment :=
  {| att_filename := basename (FILEPATH ++ txt "/" ++ image);
     att_bytes := default [] (fs !! (FILEPATH ++ txt "/" ++ image)) |}.

(** The record [publish] sends for an entry with text, images and embed
    descriptions. *)
Definition published (fs : gmap text (list N)) (id : Z) (c : text)
    (images : list text) (ds : list (option text)) : Message :=
  {| msg_id := id; author := bot_user; content := emojify c;
     attachments := image_attachment fs <$> images;
     embeds := description_only <$> ds; suppress_embeds := false |}.

(** The records sent for the entries of a document, as long as they are
    records. *)
Fixpoint published_all (fs : gmap text (list N)) (id : Z) (l : list entry)
    : list Message :=
  match l with
  | Rec c images ds :: l' => published fs id c images ds :: published_all fs (id + 1) l'
  | _ => []
  end.

(** Every image of the entry is in the file store. *)
Definition openable (fs : gmap text (list N)) (e : entry) : Prop :=
  match e with
  | Rec _ images _ => Forall (fun i => is_Some (fs !! (FILEPATH ++ txt "/" ++ i))) images
  | Header _ _ => False
  end.

(** The record [embedify_message] leaves. *)
Definition embedified (m : Message) (title : text) : Message :=
  {| msg_id := msg_id m; author := author m; content := title;
     attachments := attachments m;
     embeds := [description_only (Some (strip (py_replace title [] (content m))))];
     suppress_embeds := false |}.

(** What [edit_message] does before it waits for the answer. *)
Definition prompted (user : User) (m : Message) : list event :=
  [Responded (txt "Sent you a dm") true]
    ++ (Downloaded <$> attachments m)
    ++ [DirectMessage (user_id user) (edit_prompt m)].

(** The record after an answer without the marker: new text, the
    attachments of the answer, the embeds as they were. *)
Definition retexted (m answ : Message) : Message :=
  {| msg_id := msg_id m; author := author m; content := emojify (content answ);
     attachments := attachments answ; embeds := embeds m;
     suppress_embeds := suppress_embeds m |}.

(** The record after an answer with the marker between [a] and [b]: new
    text, one embed, the attachments as they were. *)
Definition reembedded (m : Message) (a b : text) : Message :=
  {| msg_id := msg_id m; author := author m; content := emojify (strip a);
     attachments := attachments m;
     embeds := [description_only (Some (strip b))];
     suppress_embeds := suppress_embeds m |}.

Definition changed_notice (user : User) (m : Message) : event :=
  DirectMessage (user_id user)
    (txt "Successfully changed message at " ++ jump_url (msg_id m)).

(** From [w] to [w'] no record was added, removed or moved, no record with
    another id than [id] was changed, and nothing was stored. *)
Definition touches_only (id : Z) (w w' : World) : Prop :=
  msg_id <$> chan w' = msg_id <$> chan w
  ∧ (∀ i m, chan w !! i = Some m -> msg_id m ≠ id -> chan w' !! i = Some m)
  ∧ next_id w' = next_id w ∧ files w' = files w ∧ documents w' = documents w.

End MoreSpecifications.

(** ** Concrete instances

    The classes of ASCII text, an environment and small channels, to run
    the commands on. *)

Definition ascii_space (c : N) : bool :=
  ((9 <=? c) && (c <=? 13) || (28 <=? c) && (c <=? 32))%N.

Definition ascii_digit (c : N) : bool := ((48 <=? c) && (c <=? 57))%N.

(** [\s] and [\d] on ASCII characters. *)
Definition ascii_unicode : Unicode :=
  {| py_isspace := ascii_space; py_isdecimal := ascii_digit |}.

Fixpoint parse_digits (acc : Z) (s : text) : option Z :=
  match s with
  | [] => Some acc
  | c :: s' =>
      if ascii_digit c then parse_digits (10 * acc + (Z.of_N c - 48)) s' else None
  end.

Definition demo_env : Env :=
  {| bot_user := 1;
     get_user := fun n =>
       if bool_decide (n = 42%Z)
       then Some {| user_id := 42; user_name := txt "ann" |}
       else None;
     py_int := fun s =>
       match s with
       | [] => inl ValueError
       | _ => match parse_digits 0 s with
              | Some n => inr n
              | None => inl ValueError
              end
       end;
     emojify := fun s => s;
     deemojify := fun s => s;
     FILEPATH := txt "data";
     reTitleGroup := fun _ => None;
     channel_id := 5;
     channel_name := txt "faq";
     jump_url := fun id => txt "https://discord.com/channels/1/5/" ++ txt (pretty id);
     today_day := 3;
     today_month := 11 |}.

Definition note (id a : Z) (c : string) : Message :=
  {| msg_id := id; author := a; content := txt c; attachments := []; embeds := [];
     suppress_embeds := true |}.

Definition with_attachments (m : Message) (l : list Attachment) : Message :=
  {| msg_id := msg_id m; author := author m; content := content m;
     attachments := l; embeds := embeds m; suppress_embeds := suppress_embeds m |}.

Definition world_of (l : list Message) (n : Z) : World :=
  {| chan := l; next_id := n; trace := []; files := ∅; documents := ∅ |}.

(** Two records of the bot (author 1) around one of a user (author 2). *)
Definition demo_a : Message := note 1 1 "a".
Definition demo_f : Message := note 2 2 "f".
Definition demo_b : Message := note 3 1 "b".
Definition demo_world : World := world_of [demo_a; demo_f; demo_b] 4.

(** A catalogue that knows the items 1 and 3 and no item 2. *)
Definition ok_response (fields : list (text * text)) : Res Response :=
  inr {| status_code := 200; json := Some fields |}.

Definition demo_http : Http :=
  {| post_token := ok_response [(txt "access_token", txt "tok")];
     get_item := fun i _ =>
       if bool_decide (i = txt "1") then ok_response [(txt "name", txt "One")]
       else if bool_decide (i = txt "3") then ok_response [(txt "name", txt "Three")]
       else inr {| status_code := 404; json := None |} |}.

(** A token service that answers 401. *)
Definition failing_http : Http :=
  {| post_token := inr {| status_code := 401; json := None |};
     get_item := get_item demo_http |}.

Definition demo_links : text :=
  txt "https://wowhead.com/item=1[x](https://wowhead.com/item=2 https://wowhead.com/item=3".

Definition png_a : Attachment := {| att_filename := txt "a.png"; att_bytes := [1%N] |}.
Definition png_b : Attachment := {| att_filename := txt "b.png"; att_bytes := [2%N] |}.

(** [str.lower] on ASCII letters. *)
Definition ascii_lower (c : N) : N :=
  if ((65 <=? c) && (c <=? 90))%N then (c + 32)%N else c.

Definition ascii_casing : Casing := {| py_lower := fmap ascii_lower |}.

Fixpoint first_line (s : text) : text :=
  match s with
  | [] => []
  | c :: s' => if N.eqb c 10 then [] else c :: first_line s'
  end.

(** The environment [demo_env] with titles: a text that starts with [#]
    has its first line as title. *)
Definition titled_env : Env :=
  {| bot_user := 1;
     get_user := @get_user demo_env;
     py_int := @py_int demo_env;
     emojify := fun s => s;
     deemojify := fun s => s;
     FILEPATH := txt "data";
     reTitleGroup := fun s =>
       match s with
       | 35%N :: _ => Some (first_line s)
       | _ => None
       end;
     channel_id := 5;
     channel_name := txt "faq";
     jump_url := @jump_url demo_env;
     today_day := 3;
     today_month := 11 |}.

Definition ann : User := {| user_id := 42; user_name := txt "ann" |}.

(** A record of the bot: a title and a body. *)
Definition demo_titled : Message :=
  {| msg_id := 1; author := 1; content := txt "# Mounts" ++ [10%N] ++ txt "where to get them";
     attachments := []; embeds := []; suppress_embeds := true |}.

(** A world with one exported document of two entries and the image file
    of the first. *)
Definition demo_store : World :=
  {| chan := [demo_a]; next_id := 4; trace := [];
     files := {[ txt "data/x/0.png" := [1%N] ]};
     documents := {[ txt "data/x.json" :=
                       [Header (txt "faq") 5;
                        Rec (txt "a") [txt "x/0.png"] [Some (txt "d")];
                        Rec (txt "b") [] []] ]} |}.

(** The same document, and no file. *)
Definition demo_store_no_file : World :=
  {| chan := [demo_a]; next_id := 4; trace := [];
     files := ∅; documents := documents demo_store |}.

(** * Proofs *)

Section Proofs.
Context `{Unicode} `{Env}.

(** ** The matcher and the partition of a text *)

Lemma first_some_Some {A B} (f : A -> option B) l b :
  first_some f l = Some b -> ∃ a, a ∈ l ∧ f a = Some b.
Proof.
  induction l as [|a l IH]; simpl; [done|].
  destruct (f a) eqn:E.
  - intros [= <-]. exists a. split; [left|done].
  - intros Hb. destruct (IH Hb) as (a' & ? & ?). exists a'. split; [by right|done].
Qed.

Lemma elem_of_counts k lo n g : k ∈ counts lo n g -> lo ≤ k ≤ n.
Proof.
  unfold counts. destruct g; [rewrite elem_of_reverse|];
    rewrite elem_of_seq; lia.
Qed.

Lemma run_le cs s : run cs s ≤ length s.
Proof. induction s as [|c s IH]; simpl; [lia|]. destruct (cset_mem cs c); lia. Qed.

Lemma starts_with_length l s : starts_with l s = true -> length l ≤ length s.
Proof.
  revert s. induction l as [|a l IH]; intros [|b s]; simpl; try done; try lia.
  intros [_ E]%andb_prop. apply IH in E. lia.
Qed.

Lemma match_at_bounds r s pos e ms :
  match_at r s pos = Some (e, ms) -> pos ≤ e ≤ pos + length s.
Proof.
  revert s pos e ms. induction r as [|n r IH]; intros s pos e ms; simpl.
  - intros [= <- <-]. lia.
  - destruct n as [l|l|lo g cs|].
    + destruct (starts_with l s) eqn:E; [|done].
      intros Hm. apply IH in Hm. apply starts_with_length in E.
      rewrite length_drop in Hm. lia.
    + destruct (starts_with l s) eqn:E.
      * destruct (match_at r (drop (length l) s) (pos + length l)) as [[e' ms']|] eqn:E'.
        -- intros [= <- <-]. apply IH in E'. apply starts_with_length in E.
           rewrite length_drop in E'. lia.
        -- apply IH.
      * apply IH.
    + intros Hm. apply first_some_Some in Hm as (k & Hk & Hm).
      apply elem_of_counts in Hk. apply IH in Hm.
      pose proof (run_le cs s). rewrite length_drop in Hm. lia.
    + destruct (match_at r s pos) as [[e' ms']|] eqn:E'; [|done].
      intros [= <- <-]. by apply IH in E'.
Qed.

Lemma sorted_spans_weaken a b n ms : b ≤ a -> sorted_spans a n ms -> sorted_spans b n ms.
Proof. destruct ms as [|m ms]; simpl; [done|]. intros ? (?&?&?&?). repeat split; [lia|done..]. Qed.

Lemma scan_sorted r s pos skip :
  sorted_spans (pos + skip) (pos + length s) (scan r s pos skip).
Proof.
  revert pos skip. induction s as [|c s IH]; intros pos skip.
  - destruct skip; simpl; [|done].
    destruct (match_at r [] pos) as [[e ms]|] eqn:E; simpl; [|done].
    apply match_at_bounds in E. simpl in E. repeat split; lia.
  - destruct skip as [|k]; simpl.
    + destruct (match_at r (c :: s) pos) as [[e ms]|] eqn:E; simpl.
      * apply match_at_bounds in E. simpl in E. repeat split; try lia.
        eapply sorted_spans_weaken; [|replace (pos + S (length s)) with (S pos + length s) by lia; apply IH].
        lia.
      * eapply sorted_spans_weaken; [|replace (pos + S (length s)) with (S pos + length s) by lia; apply IH].
        lia.
    + replace (pos + S k) with (S pos + k) by lia.
      replace (pos + S (length s)) with (S pos + length s) by lia. apply IH.
Qed.

Lemma finditer_sorted r s : sorted_spans 0 (length s) (finditer r s).
Proof. apply (scan_sorted r s 0 0). Qed.

Lemma slice_app (s : text) a b c :
  a ≤ b -> b ≤ c -> slice s a b ++ slice s b c = slice s a c.
Proof.
  intros Hab Hbc. unfold slice.
  replace (drop b s) with (drop (b - a) (drop a s)) by (rewrite drop_drop; f_equal; lia).
  replace (c - a) with ((b - a) + (c - b)) by lia.
  by rewrite take_take_drop.
Qed.

Lemma slice_all (s : text) : slice s 0 (length s) = s.
Proof. unfold slice. by rewrite drop_0, Nat.sub_0_r, firstn_all. Qed.

Lemma cut_partition (s : text) ms pos hit gap :
  (∀ m, span_text (hit m) = group0 s m) ->
  (∀ t, concat (span_text <$> gap t) = t) ->
  sorted_spans pos (length s) ms ->
  concat (span_text <$> cut s ms pos hit gap) = slice s pos (length s).
Proof.
  intros Hhit Hgap. revert pos. induction ms as [|m ms IH]; intros pos; simpl.
  - intros _. apply Hgap.
  - intros (H1 & H2 & H3 & H4).
    rewrite fmap_app, concat_app, Hgap. rewrite fmap_cons. simpl.
    rewrite Hhit, (IH _ H4). unfold group0.
    rewrite (slice_app s (m_start m)) by done.
    apply slice_app; lia.
Qed.

Lemma bare_spans_partition chunk : concat (span_text <$> bare_spans chunk) = chunk.
Proof.
  unfold bare_spans. rewrite cut_partition.
  - apply slice_all.
  - done.
  - intros t. simpl. apply app_nil_r.
  - apply finditer_sorted.
Qed.

Lemma link_spans_partition s : concat (span_text <$> link_spans s) = s.
Proof.
  unfold link_spans. rewrite cut_partition.
  - apply slice_all.
  - done.
  - apply bare_spans_partition.
  - apply finditer_sorted.
Qed.

Lemma re_sub_spans idn chunk :
  re_sub unfixed_link_re (replace_match idn) chunk
  = concat (rewrite_span idn <$> bare_spans chunk).
Proof.
  unfold re_sub, bare_spans. generalize (finditer unfixed_link_re chunk) 0.
  induction l as [|m ms IH]; intros pos; simpl.
  - by rewrite app_nil_r.
  - rewrite <- IH. done.
Qed.

Lemma replace_unfixed_loop_spans idn s ms pos result :
  concat (replace_unfixed_loop idn s ms pos result)
  = concat result
    ++ concat (rewrite_span idn <$> cut s ms pos (fun m => Resolved (group0 s m)) bare_spans).
Proof.
  revert pos result. induction ms as [|m ms IH]; intros pos result; simpl.
  - rewrite concat_app. simpl. by rewrite app_nil_r, re_sub_spans.
  - rewrite IH. rewrite !concat_app. simpl. rewrite !app_nil_r.
    rewrite fmap_app, concat_app, fmap_cons. simpl.
    by rewrite re_sub_spans, <- !app_assoc.
Qed.

Lemma replace_unfixed_spans idn s :
  replace_unfixed idn s = concat (rewrite_span idn <$> link_spans s).
Proof. unfold replace_unfixed. by rewrite replace_unfixed_loop_spans. Qed.

Lemma starts_with_app l s : starts_with l s = true -> s = l ++ drop (length l) s.
Proof.
  revert s. induction l as [|a l IH]; intros [|b s]; simpl; try done.
  intros [E1 E2]%andb_prop. apply N.eqb_eq in E1 as ->. f_equal. by apply IH.
Qed.

Lemma run_take cs s k :
  k ≤ run cs s -> Forall (fun c => cset_mem cs c = true) (take k s).
Proof.
  revert k. induction s as [|c s IH]; intros k; simpl.
  - intros ?. replace k with 0 by lia. constructor.
  - destruct (cset_mem cs c) eqn:E.
    + destruct k; simpl; [constructor|]. intros ?. constructor; [done|]. apply IH. lia.
    + intros ?. replace k with 0 by lia. constructor.
Qed.

Lemma shift_marks pos n (ms : list nat) :
  (fun k => pos + n + k) <$> ms = (fun k => pos + k) <$> ((fun k => n + k) <$> ms).
Proof. rewrite <- list_fmap_compose. apply list_fmap_ext. intros; simpl; lia. Qed.

Lemma match_at_sound r s pos e ms :
  match_at r s pos = Some (e, ms) ->
  ∃ w rest ms', s = w ++ rest ∧ e = pos + length w
    ∧ ms = (fun k => pos + k) <$> ms' ∧ matches r w ms'.
Proof.
  revert s pos e ms. induction r as [|n r IH]; intros s pos e ms; simpl.
  - intros [= <- <-]. exists [], s, []. repeat split; [simpl; lia|constructor].
  - assert (Hlit : ∀ l, starts_with l s = true ->
              match_at r (drop (length l) s) (pos + length l) = Some (e, ms) ->
              ∃ w rest ms', s = (l ++ w) ++ rest ∧ e = pos + length (l ++ w)
                ∧ ms = (fun k => pos + k) <$> ((fun k => length l + k) <$> ms')
                ∧ matches r w ms').
    { intros l E Hm. apply IH in Hm as (w & rest & ms' & Hs & -> & -> & Hm).
      exists w, rest, ms'. rewrite <- app_assoc, <- Hs, length_app.
      repeat split; [by apply starts_with_app|lia|apply shift_marks|done]. }
    destruct n as [l|l|lo g cs|].
    + destruct (starts_with l s) eqn:E; [|done]. intros Hm.
      destruct (Hlit l E Hm) as (w & rest & ms' & ? & ? & ? & Hm').
      eexists _, rest, _. repeat split; [done..|by constructor].
    + destruct (starts_with l s) eqn:E.
      * destruct (match_at r (drop (length l) s) (pos + length l)) as [[e' ms1]|] eqn:E'.
        -- intros [= <- <-].
           destruct (Hlit l E E') as (w & rest & ms' & ? & ? & ? & Hm').
           eexists _, rest, _. repeat split; [done..|by apply matches_opt_yes].
        -- intros Hm. apply IH in Hm as (w & rest & ms' & ? & ? & ? & Hm').
           exists w, rest, ms'. repeat split; [done..|by apply matches_opt_no].
      * intros Hm. apply IH in Hm as (w & rest & ms' & ? & ? & ? & Hm').
        exists w, rest, ms'. repeat split; [done..|by apply matches_opt_no].
    + intros Hm. apply first_some_Some in Hm as (k & Hk & Hm).
      apply elem_of_counts in Hk.
      apply IH in Hm as (w & rest & ms' & Hs & -> & -> & Hm).
      pose proof (run_le cs s) as Hr.
      assert (Hlen : length (take k s) = k) by (rewrite length_take; lia).
      exists (take k s ++ w), rest, ((fun j => length (take k s) + j) <$> ms').
      split; [by rewrite <- app_assoc, <- Hs, take_drop|].
      split; [rewrite length_app; lia|].
      split; [rewrite <- shift_marks; by rewrite Hlen|].
      apply matches_rep; [lia|apply run_take; lia|done].
    + destruct (match_at r s pos) as [[e' ms1]|] eqn:E'; [|done].
      intros [= <- <-]. apply IH in E' as (w & rest & ms' & ? & ? & -> & Hm').
      exists w, rest, (0 :: ms'). repeat split; [done..| |by constructor].
      rewrite fmap_cons. f_equal. lia.
Qed.

Lemma matches_nil_inv w ms : matches [] w ms -> w = [] ∧ ms = [].
Proof. by inversion 1. Qed.

Lemma matches_lit_inv l r w ms :
  matches (Lit l :: r) w ms ->
  ∃ w' ms', w = l ++ w' ∧ ms = (fun k => length l + k) <$> ms' ∧ matches r w' ms'.
Proof. inversion 1; subst; eauto. Qed.

Lemma matches_opt_inv l r w ms :
  matches (Opt l :: r) w ms ->
  ∃ o w' ms', (o = [] ∨ o = l) ∧ w = o ++ w'
    ∧ ms = (fun k => length o + k) <$> ms' ∧ matches r w' ms'.
Proof.
  inversion 1; subst.
  - exists l. eauto 10.
  - exists []. eexists w, ms. repeat split; [by left| |done].
    by rewrite list_fmap_id.
Qed.

Lemma matches_rep_inv lo g cs r w ms :
  matches (Rep lo g cs :: r) w ms ->
  ∃ u w' ms', w = u ++ w' ∧ lo ≤ length u
    ∧ Forall (fun c => cset_mem cs c = true) u
    ∧ ms = (fun k => length u + k) <$> ms' ∧ matches r w' ms'.
Proof. inversion 1; subst; eauto 10. Qed.

Lemma matches_mark_inv r w ms :
  matches (Mark :: r) w ms -> ∃ ms', ms = 0 :: ms' ∧ matches r w ms'.
Proof. inversion 1; subst; eauto. Qed.

Lemma url_char_mem c :
  cset_mem (NoneOf [ISpace; IChar 41]) c = true -> url_char c.
Proof.
  unfold url_char. cbn [cset_mem citem_mem existsb]. rewrite orb_false_r.
  intros [E1 E2]%negb_true_iff%orb_false_elim. split; [done|].
  apply N.eqb_neq in E2. congruence.
Qed.

Lemma not_paren_mem (t : text) :
  Forall (fun c => cset_mem (NoneOf [IChar 41]) c = true) t -> 41%N ∉ t.
Proof.
  intros Hall Hin. rewrite Forall_forall in Hall. apply Hall in Hin.
  cbn [cset_mem citem_mem existsb] in Hin. by rewrite N.eqb_refl in Hin.
Qed.

Lemma not_newline_mem (t : text) :
  Forall (fun c => cset_mem Dot c = true) t -> 10%N ∉ t.
Proof.
  intros Hall Hin. rewrite Forall_forall in Hall. apply Hall in Hin.
  cbn [cset_mem] in Hin. by rewrite N.eqb_refl in Hin.
Qed.

Lemma digits_mem (t : text) :
  Forall (fun c => cset_mem (OneOf [IDigit]) c = true) t ->
  Forall (fun c => py_isdecimal c = true) t.
Proof.
  intros Hall. eapply Forall_impl; [exact Hall|]. intros c.
  cbn [cset_mem citem_mem existsb]. by rewrite orb_false_r.
Qed.

Lemma nonempty_length (t : text) : 1 ≤ length t -> t ≠ [].
Proof. destruct t; simpl; [lia|done]. Qed.

Lemma fixed_shape w ms : matches fixed_link_re w ms -> is_display_link w.
Proof.
  unfold fixed_link_re. intros Hm.
  apply matches_lit_inv in Hm as (w1 & ? & -> & _ & Hm).
  apply matches_rep_inv in Hm as (label & w2 & ? & -> & _ & Hlabel & _ & Hm).
  apply matches_lit_inv in Hm as (w3 & ? & -> & _ & Hm).
  apply matches_opt_inv in Hm as (www & w4 & ? & Hwww & -> & _ & Hm).
  apply matches_lit_inv in Hm as (w5 & ? & -> & _ & Hm).
  apply matches_rep_inv in Hm as (path & w6 & ? & -> & _ & Hpath & _ & Hm).
  apply matches_lit_inv in Hm as (w7 & ? & -> & _ & Hm).
  apply matches_rep_inv in Hm as (digits & w8 & ? & -> & Hlen & Hdigits & _ & Hm).
  apply matches_rep_inv in Hm as (tail & w9 & ? & -> & _ & Htail & _ & Hm).
  apply matches_lit_inv in Hm as (w10 & ? & -> & _ & Hm).
  apply matches_nil_inv in Hm as [-> _].
  exists label, www, path, digits, tail. rewrite app_nil_r.
  split_and!. all: try done.
  all: [> by apply not_newline_mem|by apply not_paren_mem
              |by apply not_paren_mem|by apply nonempty_length|by apply digits_mem].
Qed.

Lemma unfixed_shape w ms :
  matches unfixed_link_re w ms ->
  ∃ www path digits tail,
    w = txt "https://" ++ www ++ txt "wowhead.com/" ++ path ++ txt "item="
          ++ digits ++ tail
    ∧ ms = [length (txt "https://" ++ www ++ txt "wowhead.com/" ++ path ++ txt "item=");
            length (txt "https://" ++ www ++ txt "wowhead.com/" ++ path ++ txt "item=")
              + length digits]
    ∧ is_bare_link w digits.
Proof.
  unfold unfixed_link_re. intros Hm.
  apply matches_lit_inv in Hm as (w1 & ? & -> & -> & Hm).
  apply matches_opt_inv in Hm as (www & w2 & ? & Hwww & -> & -> & Hm).
  apply matches_lit_inv in Hm as (w3 & ? & -> & -> & Hm).
  apply matches_rep_inv in Hm as (path & w4 & ? & -> & _ & Hpath & -> & Hm).
  apply matches_lit_inv in Hm as (w5 & ? & -> & -> & Hm).
  apply matches_mark_inv in Hm as (? & -> & Hm).
  apply matches_rep_inv in Hm as (digits & w6 & ? & -> & Hlen & Hdigits & -> & Hm).
  apply matches_mark_inv in Hm as (? & -> & Hm).
  apply matches_rep_inv in Hm as (tail & w7 & ? & -> & _ & Htail & -> & Hm).
  apply matches_nil_inv in Hm as [-> ->].
  exists www, path, digits, tail. rewrite app_nil_r.
  split; [done|]. split.
  { rewrite !fmap_cons, !fmap_nil, !length_app. repeat (f_equal; try lia). }
  exists www, path, tail.
  split_and!; [done|done| | |by apply nonempty_length|by apply digits_mem].
  - eapply Forall_impl; [exact Hpath|]. intros c. apply url_char_mem.
  - eapply Forall_impl; [exact Htail|]. intros c. apply url_char_mem.
Qed.

Lemma scan_match_at r s pos skip m :
  m ∈ scan r s pos skip ->
  pos ≤ m_start m
  ∧ match_at r (drop (m_start m - pos) s) (m_start m) = Some (m_end m, m_marks m).
Proof.
  revert pos skip. induction s as [|c s IH]; intros pos skip.
  - destruct skip; simpl; [|by intros ?%elem_of_nil].
    destruct (match_at r [] pos) as [[e ms]|] eqn:E; [|by intros ?%elem_of_nil].
    intros ->%list_elem_of_singleton. simpl. split; [lia|]. by rewrite Nat.sub_diag.
  - assert (Hrec : ∀ k, m ∈ scan r s (S pos) k ->
              pos ≤ m_start m
              ∧ match_at r (drop (m_start m - pos) (c :: s)) (m_start m)
                = Some (m_end m, m_marks m)).
    { intros k Hin. apply IH in Hin as [Hle Hm]. split; [lia|].
      replace (m_start m - pos) with (S (m_start m - S pos)) by lia. done. }
    destruct skip as [|k]; simpl; [|apply Hrec].
    destruct (match_at r (c :: s) pos) as [[e ms]|] eqn:E; [|apply Hrec].
    intros [->|Hin]%elem_of_cons; [|by eapply Hrec].
    simpl. split; [lia|]. by rewrite Nat.sub_diag.
Qed.

Lemma finditer_match r s m :
  m ∈ finditer r s ->
  ∃ w rest ms, drop (m_start m) s = w ++ rest
    ∧ group0 s m = w
    ∧ m_marks m = (fun k => m_start m + k) <$> ms
    ∧ matches r w ms.
Proof.
  intros Hin. apply scan_match_at in Hin as [_ Hm].
  rewrite Nat.sub_0_r in Hm.
  apply match_at_sound in Hm as (w & rest & ms & Hs & He & Hms & Hm).
  exists w, rest, ms. split_and!; try done.
  unfold group0, slice. rewrite Hs, He.
  replace (m_start m + length w - m_start m) with (length w) by lia.
  by rewrite take_app_length.
Qed.

Lemma cut_shapes (s : text) ms pos hit gap :
  (∀ m, m ∈ ms -> span_shape (hit m)) ->
  (∀ t, Forall span_shape (gap t)) ->
  Forall span_shape (cut s ms pos hit gap).
Proof.
  intros Hhit Hgap. revert pos. induction ms as [|m ms IH]; intros pos; simpl.
  - apply Hgap.
  - apply Forall_app. split; [apply Hgap|].
    constructor; [apply Hhit; left|]. apply IH. intros; apply Hhit; by right.
Qed.

Lemma bare_match_shape chunk m :
  m ∈ finditer unfixed_link_re chunk ->
  is_bare_link (group0 chunk m) (group1 chunk m).
Proof.
  intros Hin.
  apply finditer_match in Hin as (w & rest & ms & Hs & Hw & Hms & Hm).
  apply unfixed_shape in Hm as (www & path & digits & tail & Ew & -> & Hbare).
  rewrite Hw. unfold group1. rewrite Hms. rewrite !fmap_cons.
  set (P := txt "https://" ++ www ++ txt "wowhead.com/" ++ path ++ txt "item=") in *.
  assert (Ed : slice chunk (m_start m + length P) (m_start m + (length P + length digits))
               = digits).
  { unfold slice.
    replace (m_start m + (length P + length digits) - (m_start m + length P))
      with (length digits) by lia.
    rewrite <- drop_drop, Hs, Ew.
    replace (txt "https://" ++ www ++ txt "wowhead.com/" ++ path ++ txt "item="
               ++ digits ++ tail)
      with (P ++ digits ++ tail) by (unfold P; by rewrite <- !app_assoc).
    by rewrite <- !app_assoc, drop_app_length, take_app_length. }
  by rewrite Ed.
Qed.

Lemma bare_spans_shapes chunk : Forall span_shape (bare_spans chunk).
Proof.
  apply cut_shapes; [|by repeat constructor].
  intros m Hin. simpl. by apply bare_match_shape.
Qed.

Lemma link_spans_shapes s : Forall span_shape (link_spans s).
Proof.
  apply cut_shapes; [|apply bare_spans_shapes].
  intros m Hin. simpl.
  apply finditer_match in Hin as (w & rest & ms & Hs & Hw & Hms & Hm).
  rewrite Hw. by eapply fixed_shape.
Qed.


Lemma fetch_names_unresolved (h : Http) (token : text) (ids : list text)
    (m : gmap text text) :
  (∀ i : text, i ∈ ids -> unresolved h token i) -> fetch_names h token ids m = m.
Proof.
  revert m. induction ids as [|i ids IH]; intros m Hall; simpl; [done|].
  destruct (Hall i) as [-> | ->]; [left| |]; apply IH; intros; apply Hall; by right.
Qed.

Lemma rewrite_span_empty p : rewrite_span ∅ p = span_text p.
Proof. destruct p; simpl; [done| |done]. by rewrite lookup_empty. Qed.

Lemma replace_unfixed_empty s : replace_unfixed ∅ s = s.
Proof.
  rewrite replace_unfixed_spans.
  rewrite (list_fmap_ext _ span_text) by (intros; apply rewrite_span_empty).
  apply link_spans_partition.
Qed.

Lemma with_content_same m : with_content m (content m) = m.
Proof. by destruct m. Qed.

(** ** Enriching twice

    The first pass cuts the text into display links, bare links and the
    plain text around them, and writes a display link for each bare link
    that has a name. When each of them has a plain name, what it writes
    is again display links with plain text between them ([paired]).
    Wherever the second scan finds a match, the match ends with one of
    these links ([advance]): one that ended elsewhere would be a match of
    the first text where the first scan found none. So the second pass
    only passes over plain text of the first, where no bare link
    starts. *)

Lemma first_some_ext {A B} (f g : A -> option B) l :
  (∀ a, a ∈ l -> f a = g a) -> first_some f l = first_some g l.
Proof.
  induction l as [|a l IH]; intros Hfg; simpl; [done|].
  rewrite (Hfg a) by left. destruct (g a); [done|]. apply IH. intros; apply Hfg; by right.
Qed.

Lemma first_some_fmap {A B C} (h : B -> C) (f : A -> option B) l :
  first_some (fun a => h <$> f a) l = h <$> first_some f l.
Proof.
  induction l as [|a l IH]; simpl; [done|]. destruct (f a); simpl; [done|apply IH].
Qed.

Lemma match_at_shift r s pos :
  match_at r s pos = shift_result pos <$> match_at r s 0.
Proof.
  revert s pos. induction r as [|n r IH]; intros s pos.
  - simpl. unfold shift_result. simpl. f_equal. f_equal. lia.
  - assert (Hcomp : ∀ s' a,
      match_at r s' (pos + a) = shift_result pos <$> match_at r s' a).
    { intros s' a. rewrite (IH s' (pos + a)), (IH s' a).
      destruct (match_at r s' 0) as [[e ms]|]; simpl; [|done].
      unfold shift_result. simpl. f_equal. f_equal; [lia|].
      rewrite <- list_fmap_compose. apply list_fmap_ext. intros; simpl; lia. }
    destruct n as [l|l|lo g cs|]; simpl.
    + destruct (starts_with l s); [apply Hcomp|done].
    + destruct (starts_with l s).
      * rewrite (Hcomp (drop (length l) s) (length l)).
        destruct (match_at r (drop (length l) s) (length l)); simpl; [done|].
        rewrite (IH s pos). done.
      * apply IH.
    + rewrite <- first_some_fmap. apply first_some_ext. intros k _. apply Hcomp.
    + rewrite (IH s pos). destruct (match_at r s 0) as [[e ms]|]; simpl; [|done].
      unfold shift_result. simpl. repeat f_equal. lia.
Qed.

Lemma match_at_shift_Some r s pos e ms :
  match_at r s 0 = Some (e, ms) ->
  match_at r s pos = Some (pos + e, (fun k => pos + k) <$> ms).
Proof. intros E. by rewrite match_at_shift, E. Qed.

Lemma match_at_shift_None r s pos :
  match_at r s pos = None <-> match_at r s 0 = None.
Proof.
  rewrite (match_at_shift r s pos). destruct (match_at r s 0); simpl; split; done.
Qed.

Lemma match_at_live r s pos : is_Some (match_at r s pos) <-> live r s.
Proof.
  unfold live. rewrite (match_at_shift r s pos).
  destruct (match_at r s 0); simpl; split; intros [? ?]; by eauto.
Qed.

Lemma first_some_is_Some {A B} (f : A -> option B) l a :
  a ∈ l -> is_Some (f a) -> is_Some (first_some f l).
Proof.
  induction l as [|x l IH]; [by intros ?%elem_of_nil|].
  intros [->|Hin]%elem_of_cons Hs; simpl.
  - destruct Hs as [b ->]. by eexists.
  - destruct (f x); [by eexists|]. by apply IH.
Qed.

Lemma run_ge cs (u s : text) :
  Forall (fun c => cset_mem cs c = true) u -> length u ≤ run cs (u ++ s).
Proof.
  induction 1 as [|c u Hc _ IH]; simpl; [lia|]. rewrite Hc. lia.
Qed.

Lemma starts_with_prefix l s : starts_with l (l ++ s) = true.
Proof. induction l as [|a l IH]; simpl; [done|]. by rewrite N.eqb_refl. Qed.

Lemma elem_of_counts_2 k lo n g : lo ≤ k ≤ n -> k ∈ counts lo n g.
Proof.
  intros ?. unfold counts. destruct g; [rewrite elem_of_reverse|];
    rewrite elem_of_seq; lia.
Qed.

(** Completeness: a word of the pattern at the start of the text makes
    the matcher succeed (maybe on another word). *)
Lemma match_at_complete r w ms rest :
  matches r w ms -> live r (w ++ rest).
Proof.
  unfold live. induction 1 as [|l r w ms _ IH|l r w ms _ IH|l r w ms _ IH
                               |lo g cs r u w ms Hlo Hu _ IH|r w ms _ IH]; simpl.
  - by eexists.
  - rewrite <- app_assoc, starts_with_prefix, drop_app_length.
    by apply match_at_live.
  - rewrite <- app_assoc, starts_with_prefix, drop_app_length.
    apply (match_at_live r (w ++ rest) (length l)) in IH.
    destruct IH as [x ->]. by eexists.
  - destruct (starts_with l (w ++ rest)); [|done].
    destruct (match_at r (drop (length l) (w ++ rest)) (length l)); [by eexists|done].
  - rewrite <- app_assoc.
    apply (first_some_is_Some _ _ (length u)).
    + apply elem_of_counts_2. split; [done|]. by apply run_ge.
    + rewrite drop_app_length. by apply match_at_live.
  - destruct IH as [[e ms'] ->]. by eexists.
Qed.

(** A match found on a prefix of the text is a word of the pattern. *)
Lemma live_app r s rest : live r s -> live r (s ++ rest).
Proof.
  intros [[e ms] Hm]. apply match_at_sound in Hm as (w & rest' & ms' & -> & _ & _ & Hm).
  rewrite <- app_assoc. by eapply match_at_complete.
Qed.

Lemma first_some_seq_min {B} (f : nat -> option B) lo n b :
  first_some f (seq lo n) = Some b ->
  ∃ k, lo ≤ k < lo + n ∧ f k = Some b ∧ ∀ k', lo ≤ k' < k -> f k' = None.
Proof.
  revert lo. induction n as [|n IH]; intros lo; simpl; [done|].
  destruct (f lo) eqn:E.
  - intros [= <-]. exists lo. split_and!; [lia|lia|done|intros; lia].
  - intros Hb. apply IH in Hb as (k & Hk & Hf & Hmin).
    exists k. split_and!; [lia|lia|done|].
    intros k' Hk'. destruct (decide (k' = lo)) as [->|]; [done|]. apply Hmin. lia.
Qed.

(** *** The scan, one match at a time *)

Lemma scan_skip r s pos k :
  k ≤ length s -> scan r s pos k = scan r (drop k s) (pos + k) 0.
Proof.
  revert s pos. induction k as [|k IH]; intros s pos Hk.
  - by rewrite drop_0, Nat.add_0_r.
  - destruct s as [|c s]; simpl in *; [lia|].
    rewrite IH by lia. f_equal. lia.
Qed.

Lemma scan_dead r s pos : dead_all r s -> scan r s pos 0 = [].
Proof.
  revert pos. induction s as [|c s IH]; intros pos Hd; simpl.
  - pose proof (Hd 0 ltac:(simpl; lia)) as Hz. simpl in Hz.
    apply (match_at_shift_None _ _ pos) in Hz. by rewrite Hz.
  - pose proof (Hd 0 ltac:(simpl; lia)) as Hz. rewrite drop_0 in Hz.
    apply (match_at_shift_None _ _ pos) in Hz. rewrite Hz.
    apply IH. intros j Hj. apply (Hd (S j)). simpl. lia.
Qed.

Lemma scan_first r T pos :
  never_empty r ->
  (scan r T pos 0 = [] ∧ dead_all r T)
  ∨ (∃ j e ms,
        j + e ≤ length T ∧ 0 < e
        ∧ (∀ j', j' < j -> match_at r (drop j' T) 0 = None)
        ∧ match_at r (drop j T) 0 = Some (e, ms)
        ∧ scan r T pos 0
          = {| m_start := pos + j; m_end := pos + j + e;
               m_marks := (fun k => pos + j + k) <$> ms |}
            :: scan r (drop (j + e) T) (pos + j + e) 0).
Proof.
  intros Hne. revert pos. induction T as [|c T IH]; intros pos.
  - left. destruct (match_at r [] 0) as [[e ms]|] eqn:E.
    + pose proof (Hne _ _ _ E). apply match_at_bounds in E. simpl in E. lia.
    + split.
      * simpl. apply (match_at_shift_None _ _ pos) in E. by rewrite E.
      * intros j _. by rewrite drop_nil.
  - destruct (match_at r (c :: T) 0) as [[e ms]|] eqn:E.
    + right. exists 0, e, ms. pose proof (Hne _ _ _ E) as He.
      pose proof (match_at_bounds _ _ _ _ _ E) as Hb. simpl in Hb.
      split_and!; [simpl; lia|done|intros; lia|by rewrite drop_0|].
      simpl. rewrite (match_at_shift_Some _ _ pos _ _ E).
      rewrite Nat.add_0_r. f_equal.
      rewrite scan_skip by lia.
      replace (pos + e - pos - 1) with (e - 1) by lia.
      destruct e as [|e]; [lia|]. simpl. rewrite Nat.sub_0_r. f_equal. lia.
    + destruct (IH (S pos)) as [[Hs Hd]|(j & e & ms & Hle & He & Hd & Hm & Hs)].
      * left. split.
        -- simpl. apply (match_at_shift_None _ _ pos) in E. by rewrite E.
        -- intros [|j] Hj; [by rewrite drop_0|]. simpl. apply Hd. simpl in Hj. lia.
      * right. exists (S j), e, ms. split_and!; [simpl; lia|done| |done|].
        -- intros [|j'] Hj; [by rewrite drop_0|]. simpl. apply Hd. lia.
        -- simpl. apply (match_at_shift_None _ _ pos) in E. rewrite E, Hs.
           f_equal; [|f_equal; lia].
           f_equal; [lia|lia|]. apply list_fmap_ext. intros; lia.
Qed.

(** Induction along the partition of a text by the matches of a pattern. *)
Lemma cut_scan_ind r hit gapf (s : text) (P : text -> list span -> Prop) :
  never_empty r ->
  (∀ g, dead_all r g -> P g (gapf g)) ->
  (∀ g w rest m ms l,
      m ∈ finditer r s -> group0 s m = w ->
      dead_in r g (w ++ rest) ->
      match_at r (w ++ rest) 0 = Some (length w, ms) ->
      P rest l -> P (g ++ w ++ rest) (gapf g ++ hit m :: l)) ->
  P s (cut s (finditer r s) 0 hit gapf).
Proof.
  intros Hne Hbase Hstep.
  assert (G : ∀ n pos ms, length s - pos ≤ n -> pos ≤ length s ->
            ms = scan r (drop pos s) pos 0 ->
            (∀ m, m ∈ ms -> m ∈ finditer r s) ->
            P (drop pos s) (cut s ms pos hit gapf)).
  { induction n as [n IH] using lt_wf_ind. intros pos ms Hn Hpos -> Hin.
    destruct (scan_first r (drop pos s) pos Hne)
      as [[Hs Hd]|(j & e & mk & Hle & He & Hd & Hm & Hs)].
    - rewrite Hs. simpl. unfold slice. rewrite take_ge by (rewrite length_drop; lia).
      by apply Hbase.
    - rewrite Hs in Hin |- *. simpl. rewrite length_drop in Hle.
      set (m := {| m_start := pos + j; m_end := pos + j + e;
                   m_marks := (fun k => pos + j + k) <$> mk |}) in *.
      set (T := drop pos s) in *.
      assert (HT : T = take j T ++ take e (drop j T) ++ drop (j + e) T).
      { rewrite <- (take_drop j T) at 1. f_equal.
        rewrite <- (take_drop e (drop j T)) at 1. f_equal.
        by rewrite drop_drop. }
      assert (Hg : slice s pos (pos + j) = take j T).
      { unfold slice. f_equal. lia. }
      rewrite Hg. rewrite HT at 1.
      assert (Hlenw : length (take e (drop j T)) = e).
      { rewrite length_take, length_drop. unfold T. rewrite length_drop. lia. }
      assert (Hlen : length (take j T) = j).
      { rewrite length_take. unfold T. rewrite length_drop. lia. }
      apply (Hstep _ _ _ m mk).
      + apply Hin. by left.
      + unfold group0, slice, m. simpl. unfold T. rewrite drop_drop. f_equal. lia.
      + intros j' Hj'. rewrite Hlen in Hj'.
        rewrite <- (Hd j' Hj'). f_equal.
        transitivity (drop j' (take j T ++ take e (drop j T) ++ drop (j + e) T));
          [by rewrite drop_app_le by lia|by rewrite <- HT].
      + rewrite Hlenw. rewrite <- Hm. f_equal.
        by rewrite <- drop_drop, take_drop.
      + unfold T. rewrite drop_drop.
        change (m_end m) with (pos + j + e).
        replace (pos + j + e) with (pos + (j + e)) by lia.
        apply (IH (length s - (pos + (j + e)))); [lia|lia|lia|done|].
        intros m' Hm'. apply Hin. right. unfold T. rewrite drop_drop.
        by replace (pos + j + e) with (pos + (j + e)) by lia. }
  specialize (G (length s) 0 (finditer r s)). rewrite drop_0 in G.
  apply G; [lia|lia|done|done].
Qed.

(** *** Words of the display-link pattern *)

Ltac by_computation := apply (bool_decide_unpack _); vm_compute; exact I.

Lemma display_link_split w :
  is_display_link w <->
  ∃ label v, w = 91%N :: (label ++ v) ∧ (10%N ∉ label) ∧ is_link_tail v.
Proof.
  split.
  - intros (label & www & path & digits & tail & -> & ? & ? & ? & ? & ? & ?).
    exists label. eexists. split_and!; [reflexivity|done|].
    exists www, path, digits, tail. done.
  - intros (label & v & -> & ? & www & path & digits & tail & -> & ? & ? & ? & ? & ?).
    exists label, www, path, digits, tail. done.
Qed.

Lemma tail_shape v ms : matches fixed_tail v ms -> is_link_tail v.
Proof.
  unfold fixed_tail. intros Hm.
  apply matches_lit_inv in Hm as (w3 & ? & -> & _ & Hm).
  apply matches_opt_inv in Hm as (www & w4 & ? & Hwww & -> & _ & Hm).
  apply matches_lit_inv in Hm as (w5 & ? & -> & _ & Hm).
  apply matches_rep_inv in Hm as (path & w6 & ? & -> & _ & Hpath & _ & Hm).
  apply matches_lit_inv in Hm as (w7 & ? & -> & _ & Hm).
  apply matches_rep_inv in Hm as (digits & w8 & ? & -> & Hlen & Hdigits & _ & Hm).
  apply matches_rep_inv in Hm as (tail & w9 & ? & -> & _ & Htail & _ & Hm).
  apply matches_lit_inv in Hm as (w10 & ? & -> & _ & Hm).
  apply matches_nil_inv in Hm as [-> _].
  exists www, path, digits, tail. rewrite app_nil_r.
  split_and!. all: try done.
  all: [> by apply not_paren_mem
              |by apply not_paren_mem|by apply nonempty_length|by apply digits_mem].
Qed.

Lemma mem_not_paren (t : text) :
  41%N ∉ t -> Forall (fun c => cset_mem (NoneOf [IChar 41]) c = true) t.
Proof.
  intros Hn. apply Forall_forall. intros c Hc.
  cbn [cset_mem citem_mem existsb]. rewrite orb_false_r.
  apply negb_true_iff, N.eqb_neq. intros <-. done.
Qed.

Lemma mem_not_newline (t : text) :
  10%N ∉ t -> Forall (fun c => cset_mem Dot c = true) t.
Proof.
  intros Hn. apply Forall_forall. intros c Hc.
  cbn [cset_mem]. apply negb_true_iff, N.eqb_neq. intros ->. done.
Qed.

Lemma mem_digits (t : text) :
  Forall (fun c => py_isdecimal c = true) t ->
  Forall (fun c => cset_mem (OneOf [IDigit]) c = true) t.
Proof.
  intros Hall. eapply Forall_impl; [exact Hall|]. intros c.
  cbn [cset_mem citem_mem existsb]. by rewrite orb_false_r.
Qed.

Lemma length_nonempty (t : text) : t ≠ [] -> 1 ≤ length t.
Proof. destruct t; simpl; [done|lia]. Qed.

Lemma tail_matches v : is_link_tail v -> ∃ ms, matches fixed_tail v ms.
Proof.
  intros (www & path & digits & tail & -> & Hwww & Hpath & Htail & Hne & Hd).
  unfold fixed_tail.
  assert (Hrest : ∃ ms, matches
            [Lit (txt "wowhead.com/"); Rep 0 true (NoneOf [IChar 41]);
             Lit (txt "item="); Rep 1 true (OneOf [IDigit]);
             Rep 0 true (NoneOf [IChar 41]); Lit (txt ")")]
            (txt "wowhead.com/" ++ path ++ txt "item=" ++ digits ++ tail ++ txt ")") ms).
  { eexists. apply matches_lit. apply matches_rep; [lia|by apply mem_not_paren|].
    apply matches_lit. apply matches_rep; [by apply length_nonempty|by apply mem_digits|].
    apply matches_rep; [lia|by apply mem_not_paren|].
    rewrite <- (app_nil_r (txt ")")). apply matches_lit. constructor. }
  destruct Hrest as [ms Hrest].
  destruct Hwww as [->| ->].
  - eexists. apply matches_lit. apply matches_opt_no. exact Hrest.
  - eexists. apply matches_lit. apply matches_opt_yes. exact Hrest.
Qed.

Lemma display_link_matches w : is_display_link w -> ∃ ms, matches fixed_link_re w ms.
Proof.
  intros (label & v & -> & Hl & [ms Hv]%tail_matches)%display_link_split.
  eexists. unfold fixed_link_re.
  apply (matches_lit (txt "[")). apply matches_rep; [lia|by apply mem_not_newline|].
  exact Hv.
Qed.

Lemma first_occurrence_le (c : N) (A B a b : text) :
  c ∉ A -> A ++ c :: a = B ++ c :: b -> length A ≤ length B.
Proof.
  revert B. induction A as [|x A IH]; intros B Hc E; simpl; [lia|].
  destruct B as [|y B]; simpl in *.
  - injection E as -> _. exfalso. apply Hc. by left.
  - injection E as -> E. apply IH in E; [lia|].
    intros ?. apply Hc. by right.
Qed.

Lemma first_occurrence (c : N) (A B a b : text) :
  c ∉ A -> c ∉ B -> A ++ c :: a = B ++ c :: b -> A = B.
Proof.
  intros HA HB E.
  pose proof (first_occurrence_le _ _ _ _ _ HA E).
  pose proof (first_occurrence_le _ _ _ _ _ HB (eq_sym E)).
  apply app_inj_1 in E; [by destruct E|lia].
Qed.

Lemma app_eq_prefix (A B a b : text) :
  A ++ a = B ++ b -> length A ≤ length B -> ∃ y, B = A ++ y.
Proof.
  intros E Hle. exists (drop (length A) B).
  rewrite <- (take_drop (length A) B) at 1. f_equal.
  apply (f_equal (take (length A))) in E.
  rewrite take_app_length, take_app_le in E by lia. done.
Qed.

Section SecondPass.

(** What the Unicode database says of line feed and of the closing
    parenthesis: the first is white space, neither is a decimal digit. *)
Hypothesis lf_isspace : py_isspace 10 = true.
Hypothesis lf_isdecimal : py_isdecimal 10 = false.
Hypothesis paren_isdecimal : py_isdecimal 41 = false.

Lemma digits_not_paren (d : text) :
  Forall (fun c => py_isdecimal c = true) d -> 41%N ∉ d.
Proof.
  intros Hall Hin. rewrite Forall_forall in Hall. apply Hall in Hin. congruence.
Qed.

Lemma digits_not_newline (d : text) :
  Forall (fun c => py_isdecimal c = true) d -> 10%N ∉ d.
Proof.
  intros Hall Hin. rewrite Forall_forall in Hall. apply Hall in Hin. congruence.
Qed.

Lemma url_chars_not_newline (t : text) : Forall url_char t -> 10%N ∉ t.
Proof.
  intros Hall Hin. rewrite Forall_forall in Hall. apply Hall in Hin as [? _]. congruence.
Qed.

(** The tail of a display link is a closing bracket, an opening
    parenthesis, a text without closing parenthesis, and the closing
    parenthesis. *)
Lemma link_tail_paren v :
  is_link_tail v -> ∃ U, v = 93%N :: 40%N :: U ++ [41%N] ∧ 41%N ∉ U.
Proof.
  intros (www & path & digits & tail & -> & Hwww & Hpath & Htail & Hne & Hd).
  exists (txt "https://" ++ www ++ txt "wowhead.com/"
          ++ path ++ txt "item=" ++ digits ++ tail).
  split.
  - assert (E1 : txt "](https://" = 93%N :: 40%N :: txt "https://") by reflexivity.
    assert (E2 : txt ")" = [41%N]) by reflexivity.
    rewrite E1, E2, <- !app_assoc. reflexivity.
  - rewrite !not_elem_of_app. split_and!; try done.
    + by_computation.
    + destruct Hwww as [->| ->]; [apply not_elem_of_nil|by_computation].
    + by_computation.
    + by_computation.
    + by apply digits_not_paren.
Qed.

Lemma link_tail_unique v v' a b :
  is_link_tail v -> is_link_tail v' -> v ++ a = v' ++ b -> v = v'.
Proof.
  intros (U & -> & HU)%link_tail_paren (U' & -> & HU')%link_tail_paren E.
  simpl in E. injection E as E. rewrite <- !app_assoc in E. simpl in E.
  by rewrite (first_occurrence _ _ _ _ _ HU HU' E).
Qed.

(** The matcher on the display-link pattern: the label is the shortest
    one after which the rest of the pattern matches. *)
Lemma fixed_match_inv T e ms :
  match_at fixed_link_re T 0 = Some (e, ms) ->
  ∃ T1 k, T = 91%N :: T1 ∧ k ≤ run Dot T1
    ∧ match_at fixed_tail (drop k T1) (1 + k) = Some (e, ms)
    ∧ ∀ k', k' < k -> match_at fixed_tail (drop k' T1) (1 + k') = None.
Proof.
  unfold fixed_link_re. fold fixed_tail.
  cbn [match_at].
  destruct (starts_with (txt "[") T) eqn:E; [|done].
  apply starts_with_app in E.
  change (txt "[") with [91%N] in *. cbn [length app] in *.
  destruct T as [|c T1]; [done|]. injection E as ->. cbn [drop].
  unfold counts. rewrite Nat.sub_0_r.
  intros (k & Hk & Hm & Hmin)%first_some_seq_min.
  rewrite drop_0 in Hk. setoid_rewrite drop_0 in Hmin. rewrite drop_0 in Hm.
  exists T1, k. split_and!; [done|lia|done|].
  intros k' Hk'. apply (Hmin k'). lia.
Qed.

Lemma fixed_never_empty : never_empty fixed_link_re.
Proof.
  intros T e ms (T1 & k & _ & _ & Hm & _)%fixed_match_inv.
  apply match_at_bounds in Hm. lia.
Qed.

(** A match of the display-link pattern does not depend on the text after
    it. *)
Lemma fixed_local w rest rest' ms :
  match_at fixed_link_re (w ++ rest) 0 = Some (length w, ms) ->
  ∃ ms', match_at fixed_link_re (w ++ rest') 0 = Some (length w, ms').
Proof.
  intros Hm.
  pose proof Hm as (T1 & k & ET & Hk & Hc & Hmin)%fixed_match_inv.
  pose proof (match_at_bounds _ _ _ _ _ Hc) as Hb.
  destruct w as [|c w1]; [simpl in Hb; lia|].
  simpl in ET. injection ET as -> <-. simpl in Hb.
  pose proof Hc as (v & rest2 & mv & Ev & Ee & _ & Hv)%match_at_sound.
  assert (Hkw : k + length v = length w1) by (simpl in Ee; lia).
  rewrite drop_app_le in Ev by lia.
  apply app_inj_1 in Ev as [Ev <-]; [|rewrite length_drop; lia].
  apply tail_shape in Hv as Hv'.
  (* the label is free of line feeds *)
  assert (Hlabel : Forall (fun c => cset_mem Dot c = true) (take k w1)).
  { apply run_take in Hk. by rewrite take_app_le in Hk by lia. }
  (* the same word matches before [rest'] *)
  assert (Hw : ∃ mw, matches fixed_link_re (91%N :: w1) mw).
  { apply display_link_matches, display_link_split. exists (take k w1), v.
    split_and!; [by rewrite <- Ev, take_drop|by apply not_newline_mem|done]. }
  destruct Hw as [mw Hw].
  destruct (match_at_complete _ _ _ rest' Hw) as [[e' ms'] Hm'].
  pose proof Hm' as (T1' & k' & ET & Hk' & Hc' & Hmin')%fixed_match_inv.
  simpl in ET. injection ET as <-.
  pose proof Hc' as (v' & rest3 & mv' & Ev' & Ee' & _ & Hv2)%match_at_sound.
  apply tail_shape in Hv2 as Hv2'.
  assert (Hkk : k' ≤ k).
  { destruct (decide (k' ≤ k)) as [|Hgt]; [done|]. exfalso.
    specialize (Hmin' k ltac:(lia)).
    rewrite drop_app_le, Ev in Hmin' by lia.
    apply match_at_shift_None in Hmin'.
    destruct (match_at_complete _ _ _ rest' Hv) as [? Hs]. congruence. }
  assert (Hkk' : k ≤ k').
  { destruct (decide (k ≤ k')) as [|Hlt]; [done|]. exfalso.
    specialize (Hmin k' ltac:(lia)).
    rewrite drop_app_le in Ev', Hmin by lia.
    destruct (link_tail_paren _ Hv') as (U & EU & HU).
    destruct (link_tail_paren _ Hv2') as (U' & EU' & HU').
    assert (Hsplit : ∃ X, drop k' w1 = X ++ v).
    { exists (take (k - k') (drop k' w1)).
      rewrite <- (take_drop (k - k') (drop k' w1)) at 1. f_equal.
      rewrite drop_drop, <- Ev. f_equal. lia. }
    destruct Hsplit as [X Hsplit].
    assert (Hle : length v' ≤ length (drop k' w1)).
    { assert (E : (93%N :: 40%N :: U') ++ 41%N :: rest3
                  = (X ++ 93%N :: 40%N :: U) ++ 41%N :: rest').
      { transitivity (v' ++ rest3); [rewrite EU'; simpl; by rewrite <- app_assoc|].
        rewrite <- Ev', Hsplit, EU. rewrite <- !app_assoc. simpl.
        by rewrite <- !app_assoc. }
      apply first_occurrence_le in E.
      - rewrite Hsplit, EU', EU. rewrite length_app in *. simpl in *.
        rewrite !length_app. simpl. lia.
      - rewrite !not_elem_of_cons. done. }
    destruct (app_eq_prefix _ _ _ _ (eq_sym Ev') Hle) as [y Ey].
    rewrite Ey, <- app_assoc in Hmin.
    apply match_at_shift_None in Hmin.
    destruct (match_at_complete _ _ _ (y ++ rest) Hv2) as [? Hs]. congruence. }
  assert (k' = k) as -> by lia.
  rewrite drop_app_le, Ev in Ev' by lia.
  pose proof (link_tail_unique _ _ _ _ Hv2' Hv' (eq_sym Ev')) as ->.
  exists ms'. rewrite Hm'. do 2 f_equal. simpl. lia.
Qed.

(** *** The links the rewrite writes *)

Lemma display_link_shape name i :
  10%N ∉ name -> i ≠ [] -> Forall (fun c => py_isdecimal c = true) i ->
  is_display_link (display_link name i).
Proof.
  intros Hn Hi Hd. exists name, (txt "www."), (txt "ru/"), i, [].
  split_and!; try done.
  - by right.
  - by_computation.
  - apply not_elem_of_nil.
Qed.

(** The only closing parenthesis of a written link is its last
    character. *)
Lemma display_link_paren name i :
  41%N ∉ name -> Forall (fun c => py_isdecimal c = true) i ->
  ∃ L, display_link name i = L ++ [41%N] ∧ 41%N ∉ L.
Proof.
  intros Hn Hd.
  exists (txt "[" ++ name ++ txt "](https://www.wowhead.com/ru/item=" ++ i).
  split.
  - unfold display_link. by rewrite <- !app_assoc.
  - rewrite !not_elem_of_app. split_and!; [by_computation|done|by_computation|].
    by apply digits_not_paren.
Qed.

Lemma last_snoc_paren (w : text) :
  last w = Some 41%N <-> ∃ w', w = w' ++ [41%N].
Proof.
  split.
  - destruct w as [|c w] using rev_ind; [done|].
    rewrite last_snoc. intros [= ->]. by eexists.
  - intros [w' ->]. by rewrite last_snoc.
Qed.

Lemma display_link_last w : is_display_link w -> last w = Some 41%N.
Proof.
  intros (label & v & -> & _ & (U & -> & _)%link_tail_paren)%display_link_split.
  apply last_snoc_paren. exists (91%N :: label ++ 93%N :: 40%N :: U).
  simpl. rewrite <- !app_assoc. done.
Qed.

Lemma fixed_match_word T e ms :
  match_at fixed_link_re T 0 = Some (e, ms) ->
  is_display_link (take e T) ∧ e ≤ length T.
Proof.
  intros (w & rest & ms' & -> & -> & _ & Hm)%match_at_sound.
  simpl. rewrite take_app_length, length_app. split; [by eapply fixed_shape|lia].
Qed.

(** The matcher finds a written link where it starts. *)
Lemma display_link_match name i rest :
  plain_name name -> i ≠ [] -> Forall (fun c => py_isdecimal c = true) i ->
  ∃ ms, match_at fixed_link_re (display_link name i ++ rest) 0
        = Some (length (display_link name i), ms).
Proof.
  intros (_ & Hp & Hn) Hi Hd.
  destruct (display_link_matches _ (display_link_shape _ _ Hn Hi Hd)) as [mw Hw].
  destruct (match_at_complete _ _ _ [] Hw) as [[e ms] Hm].
  rewrite app_nil_r in Hm.
  destruct (fixed_match_word _ _ _ Hm) as [Hshape Hle].
  apply display_link_last, last_snoc_paren in Hshape as [w' Ew].
  destruct (display_link_paren name i Hp Hd) as (L & EL & HL).
  assert (e = length (display_link name i)) as ->.
  { assert (E : L ++ 41%N :: [] = w' ++ 41%N :: drop e (display_link name i)).
    { rewrite <- EL. rewrite <- (take_drop e (display_link name i)) at 1.
      rewrite Ew, <- app_assoc. done. }
    apply first_occurrence_le in E; [|done].
    apply (f_equal length) in Ew. rewrite length_take, length_app in Ew.
    rewrite EL, length_app in *. simpl in *. lia. }
  rewrite <- (app_nil_r (display_link name i)) in Hm at 1.
  by apply fixed_local with (rest' := rest) in Hm.
Qed.

(** *** The first pass, as a pairing of the text with its rewriting *)

Lemma dead_in_drop r (x1 x2 R : text) : dead_in r (x1 ++ x2) R -> dead_in r x2 R.
Proof.
  intros Hd j Hj. specialize (Hd (length x1 + j)).
  rewrite length_app, drop_app_ge, Nat.add_comm, Nat.add_sub in Hd by lia.
  apply Hd. lia.
Qed.

Lemma dead_in_take r (x1 x2 R : text) :
  dead_in r (x1 ++ x2) R -> dead_in r x1 (x2 ++ R).
Proof.
  intros Hd j Hj. specialize (Hd j).
  rewrite length_app, drop_app_le, <- app_assoc in Hd by lia.
  apply Hd. lia.
Qed.

Lemma unfixed_never_empty : never_empty unfixed_link_re.
Proof.
  intros T e ms (w & rest & ms' & -> & -> & _ & Hm)%match_at_sound.
  apply unfixed_shape in Hm as (www & path & digits & tail & -> & _).
  simpl. rewrite length_app.
  assert (0 < length (txt "https://")) by (vm_compute; lia). lia.
Qed.

Lemma no_bare_drop x1 x2 : no_bare (x1 ++ x2) -> no_bare x2.
Proof. intros [R Hd]. exists R. by eapply dead_in_drop. Qed.

Lemma no_bare_spans g y : no_bare (g ++ y) -> bare_spans g = [Plain g].
Proof.
  intros [R Hd]. unfold bare_spans, finditer. rewrite scan_dead.
  - simpl. by rewrite slice_all.
  - intros j Hj. destruct (match_at unfixed_link_re (drop j g) 0) as [[e ms]|] eqn:E; [|done].
    exfalso. destruct (decide (j < length g)) as [Hlt|Hge].
    + assert (Hl : live unfixed_link_re (drop j g ++ y ++ R)).
      { apply live_app. by eexists. }
      destruct Hl as [? Hl]. specialize (Hd j).
      rewrite length_app, drop_app_le, <- app_assoc in Hd by lia.
      rewrite Hd in Hl by lia. done.
    + rewrite drop_ge in E by lia.
      pose proof (unfixed_never_empty _ _ _ E).
      apply match_at_bounds in E. simpl in E. lia.
Qed.

Section Pairing.
Variable idn : gmap text text.

Lemma block_match T0 B0 B rest :
  block idn T0 B0 B ->
  ∃ ms, match_at fixed_link_re (B ++ rest) 0 = Some (length B, ms).
Proof.
  intros [(i & name & (www & path & tail & _ & _ & _ & _ & Hi & Hd) & _ & Hn & ->)
         |[-> [ms Hm]]].
  - by apply display_link_match.
  - by eapply fixed_local.
Qed.

Lemma block_last T0 B0 B : block idn T0 B0 B -> last B = Some 41%N.
Proof.
  intros Hb. destruct (block_match _ _ _ [] Hb) as [ms Hm].
  apply fixed_match_word in Hm as [Hs _].
  rewrite take_app_length in Hs. by apply display_link_last.
Qed.

Lemma bare_link_newline u i : is_bare_link u i -> 10%N ∉ u.
Proof.
  intros (www & path & tail & -> & Hwww & Hpath & Htail & _ & Hd).
  rewrite !not_elem_of_app. split_and!.
  - by_computation.
  - destruct Hwww as [->| ->]; [apply not_elem_of_nil|by_computation].
  - by_computation.
  - by apply url_chars_not_newline.
  - by_computation.
  - by apply digits_not_newline.
  - by apply url_chars_not_newline.
Qed.

Lemma block_newline T0 B0 B : block idn T0 B0 B -> 10%N ∉ B -> 10%N ∉ B0.
Proof.
  intros [(i & name & Hu & _)|[-> _]]; [|done]. intros _. by eapply bare_link_newline.
Qed.

(** A closing parenthesis inside a block, before its end, is in a kept
    display link. *)
Lemma block_inner T0 B0 B (w y : text) :
  block idn T0 B0 B -> B = w ++ y -> y ≠ [] -> last w = Some 41%N -> B0 = w ++ y.
Proof.
  intros [(i & name & (www & path & tail & _ & _ & _ & _ & Hi & Hd) & _ & Hn & ->)
         |[-> _]]; [|done].
  intros E Hy [w' ->]%last_snoc_paren. exfalso.
  destruct Hn as (_ & Hp & _).
  destruct (display_link_paren name i Hp Hd) as (L & EL & HL).
  rewrite EL in E. rewrite <- app_assoc in E. simpl in E.
  assert (E' : L ++ 41%N :: [] = w' ++ 41%N :: y) by done.
  pose proof (first_occurrence_le _ _ _ _ _ HL E') as Hle.
  apply (f_equal length) in E'. rewrite !length_app in E'. simpl in E'.
  destruct y; [done|]. simpl in E'. lia.
Qed.

Lemma app_split (X Y w rest : text) :
  X ++ Y = w ++ rest ->
  (∃ y, X = w ++ y ∧ rest = y ++ Y)
  ∨ (∃ w1, w1 ≠ [] ∧ w = X ++ w1 ∧ Y = w1 ++ rest).
Proof.
  intros E. destruct (decide (length w ≤ length X)) as [Hle|Hgt].
  - left. destruct (app_eq_prefix _ _ _ _ (eq_sym E) Hle) as [y ->].
    exists y. split; [done|]. rewrite <- app_assoc in E. by apply app_inv_head in E.
  - right. destruct (app_eq_prefix _ _ _ _ E ltac:(lia)) as [w1 ->].
    exists w1. split_and!; [|done|].
    + intros ->. rewrite app_nil_r in Hgt. lia.
    + rewrite <- app_assoc in E. by apply app_inv_head in E.
Qed.

Lemma last_app_nonempty (a b : text) : b ≠ [] -> last (a ++ b) = last b.
Proof.
  intros Hb. destruct b as [|c b] using rev_ind; [done|].
  by rewrite app_assoc, !last_snoc.
Qed.

(** Where a word of the rewritten text that ends in a closing parenthesis
    stops: at the end of a block; or it is a word of the first text; or
    it leaves the last block it covers by text the rewrite kept. *)
Lemma locate T0 T :
  paired idn T0 T -> ∀ w rest, T = w ++ rest -> last w = Some 41%N ->
  (∃ T0', paired idn T0' rest)
  ∨ (∃ rest0, T0 = w ++ rest0)
  ∨ (∃ A0 A z rest0, w = A ++ z ∧ last A = Some 41%N ∧ z ≠ []
       ∧ T0 = A0 ++ z ++ rest0 ∧ (10%N ∉ A -> 10%N ∉ A0)).
Proof.
  induction 1 as [x Hx Hn|x B0 B T0 T HT IH Hb Hx Hn]; intros w rest E Hlast.
  - right; left. by exists rest.
  - apply app_split in E as [(y & -> & ->)|(w1 & Hw1 & -> & E)].
    { right; left. exists (y ++ B0 ++ T0). by rewrite <- app_assoc. }
    rewrite last_app_nonempty in Hlast by done.
    apply app_split in E as [(y & -> & ->)|(w2 & Hw2 & -> & E)].
    { destruct y as [|c y].
      - left. exists T0. by rewrite app_nil_r in *.
      - right; left. pose proof (block_inner _ _ _ _ _ Hb eq_refl ltac:(done) Hlast) as ->.
        exists ((c :: y) ++ T0). by rewrite <- !app_assoc. }
    rewrite last_app_nonempty in Hlast by done.
    destruct (IH w2 rest E Hlast)
      as [Ha|[[rest0 ->]|(A0 & A & z & rest0 & -> & HA & Hz & -> & Hnl)]].
    + by left.
    + right; right. exists (x ++ B0), (x ++ B), w2, rest0.
      split_and!; [by rewrite <- !app_assoc| |done|by rewrite <- !app_assoc|].
      * rewrite last_app_nonempty; [by eapply block_last|].
        intros EB. apply block_last in Hb. by rewrite EB in Hb.
      * rewrite !not_elem_of_app. intros [? ?]. split; [done|by eapply block_newline].
    + right; right. exists (x ++ B0 ++ A0), (x ++ B ++ A), z, rest0.
      split_and!; [by rewrite <- !app_assoc| |done|by rewrite <- !app_assoc|].
      * rewrite !last_app_nonempty; [done|by intros ->|].
        intros [? ?]%app_eq_nil. by subst.
      * rewrite !not_elem_of_app. intros (? & ? & ?).
        split_and!; [done|by eapply block_newline|by apply Hnl].
Qed.

Lemma suffix_after (c : N) (P V A z : text) :
  c ∉ V -> P ++ V = A ++ c :: z -> ∃ z', z = z' ++ V ∧ P = A ++ c :: z'.
Proof.
  intros Hc E.
  assert (E' : (A ++ [c]) ++ z = P ++ V) by (by rewrite <- app_assoc).
  apply app_split in E' as [(y & E1 & ->)|(w1 & _ & -> & ->)].
  - destruct y as [|d y] using rev_ind.
    + exists []. rewrite app_nil_r in E1. by rewrite <- E1.
    + exfalso. rewrite app_assoc in E1. apply app_inj_tail in E1 as [_ <-].
      apply Hc. rewrite !elem_of_app. left; right. by left.
  - exists w1. by rewrite <- app_assoc.
Qed.

(** One step of the second scan: the match it finds from a position
    outside the blocks ends with a block, and no bare link starts in the
    text it passed over. *)
Lemma advance T0 g w rest ms :
  paired idn T0 (g ++ w ++ rest) ->
  dead_in fixed_link_re g (w ++ rest) ->
  match_at fixed_link_re (w ++ rest) 0 = Some (length w, ms) ->
  bare_spans g = [Plain g] ∧ ∃ T0', paired idn T0' rest.
Proof.
  intros HP Hd Hm.
  pose proof (fixed_never_empty _ _ _ Hm) as Hlen.
  pose proof (fixed_match_word _ _ _ Hm) as [Hw _]. rewrite take_app_length in Hw.
  inversion HP as [x Hx Hn E1 E2|x B0 B T0' T' HT Hb Hx Hn E1 E2].
  - exfalso. subst. specialize (Hx (length g)).
    rewrite drop_app_length, app_nil_r, length_app, Hm in Hx.
    rewrite length_app in Hx. specialize (Hx ltac:(lia)). done.
  - clear E1. apply app_split in E2 as [(y & -> & E)|(g1 & Hg1 & -> & E)].
    2:{ exfalso. specialize (Hd (length x)).
        rewrite drop_app_length, <- E, length_app in Hd.
        destruct (block_match _ _ _ T' Hb) as [ms' Hs]. rewrite Hs in Hd.
        destruct g1; [done|]. simpl in Hd. specialize (Hd ltac:(lia)). done. }
    split; [by eapply no_bare_spans|].
    destruct y as [|c y].
    { simpl in E. destruct (block_match _ _ _ T' Hb) as [ms' Hs].
      rewrite <- E, Hm in Hs. injection Hs as Hs _.
      apply app_inj_1 in E as [_ ->]; [|done]. by exists T0'. }
    pose proof Hw as (label & v & -> & Hl & Hv)%display_link_split.
    simpl in E. injection E as <- E.
    assert (HP' : paired idn (y ++ B0 ++ T0') (y ++ B ++ T')).
    { apply paired_block; [done|done| |].
      - apply (dead_in_drop _ (g ++ [91%N])). by rewrite <- app_assoc.
      - apply (no_bare_drop (g ++ [91%N])). by rewrite <- app_assoc. }
    assert (Hdead : match_at fixed_link_re (91%N :: y ++ B0 ++ T0') 0 = None).
    { specialize (Hx (length g)).
      rewrite drop_app_length, length_app in Hx. simpl in Hx. apply Hx. lia. }
    destruct (link_tail_paren _ Hv) as (U & EU & HU).
    assert (Hlast : last (label ++ v) = Some 41%N).
    { apply last_snoc_paren. exists (label ++ 93%N :: 40%N :: U).
      rewrite EU, <- app_assoc. done. }
    assert (E' : y ++ B ++ T' = (label ++ v) ++ rest) by done.
    destruct (locate _ _ HP' _ _ E' Hlast)
      as [Ha|[[rest0 E0]|(A0 & A & z & rest0 & EA & HA & Hz & E0 & Hnl)]].
    + done.
    + exfalso. rewrite E0 in Hdead.
      destruct (display_link_matches _ Hw) as [mw Hmw].
      destruct (match_at_complete _ _ _ rest0 Hmw) as [? Hs].
      rewrite <- app_comm_cons in Hs. congruence.
    + exfalso. apply last_snoc_paren in HA as [A' ->].
      assert (Hz' : ∃ z', z = z' ++ [41%N]).
      { apply last_snoc_paren. rewrite <- Hlast, EA. by rewrite last_app_nonempty. }
      destruct Hz' as [z' ->].
      assert (E1 : label ++ 93%N :: 40%N :: U = A' ++ 41%N :: z').
      { rewrite EU in EA.
        assert (E2 : (label ++ 93%N :: 40%N :: U) ++ [41%N]
                     = (A' ++ 41%N :: z') ++ [41%N]).
        { rewrite <- !app_assoc. simpl. rewrite EA, <- !app_assoc. done. }
        by apply app_inj_tail in E2 as [? _]. }
      apply suffix_after in E1 as (z'' & -> & ->);
        [|by rewrite !not_elem_of_cons].
      rewrite E0 in Hdead.
      assert (Hw0 : is_display_link (91%N :: (A0 ++ z'') ++ v)).
      { apply display_link_split. exists (A0 ++ z''), v. split_and!; [done| |done].
        rewrite not_elem_of_app in Hl. destruct Hl as [Hl1 Hl2].
        apply not_elem_of_cons in Hl2 as [_ Hl2].
        rewrite not_elem_of_app. split; [|done].
        apply Hnl. rewrite not_elem_of_app, not_elem_of_cons.
        split_and!; [done|done|apply not_elem_of_nil]. }
      destruct (display_link_matches _ Hw0) as [mw Hmw].
      destruct (match_at_complete _ _ _ rest0 Hmw) as [? Hs].
      assert (Et : (91%N :: (A0 ++ z'') ++ v) ++ rest0
                   = 91%N :: A0 ++ ((z'' ++ 93%N :: 40%N :: U) ++ [41%N]) ++ rest0).
      { rewrite EU. by repeat (rewrite <- app_assoc || rewrite <- app_comm_cons). }
      rewrite Et in Hs. congruence.
Qed.

(** The second pass finds no bare link. *)
Lemma second_pass_spans T0 T : paired idn T0 T -> Forall kept (link_spans T).
Proof.
  intros HP. revert T0 HP. unfold link_spans.
  apply (cut_scan_ind fixed_link_re (fun m => Resolved (group0 T m)) bare_spans T
           (fun T' l => ∀ T0', paired idn T0' T' -> Forall kept l)).
  - apply fixed_never_empty.
  - intros g Hg T0' HP.
    inversion HP as [x Hx Hn E1 E2|x B0 B T0'' T'' HT Hb Hx Hn E1 E2].
    + rewrite (no_bare_spans g []) by (by rewrite app_nil_r). by repeat constructor.
    + exfalso. subst. specialize (Hg (length x)).
      rewrite drop_app_length, length_app in Hg.
      destruct (block_match _ _ _ T'' Hb) as [ms Hs]. rewrite Hs in Hg.
      specialize (Hg ltac:(lia)). done.
  - intros g w rest m ms l _ _ Hd Hm IH T0' HP.
    destruct (advance _ _ _ _ _ HP Hd Hm) as [Hg [T0'' HP']].
    rewrite Hg. simpl. constructor; [done|]. constructor; [done|by eapply IH].
Qed.

Lemma chunk_paired c After0 After :
  (∀ x, dead_in fixed_link_re x After0 -> no_bare x ->
        paired idn (x ++ After0) (x ++ After)) ->
  dead_in fixed_link_re c After0 ->
  resolves idn (bare_spans c) ->
  paired idn (c ++ After0) (concat (rewrite_span idn <$> bare_spans c) ++ After).
Proof.
  intros Hcont. unfold bare_spans.
  apply (cut_scan_ind unfixed_link_re
           (fun m => Bare (group0 c m) (group1 c m)) (fun t => [Plain t]) c
           (fun T l => dead_in fixed_link_re T After0 -> resolves idn l ->
                       paired idn (T ++ After0)
                              (concat (rewrite_span idn <$> l) ++ After))).
  - apply unfixed_never_empty.
  - intros g Hg Hfix _. simpl. rewrite app_nil_r. apply Hcont; [done|].
    exists []. intros j Hj. rewrite app_nil_r. apply Hg. lia.
  - intros g w rest m ms l Hin Hw Hd Hm IH Hfix Hres.
    pose proof (bare_match_shape _ _ Hin) as Hshape. rewrite Hw in *.
    destruct (Hres w (group1 c m)) as (name & Hname & Hplain).
    { rewrite elem_of_app. right. by left. }
    simpl. rewrite Hname.
    destruct name as [|c0 name]; [by destruct Hplain|].
    rewrite <- !app_assoc.
    apply paired_block.
    + apply IH.
      * apply (dead_in_drop _ (g ++ w)). by rewrite <- app_assoc.
      * intros u i Hui. apply (Hres u i). rewrite elem_of_app. right. by right.
    + left. by exists (group1 c m), (c0 :: name).
    + apply dead_in_take in Hfix. by rewrite <- app_assoc in Hfix.
    + by exists (w ++ rest).
Qed.

(** The first pass pairs the text with its rewriting when it gives every
    bare link a plain name. *)
Lemma first_pass_paired s :
  resolves idn (link_spans s) -> paired idn s (replace_unfixed idn s).
Proof.
  rewrite replace_unfixed_spans. unfold link_spans.
  apply (cut_scan_ind fixed_link_re (fun m => Resolved (group0 s m)) bare_spans s
           (fun T l => resolves idn l -> paired idn T (concat (rewrite_span idn <$> l)))).
  - apply fixed_never_empty.
  - intros g Hg Hres.
    rewrite <- (app_nil_r g) at 1.
    rewrite <- (app_nil_r (concat (rewrite_span idn <$> bare_spans g))).
    apply chunk_paired; [|intros j Hj; rewrite app_nil_r; apply Hg; lia|done].
    intros x Hx Hn. rewrite app_nil_r. by apply paired_end.
  - intros g w rest m ms l _ Hw Hd Hm IH Hres.
    rewrite Hw, fmap_app, concat_app. simpl.
    apply chunk_paired; [|done|].
    + intros x Hx Hn. apply paired_block; [|right; eauto|done|done].
      apply IH. intros u i Hui. apply (Hres u i). rewrite elem_of_app. right. by right.
    + intros u i Hui. apply (Hres u i). rewrite elem_of_app. by left.
Qed.

End Pairing.

Lemma rewrite_kept idn (l : list span) :
  Forall kept l -> concat (rewrite_span idn <$> l) = concat (span_text <$> l).
Proof.
  induction 1 as [|p l Hp _ IH]; [done|].
  rewrite !fmap_cons. cbn [concat]. rewrite IH. f_equal.
  destruct p as [t|u i|t]; simpl; [done| |done]. by destruct (Hp u i).
Qed.

(** When the first pass gives every bare link of the text a plain name,
    a second pass, with any names, changes nothing. *)
Lemma replace_unfixed_twice idn idn' s :
  resolves idn (link_spans s) ->
  replace_unfixed idn' (replace_unfixed idn s) = replace_unfixed idn s.
Proof.
  intros Hres. apply first_pass_paired, second_pass_spans in Hres.
  rewrite (replace_unfixed_spans idn'), rewrite_kept by done.
  apply link_spans_partition.
Qed.

End SecondPass.

(** When none of the ids [fix_item_links] finds in a message resolves to
    a name, the message is left as it is. *)
Lemma fix_item_links_unresolved h message :
  (∀ token i : text, _get_blizzard_token h = inr token ->
              i ∈ item_ids (content message) -> unresolved h token i) ->
  message_after (fix_item_links h message) = message.
Proof.
  intros Hall. unfold fix_item_links.
  destruct (item_ids (content message)) as [|i ids] eqn:E; [done|].
  destruct (_get_blizzard_token h) as [e|token] eqn:Et; [done|].
  cbn [message_after].
  rewrite fetch_names_unresolved by (intros; by apply Hall).
  by rewrite replace_unfixed_empty, with_content_same.
Qed.

Lemma fix_item_links_after h m :
  message_after (fix_item_links h m) = m
  ∨ ∃ token, _get_blizzard_token h = inr token
      ∧ message_after (fix_item_links h m)
        = with_content m
            (replace_unfixed (fetch_names h token (item_ids (content m)) ∅)
                             (content m)).
Proof.
  unfold fix_item_links.
  destruct (item_ids (content m)) as [|i ids]; [by left|].
  destruct (_get_blizzard_token h) as [e|token]; [by left|].
  right. by exists token.
Qed.

(** C4, amended. Enrichment is not idempotent on every text. It is in
    these cases. When none of the ids found in the message resolves to a
    name, the message is left as it is: this covers a text whose
    catalogue links are all in display-link form already. When the first
    pass gives every bare link of the text a name that is not empty and
    holds neither a closing parenthesis nor a line feed, enriching the
    result again changes nothing, whatever the catalogue answers then.
    The Unicode database is taken to count line feed as white space, and
    neither line feed nor the closing parenthesis as a decimal digit. *)
Theorem fix_item_links_idempotent h message :
  py_isspace 10 = true -> py_isdecimal 10 = false -> py_isdecimal 41 = false ->
  ((∀ token i : text, _get_blizzard_token h = inr token ->
      i ∈ item_ids (content message) -> unresolved h token i) ->
   message_after (fix_item_links h message) = message)
  ∧ ((∀ token : text, _get_blizzard_token h = inr token ->
        resolves (fetch_names h token (item_ids (content message)) ∅)
                 (link_spans (content message))) ->
     idempotent_at h message).
Proof.
  intros Hlf Hlfd Hpd. split; [apply fix_item_links_unresolved|].
  intros Hres. unfold idempotent_at. cbv zeta.
  destruct (fix_item_links_after h message) as [E|(token & Et & E)].
  { rewrite E. exact E. }
  rewrite E.
  destruct (fix_item_links_after h
              (with_content message
                 (replace_unfixed (fetch_names h token (item_ids (content message)) ∅)
                                  (content message))))
    as [E2|(token2 & _ & E2)]; [done|].
  rewrite E2. cbn [content with_content].
  rewrite (replace_unfixed_twice Hlf Hlfd Hpd) by (by apply Hres).
  done.
Qed.


(** ** The commands on a channel *)

Lemma bind_inr {A B} (c : M A) (k : A -> M B) w a w1 :
  c w = (inr a, w1) -> (x ← c; k x) w = k a w1.
Proof. intros E. unfold mbind, m_bind. by rewrite E. Qed.

Lemma bind_inl {A B} (c : M A) (k : A -> M B) w e w1 :
  c w = (inl e, w1) -> (x ← c; k x) w = (inl e, w1).
Proof. intros E. unfold mbind, m_bind. by rewrite E. Qed.

Lemma with_chan_id w : with_chan w (chan w) [] = w.
Proof. destruct w; unfold with_chan; simpl. by rewrite app_nil_r. Qed.

Lemma with_chan_twice w l1 e1 l2 e2 :
  with_chan (with_chan w l1 e1) l2 e2 = with_chan w l2 (e1 ++ e2).
Proof. unfold with_chan; simpl. by rewrite app_assoc. Qed.

Lemma upload_to_file x :
  upload {| file_name := att_filename x; file_bytes := att_bytes x |} = x.
Proof. by destruct x. Qed.

Lemma to_files_run l w :
  ∃ fs, to_files l w = (inr fs, with_chan w (chan w) (fmap Downloaded l)) ∧ fmap upload fs = l.
Proof.
  revert w. induction l as [|x l IH]; intros w; simpl.
  - exists []. by rewrite with_chan_id.
  - destruct (IH (with_chan w (chan w) [Downloaded x])) as (fs & E & Hfs).
    eexists (_ :: fs). split.
    + unfold to_file. erewrite bind_inr; [|erewrite bind_inr; [|reflexivity]; reflexivity].
      erewrite bind_inr; [|exact E]. simpl. by rewrite with_chan_twice.
    + rewrite fmap_cons, Hfs. simpl. by rewrite upload_to_file.
Qed.

Lemma find_msg_id id l m : find_msg id l = Some m -> msg_id m = id.
Proof.
  induction l as [|x l IH]; simpl; [done|].
  case_bool_decide; [|done]. by intros [= <-].
Qed.

Lemma find_msg_app_l id A L m :
  find_msg id A = Some m -> find_msg id (A ++ L) = Some m.
Proof.
  induction A as [|x A IH]; simpl; [done|]. by case_bool_decide.
Qed.

Lemma find_msg_app_r id A L :
  id ∉ fmap msg_id A -> find_msg id (A ++ L) = find_msg id L.
Proof.
  induction A as [|x A IH]; simpl; [done|].
  rewrite not_elem_of_cons. intros [? ?]. case_bool_decide; [congruence|auto].
Qed.

Lemma put_msg_notin m' l :
  msg_id m' ∉ fmap msg_id l -> put_msg m' l = l.
Proof.
  unfold put_msg. induction l as [|x l IH]; simpl; [done|].
  rewrite not_elem_of_cons. intros [? ?]. case_bool_decide; [congruence|].
  f_equal. auto.
Qed.

Lemma put_msg_app m' A L : put_msg m' (A ++ L) = put_msg m' A ++ put_msg m' L.
Proof. unfold put_msg. by rewrite fmap_app. Qed.

Lemma fetch_run id w m :
  find_msg id (chan w) = Some m ->
  fetch_message id w = (inr m, with_chan w (chan w) [Fetched id]).
Proof.
  intros E. unfold fetch_message.
  erewrite bind_inr; [|reflexivity]. rewrite E.
  erewrite bind_inr; [|reflexivity]. done.
Qed.

Lemma edit_run id w m c keep fs es s :
  find_msg id (chan w) = Some m ->
  edit id c keep fs es s w =
    (inr (), with_chan w (put_msg (edited m c keep fs es s) (chan w))
                       [Edited (edited m c keep fs es s)]).
Proof.
  intros E. unfold edit.
  erewrite bind_inr; [|reflexivity]. rewrite E.
  erewrite bind_inr; [|reflexivity]. done.
Qed.

Lemma copy_run a b w ma mb :
  find_msg a (chan w) = Some ma -> find_msg b (chan w) = Some mb ->
  copy a b w =
    (inr (), with_chan w (put_msg (take_payload ma mb) (chan w)) (copy_events (ma, mb))).
Proof.
  intros Ea Eb. unfold copy.
  erewrite bind_inr; [|by apply fetch_run].
  erewrite bind_inr; [|by apply fetch_run].
  destruct (to_files_run (attachments mb)
              (with_chan (with_chan w (chan w) [Fetched a]) (chan w) [Fetched b]))
    as (fs & E & Hfs).
  erewrite bind_inr; [|exact E].
  rewrite !with_chan_twice.
  erewrite edit_run; [|simpl; rewrite (find_msg_id _ _ _ Ea); exact Ea].
  rewrite !with_chan_twice. unfold edited, take_payload, copy_events. simpl.
  rewrite Hfs. rewrite (find_msg_id _ _ _ Ea), (find_msg_id _ _ _ Eb).
  unfold take_payload. by rewrite (find_msg_id _ _ _ Ea).
Qed.

Lemma bind_ext {A B} (c1 c2 : M A) (k1 k2 : A -> M B) w :
  c1 w = c2 w -> (∀ a w', k1 a w' = k2 a w') ->
  (x ← c1; k1 x) w = (x ← c2; k2 x) w.
Proof.
  intros E Hk. unfold mbind, m_bind. rewrite E.
  destruct (c2 w) as [[e|a] w1]; [done|]. apply Hk.
Qed.

Lemma shift_loop_pairs pre c w :
  for_each (seq (length pre) (length (removelast c))) (shift_step (pre ++ c)) w
  = shift_pairs c w.
Proof.
  revert pre w. induction c as [|a c IH]; intros pre w; [done|].
  destruct c as [|b c]; [done|].
  change (removelast (a :: b :: c)) with (a :: removelast (b :: c)).
  change (shift_pairs (a :: b :: c)) with (_ ← copy a b; shift_pairs (b :: c)).
  cbn [length seq for_each].
  apply bind_ext.
  - assert (E1 : (pre ++ a :: b :: c) !! length pre = Some a).
    { by rewrite lookup_app_r, Nat.sub_diag by lia. }
    assert (E2 : (pre ++ a :: b :: c) !! (length pre + 1) = Some b).
    { rewrite lookup_app_r by lia.
      by replace (length pre + 1 - length pre) with 1 by lia. }
    unfold shift_step, index. by rewrite E1, E2.
  - intros _ w1. specialize (IH (pre ++ [a]) w1).
    rewrite <- app_assoc in IH. simpl in IH.
    rewrite length_app in IH. simpl in IH.
    by replace (length pre + 1) with (S (length pre)) in IH by lia.
Qed.

Lemma bind_assoc {A B C} (c : M A) (k : A -> M B) (k' : B -> M C) w :
  (y ← (x ← c; k x); k' y) w = (x ← c; y ← k x; k' y) w.
Proof.
  unfold mbind, m_bind. destruct (c w) as [[e|a] w1]; done.
Qed.

Lemma adjacent_snoc {A} (X : list A) a b :
  adjacent (X ++ [a; b]) = adjacent (X ++ [a]) ++ [(a, b)].
Proof.
  induction X as [|x X IH]; [done|].
  destruct X as [|y X]; [done|].
  change ((x, y) :: adjacent ((y :: X) ++ [a; b])
          = (x, y) :: adjacent ((y :: X) ++ [a]) ++ [(a, b)]).
  by rewrite IH.
Qed.

Lemma shift_pairs_snoc X a b w :
  shift_pairs (X ++ [a; b]) w = (_ ← shift_pairs (X ++ [a]); copy a b) w.
Proof.
  revert w. induction X as [|x X IH]; intros w.
  - simpl. unfold mbind, m_bind, mret, m_ret.
    destruct (copy a b w) as [[e|[]] w1]; done.
  - destruct X as [|y X].
    + simpl. rewrite bind_assoc. apply bind_ext; [done|].
      intros _ w1. apply (IH w1).
    + change (shift_pairs ((x :: y :: X) ++ [a; b]))
        with (_ ← copy x y; shift_pairs ((y :: X) ++ [a; b])).
      change (shift_pairs ((x :: y :: X) ++ [a]))
        with (_ ← copy x y; shift_pairs ((y :: X) ++ [a])).
      rewrite bind_assoc. apply bind_ext; [done|].
      intros _ w1. apply (IH w1).
Qed.

Lemma shifted_ids carry L : msg_id <$> shifted carry L = msg_id <$> L.
Proof.
  revert carry. induction L as [|m L IH]; intros carry; simpl; [done|].
  case_bool_decide; simpl; by rewrite IH.
Qed.

Lemma shift_pairs_spec L A src w :
  chan w = A ++ L ->
  find_msg (msg_id src) A = Some src ->
  NoDup (msg_id <$> A ++ L) ->
  shift_pairs (msg_id <$> reverse (filter is_bot L) ++ [src]) w
  = (inr (), with_chan w (A ++ shifted src L)
               (flat_map copy_events (adjacent (reverse (filter is_bot L) ++ [src])))).
Proof.
  revert A src w. induction L as [|m L IH]; intros A src w Hc Hs Hn.
  - simpl. rewrite app_nil_r, <- (app_nil_r A), <- Hc. by rewrite with_chan_id.
  - rewrite filter_cons. destruct (decide (is_bot m)) as [Hb|Hb].
    + rewrite reverse_cons, <- app_assoc. simpl app.
      rewrite fmap_app. simpl fmap.
      rewrite shift_pairs_snoc.
      assert (Hm : find_msg (msg_id m) (A ++ [m]) = Some m).
      { rewrite find_msg_app_r; [simpl; by rewrite bool_decide_eq_true_2|].
        rewrite fmap_app in Hn. apply NoDup_app in Hn as (_ & Hd & _).
        intros Hin. apply (Hd _ Hin). simpl. left. }
      assert (Hm' : find_msg (msg_id m) (A ++ [m]) = Some m) by exact Hm.
      erewrite bind_inr; cycle 1.
      { replace ((msg_id <$> reverse (filter is_bot L)) ++ [msg_id m])
          with (msg_id <$> reverse (filter is_bot L) ++ [m])
          by (by rewrite fmap_app).
        apply (IH (A ++ [m]) m w); [by rewrite <- app_assoc|exact Hm|by rewrite <- app_assoc]. }
      assert (Hni : msg_id m ∉ msg_id <$> A).
      { rewrite fmap_app in Hn. apply NoDup_app in Hn as (_ & Hd & _).
        intros Hin. apply (Hd _ Hin). simpl. left. }
      assert (Hnl : msg_id m ∉ msg_id <$> L).
      { rewrite fmap_app in Hn. apply NoDup_app in Hn as (_ & _ & Hd).
        simpl in Hd. by apply NoDup_cons in Hd as [? _]. }
      erewrite copy_run; cycle 1.
      { simpl. apply find_msg_app_l, Hm. }
      { simpl. by apply find_msg_app_l, find_msg_app_l. }
      rewrite with_chan_twice. simpl chan.
      rewrite !put_msg_app.
      rewrite (put_msg_notin _ A) by done.
      rewrite (put_msg_notin _ (shifted m L)) by (by rewrite shifted_ids).
      simpl. rewrite !bool_decide_eq_true_2 by done.
      rewrite <- app_assoc. simpl.
      rewrite adjacent_snoc, flat_map_app. simpl. by rewrite app_nil_r.
    + simpl. rewrite bool_decide_eq_false_2 by done.
      rewrite (IH (A ++ [m]) src w).
      * by rewrite <- app_assoc.
      * by rewrite <- app_assoc.
      * by apply find_msg_app_l.
      * by rewrite <- app_assoc.
Qed.

Lemma collect_spec R t rest acc :
  is_bot t ->
  (∀ m, m ∈ R -> msg_id m ≠ msg_id t) ->
  collect_bot_msgs (msg_id t) (R ++ t :: rest) acc
  = acc ++ (msg_id <$> filter is_bot R) ++ [msg_id t].
Proof.
  intros Hb. revert acc. induction R as [|m R IH]; intros acc Hd; simpl.
  - by rewrite !bool_decide_eq_true_2.
  - rewrite filter_cons. destruct (decide (is_bot m)) as [Hm|Hm].
    + rewrite bool_decide_eq_true_2 by done.
      rewrite bool_decide_eq_false_2.
      2:{ intros E. eapply Hd; [left|done]. }
      rewrite IH by (intros; apply Hd; by right).
      by rewrite <- app_assoc.
    + rewrite bool_decide_eq_false_2 by done.
      apply IH. intros; apply Hd; by right.
Qed.

Lemma channel_send_run c fs es s w :
  let m := {| msg_id := next_id w; author := bot_user; content := c;
              attachments := upload <$> fs; embeds := es; suppress_embeds := s |} in
  channel_send c fs es s w
  = (inr m, {| chan := chan w ++ [m]; next_id := next_id w + 1;
               trace := trace w ++ [Sent m]; files := files w;
               documents := documents w |}).
Proof. done. Qed.

Lemma wf_fresh w m : wf w -> m ∈ chan w -> msg_id m ≠ next_id w.
Proof.
  intros [_ Hlt] Hin. rewrite Forall_forall in Hlt. specialize (Hlt _ Hin). lia.
Qed.

Lemma collected_ids w pre t post :
  wf w -> chan w = pre ++ t :: post -> is_bot t ->
  collect_bot_msgs (msg_id t) (reverse (chan w ++ [placeholder (next_id w)])) []
  = msg_id <$> reverse (filter is_bot (post ++ [placeholder (next_id w)])) ++ [t].
Proof.
  intros Hwf Hc Hb. pose proof Hwf as [Hnd _].
  set (p := placeholder (next_id w)).
  replace (chan w ++ [p]) with (pre ++ t :: (post ++ [p]))
    by (by rewrite Hc, <- app_assoc).
  rewrite reverse_app, reverse_cons, <- app_assoc. simpl app.
  rewrite collect_spec; [| done |].
  - simpl. by rewrite filter_reverse, fmap_app.
  - intros m Hin. rewrite elem_of_reverse, elem_of_app in Hin.
    destruct Hin as [Hin|Hin].
    + rewrite Hc, fmap_app in Hnd. apply NoDup_app in Hnd as (_ & _ & Hnd).
      simpl in Hnd. apply NoDup_cons in Hnd as [Hni _].
      intros E. apply Hni. rewrite <- E. by apply list_elem_of_fmap_2.
    + apply list_elem_of_singleton in Hin as ->. simpl.
      intros E. eapply (wf_fresh w t); [done| |done].
      rewrite Hc. apply elem_of_app. right. left.
Qed.

Lemma insert_message_run w pre t post :
  wf w -> chan w = pre ++ t :: post -> is_bot t ->
  insert_message t w = (inr (), inserted w pre t post).
Proof.
  intros Hwf Hc Hb. pose proof Hwf as [Hnd Hlt].
  set (p := placeholder (next_id w)).
  set (r := Responded (txt "Inserted empty message at " ++ jump_url (msg_id t)) true).
  set (w2 := {| chan := chan w ++ [p]; next_id := next_id w + 1;
                trace := (trace w ++ [r]) ++ [Sent p];
                files := files w; documents := documents w |}).
  assert (Hni : msg_id t ∉ msg_id <$> pre).
  { rewrite Hc, fmap_app in Hnd. apply NoDup_app in Hnd as (_ & Hd & _).
    intros Hin. apply (Hd _ Hin). simpl. left. }
  assert (Ht : find_msg (msg_id t) (pre ++ [t]) = Some t).
  { rewrite find_msg_app_r by done. simpl. by rewrite bool_decide_eq_true_2. }
  set (w1 := {| chan := chan w; next_id := next_id w; trace := trace w ++ [r];
                files := files w; documents := documents w |}).
  assert (E1 : respond (txt "Inserted empty message at " ++ jump_url (msg_id t)) true w
               = (inr (), w1)) by done.
  assert (E2 : channel_send (txt "*** ***") [] [] false w1 = (inr p, w2)) by done.
  assert (E3 : history false w2 = (inr (reverse (chan w ++ [p])), w2)) by done.
  unfold insert_message.
  erewrite bind_inr; [|exact E1].
  erewrite bind_inr; [|exact E2].
  erewrite bind_inr; [|exact E3].
  pose proof (collected_ids w pre t post Hwf Hc Hb) as Hcol. fold p in Hcol.
  cbv zeta. rewrite Hcol.
  erewrite bind_inr; cycle 1.
  { etransitivity; [apply (shift_loop_pairs [])|].
    apply (shift_pairs_spec (post ++ [p]) (pre ++ [t]) t w2).
    - simpl. by rewrite Hc, <- !app_assoc.
    - exact Ht.
    - replace ((pre ++ [t]) ++ post ++ [p]) with (chan w ++ [p])
        by (by rewrite Hc, <- !app_assoc).
      rewrite fmap_app. apply NoDup_app. split; [done|]. split.
      + intros x Hx. apply list_elem_of_fmap in Hx as (m & -> & Hm).
        simpl. rewrite list_elem_of_singleton. by apply wf_fresh.
      + apply NoDup_singleton. }
  erewrite edit_run; cycle 1.
  { simpl. apply find_msg_app_l, Ht. }
  unfold inserted. fold p. fold r. unfold with_chan. simpl.
  f_equal. f_equal.
  - rewrite !put_msg_app. rewrite (put_msg_notin _ pre) by done.
    rewrite (put_msg_notin _ (shifted t (post ++ [p]))).
    2:{ rewrite shifted_ids. simpl. rewrite fmap_app. intros Hin.
        apply elem_of_app in Hin as [Hin|Hin].
        - rewrite Hc, fmap_app in Hnd. apply NoDup_app in Hnd as (_ & _ & Hd).
          simpl in Hd. by apply NoDup_cons in Hd as [? _].
        - simpl in Hin. apply list_elem_of_singleton in Hin.
          eapply (wf_fresh w t); [done| |done].
          rewrite Hc. apply elem_of_app. right. left. }
    simpl. rewrite bool_decide_eq_true_2 by done.
    rewrite <- app_assoc. simpl. unfold edited, placeholder_edit. simpl.
    by rewrite app_nil_r.
  - rewrite <- !app_assoc. simpl. unfold edited, placeholder_edit. simpl.
    by rewrite app_nil_r.
Qed.

Lemma shifted_authors carry L : author <$> shifted carry L = author <$> L.
Proof.
  revert carry. induction L as [|m L IH]; intros carry; simpl; [done|].
  case_bool_decide; simpl; by rewrite IH.
Qed.

Lemma shifted_foreign carry L :
  filter (fun m => ¬ is_bot m) (shifted carry L) = filter (fun m => ¬ is_bot m) L.
Proof.
  revert carry. induction L as [|m L IH]; intros carry; simpl; [done|].
  case_bool_decide as Hb.
  - rewrite !filter_cons_False by (intros Hn; by apply Hn). apply IH.
  - rewrite !filter_cons_True by done. by rewrite IH.
Qed.

Lemma shifted_payloads src L :
  payload <$> filter is_bot (shifted src L)
  = payload <$> take (length (filter is_bot L)) (src :: filter is_bot L).
Proof.
  revert src. induction L as [|m L IH]; intros src; simpl; [done|].
  case_bool_decide as Hb.
  - rewrite !filter_cons_True by done. simpl. by rewrite IH.
  - rewrite !filter_cons_False by done. apply IH.
Qed.



Lemma shifted_no_bot carry L L2 :
  filter is_bot L = [] -> shifted carry (L ++ L2) = L ++ shifted carry L2.
Proof.
  induction L as [|m L IH]; simpl; [done|].
  rewrite filter_cons. destruct (decide (is_bot m)); [done|].
  intros E. rewrite bool_decide_eq_false_2 by done. by rewrite IH.
Qed.


(** C10. When the id is a number that [get_user] does not know,
    [dump_messages] raises [AttributeError] on reading [user.name] and
    leaves the world as it was: nothing is answered and nothing is sent. *)
Theorem dump_messages_unknown_user id n w :
  py_int id = inr n -> get_user n = None ->
  dump_messages id w = (inl (AttributeError (txt "name")), w).
Proof.
  intros Hid Hu. unfold dump_messages.
  erewrite bind_inr; [|unfold lift; by rewrite Hid].
  by rewrite Hu.
Qed.

Lemma saved_nil w filename : saved w filename [] = w.
Proof. destruct w. unfold saved. simpl. by rewrite app_nil_r. Qed.

Lemma save_attachments_run filename l images img w :
  save_attachments filename l images img w
  = (inr (images ++ replicate (length l) (image_ref filename),
          if l is [] then img else 1),
     saved w filename l).
Proof.
  revert images img w. induction l as [|a l IH]; intros images img w.
  - simpl. by rewrite app_nil_r, saved_nil.
  - cbn [save_attachments].
    erewrite bind_inr; [|reflexivity].
    erewrite bind_inr; [|reflexivity].
    rewrite IH. unfold saved. cbn [chan next_id trace files documents].
    cbn [length replicate flat_map store_all foldl].
    rewrite <- !app_assoc. by destruct l.
Qed.

Lemma saved_saved w filename l1 l2 :
  saved (saved w filename l1) filename l2 = saved w filename (l1 ++ l2).
Proof.
  unfold saved, store_all. cbn [chan next_id trace files documents].
  by rewrite flat_map_app, foldl_app, <- app_assoc.
Qed.

Lemma save_records_run filename hist msgs img w :
  save_records filename hist msgs img w
  = (inr (msgs ++ (export_entry filename <$> hist)),
     saved w filename (concat (attachments <$> hist))).
Proof.
  revert msgs img w. induction hist as [|m hist IH]; intros msgs img w.
  - simpl. by rewrite app_nil_r, saved_nil.
  - cbn [save_records].
    erewrite bind_inr; [|apply save_attachments_run].
    cbv beta iota.
    rewrite IH, saved_saved. rewrite fmap_cons. cbn [concat app].
    by rewrite <- app_assoc.
Qed.

Lemma save_messages_run filename w :
  save_messages (Some filename) w = (inr (), exported w filename).
Proof.
  unfold save_messages.
  erewrite bind_inr; [|reflexivity].
  erewrite bind_inr; [|reflexivity].
  erewrite bind_inr; [|reflexivity].
  erewrite bind_inr; [|apply save_records_run].
  erewrite bind_inr; [|reflexivity].
  unfold exported, saved, respond, log. cbn [chan next_id trace files documents].
  by rewrite <- !app_assoc.
Qed.

Lemma store_all_lookup filename l fs :
  l ≠ [] -> is_Some (store_all filename l fs !! image_path filename).
Proof.
  unfold store_all. revert fs. induction l as [|a l IH]; intros fs Hne; [done|].
  simpl. destruct l as [|b l].
  - simpl. rewrite lookup_insert_eq. by eexists.
  - by apply IH.
Qed.

Lemma open_files_run filename k w :
  (0 < k -> is_Some (files w !! image_path filename)) ->
  open_files (replicate k (image_ref filename)) w
  = (inr (replicate k (stored_file (files w) filename)), w).
Proof.
  intros Hsome. induction k as [|k IH]; [done|].
  cbn [replicate open_files].
  destruct Hsome as [data Hd]; [lia|].
  erewrite bind_inr; cycle 1.
  { unfold open_file. change (FILEPATH ++ txt "/" ++ image_ref filename)
      with (image_path filename). by rewrite Hd. }
  erewrite bind_inr; [|apply IH; by eexists].
  unfold stored_file.
  change (FILEPATH ++ txt "/" ++ image_ref filename) with (image_path filename).
  by rewrite Hd.
Qed.

Lemma publish_loop filename (hist : list Message) w :
  (∀ m, m ∈ hist -> attachments m ≠ [] -> is_Some (files w !! image_path filename)) ->
  for_each (export_entry filename <$> hist) publish_one w
  = (inr (), {| chan := chan w ++ imported (files w) filename hist (next_id w);
                next_id := next_id w + Z.of_nat (length hist);
                trace := trace w
                  ++ (Sent <$> imported (files w) filename hist (next_id w));
                files := files w; documents := documents w |}).
Proof.
  revert w. induction hist as [|m hist IH]; intros w Hfiles.
  - simpl. destruct w; simpl. by rewrite !app_nil_r, Z.add_0_r.
  - rewrite fmap_cons. cbn [for_each export_entry publish_one].
    erewrite bind_inr; cycle 1.
    { erewrite bind_inr; cycle 1.
      { apply open_files_run. intros Hk. apply (Hfiles m); [left|].
        destruct (attachments m); [simpl in Hk; lia|done]. }
      erewrite bind_inr; [|apply channel_send_run]. reflexivity. }
    rewrite IH; cycle 1.
    { intros m' Hin Hne. cbn [files]. apply (Hfiles m'); [by right|done]. }
    cbn [chan next_id trace files documents imported].
    f_equal. f_equal.
    + by rewrite <- app_assoc.
    + cbn [length]. lia.
    + rewrite fmap_cons. by rewrite <- app_assoc.
Qed.

Lemma imported_contents fs filename hist id :
  (∀ c, emojify (deemojify c) = c) ->
  content <$> imported fs filename hist id = content <$> hist.
Proof.
  intros Hinv. revert id. induction hist as [|m hist IH]; intros id; [done|].
  cbn [imported]. rewrite !fmap_cons, IH. cbn [imported_record content].
  by rewrite Hinv.
Qed.

Lemma imported_descriptions fs filename hist id :
  (fun m => embed_description <$> embeds m) <$> imported fs filename hist id
  = (fun m => embed_description <$> embeds m) <$> hist.
Proof.
  revert id. induction hist as [|m hist IH]; intros id; [done|].
  cbn [imported]. rewrite !fmap_cons, IH. cbn [imported_record embeds]. f_equal.
  rewrite <- (list_fmap_compose description_only embed_description).
  rewrite (list_fmap_ext _ (fun d => d)) by done. apply list_fmap_id.
Qed.

Lemma imported_attachment_counts fs filename hist id :
  (fun m => length (attachments m)) <$> imported fs filename hist id
  = (fun m => length (attachments m)) <$> hist.
Proof.
  revert id. induction hist as [|m hist IH]; intros id; [done|].
  cbn [imported]. rewrite !fmap_cons, IH. cbn [imported_record attachments].
  by rewrite length_fmap, length_replicate.
Qed.

Lemma imported_ids fs filename hist id :
  Forall (fun m => (id ≤ msg_id m)%Z) (imported fs filename hist id).
Proof.
  revert id. induction hist as [|m hist IH]; intros id; [constructor|].
  cbn [imported]. constructor; [simpl; lia|].
  eapply Forall_impl; [apply IH|]. intros; simpl in *; lia.
Qed.

Lemma concat_attachments_nonempty (hist : list Message) m :
  m ∈ hist -> attachments m ≠ [] -> concat (attachments <$> hist) ≠ [].
Proof.
  induction hist as [|x hist IH]; [by intros ?%elem_of_nil|].
  rewrite fmap_cons. cbn [concat].
  intros [->|Hin]%elem_of_cons Hne E; apply app_eq_nil in E as [E1 E2]; [done|].
  by apply IH.
Qed.


Lemma remove_msg_head m L :
  msg_id m ∉ msg_id <$> L -> remove_msg (msg_id m) (m :: L) = L.
Proof.
  intros Hni. unfold remove_msg. rewrite filter_cons_False by (intros Hn; by apply Hn).
  induction L as [|x L IH]; [done|].
  rewrite fmap_cons, not_elem_of_cons in Hni. destruct Hni as [Hx Hni].
  rewrite filter_cons_True by congruence. f_equal. by apply IH.
Qed.

Lemma delete_run id w m :
  find_msg id (chan w) = Some m ->
  delete id w = (inr (), with_chan w (remove_msg id (chan w)) [Deleted id]).
Proof.
  intros E. unfold delete.
  erewrite bind_inr; [|reflexivity]. rewrite E.
  erewrite bind_inr; [|reflexivity]. done.
Qed.

Lemma sends_deletes_downloads l : sends_deletes (Downloaded <$> l) = [].
Proof.
  induction l as [|a l IH]; [done|].
  unfold sends_deletes. rewrite fmap_cons, filter_cons_False by (by intros []).
  exact IH.
Qed.

Lemma republish_one_run m L w :
  chan w = m :: L ->
  msg_id m ∉ msg_id <$> L ->
  (msg_id m < next_id w)%Z ->
  ∃ r evs,
    republish_one m w
    = (inr (), {| chan := L ++ [r]; next_id := next_id w + 1;
                  trace := trace w ++ evs; files := files w;
                  documents := documents w |})
    ∧ replaces (chan w) (next_id w) m r
    ∧ sends_deletes evs = [Sent r; Deleted (msg_id m)].
Proof.
  intros Hc Hni Hlt.
  assert (Hdel : ∀ r tr, msg_id r = next_id w ->
            delete (msg_id m) {| chan := chan w ++ [r]; next_id := next_id w + 1;
                                 trace := tr; files := files w;
                                 documents := documents w |}
            = (inr (), {| chan := L ++ [r]; next_id := next_id w + 1;
                          trace := tr ++ [Deleted (msg_id m)]; files := files w;
                          documents := documents w |})).
  { intros r tr Hr. erewrite delete_run; cycle 1.
    { cbn [chan]. rewrite Hc. simpl. by rewrite bool_decide_eq_true_2. }
    unfold with_chan. cbn [chan next_id trace files documents].
    rewrite Hc. change ((m :: L) ++ [r]) with (m :: (L ++ [r])).
    rewrite remove_msg_head; [done|].
    rewrite fmap_app, elem_of_app. intros [?|Hin]; [done|].
    simpl in Hin. apply list_elem_of_singleton in Hin. lia. }
  unfold republish_one.
  destruct (content m) as [|c0 cs] eqn:Ec.
  - destruct (qualifies m) eqn:Eq.
    + exists (toc_record (chan w) (next_id w)). eexists. split; [|split].
      * unfold qualifies in Eq. destruct (embeds m) as [|e es]; [done|]. rewrite Eq.
        erewrite bind_inr; cycle 1.
        { unfold summary.
          erewrite bind_inr; [|reflexivity].
          erewrite bind_inr; [|reflexivity].
          erewrite bind_inr; [|apply channel_send_run]. reflexivity. }
        cbn [chan next_id trace files documents].
        etransitivity; [apply Hdel; done|]. rewrite <- !app_assoc. reflexivity.
      * by apply replaces_toc.
      * done.
    + exists (placeholder (next_id w)). eexists. split; [|split].
      * assert (Es : (_ ← channel_send (txt "*** ***") [] [] false; mret ()) w
                     = (inr (), {| chan := chan w ++ [placeholder (next_id w)];
                                   next_id := next_id w + 1;
                                   trace := trace w ++ [Sent (placeholder (next_id w))];
                                   files := files w; documents := documents w |})).
        { erewrite bind_inr; [|apply channel_send_run]. reflexivity. }
        unfold qualifies in Eq. destruct (embeds m) as [|e es].
        -- erewrite bind_inr; [|exact Es]. etransitivity; [apply Hdel; done|].
           rewrite <- !app_assoc. reflexivity.
        -- rewrite Eq. erewrite bind_inr; [|exact Es].
           etransitivity; [apply Hdel; done|]. rewrite <- !app_assoc. reflexivity.
      * by apply replaces_placeholder.
      * done.
  - destruct (to_files_run (attachments m) w) as (fs & Ef & Hfs).
    assert (Es : ∀ c, (fs ← to_files (attachments m);
                       _ ← channel_send c fs (embeds m) (suppress_for (embeds m));
                       mret ()) w
                 = (inr (), {| chan := chan w ++ [copy_of m c (next_id w)];
                               next_id := next_id w + 1;
                               trace := (trace w ++ (Downloaded <$> attachments m))
                                          ++ [Sent (copy_of m c (next_id w))];
                               files := files w; documents := documents w |})).
    { intros c. erewrite bind_inr; [|exact Ef].
      erewrite bind_inr; [|apply channel_send_run].
      unfold copy_of, with_chan. cbn [chan next_id trace files documents].
      by rewrite Hfs. }
    case_bool_decide as Hb.
    + exists (copy_of m (c0 :: cs) (next_id w)). eexists. split; [|split].
      * erewrite bind_inr; [|apply Es]. etransitivity; [apply Hdel; done|].
        rewrite <- !app_assoc. reflexivity.
      * rewrite <- Ec. apply replaces_verbatim; [by rewrite Ec|done].
      * unfold sends_deletes. rewrite filter_app.
        fold (sends_deletes (Downloaded <$> attachments m)).
        by rewrite sends_deletes_downloads.
    + exists (copy_of m (emojify (c0 :: cs)) (next_id w)). eexists. split; [|split].
      * erewrite bind_inr; [|apply Es]. etransitivity; [apply Hdel; done|].
        rewrite <- !app_assoc. reflexivity.
      * rewrite <- Ec. apply replaces_emojified; [by rewrite Ec|done].
      * unfold sends_deletes. rewrite filter_app.
        fold (sends_deletes (Downloaded <$> attachments m)).
        by rewrite sends_deletes_downloads.
Qed.

Lemma replaces_id l id m r : replaces l id m r -> msg_id r = id.
Proof. by destruct 1. Qed.

Lemma republish_loop rest done w :
  chan w = rest ++ done ->
  NoDup (msg_id <$> chan w) ->
  Forall (fun m => (msg_id m < next_id w)%Z) (chan w) ->
  ∃ news evs,
    for_each rest republish_one w
    = (inr (), {| chan := done ++ news; next_id := next_id w + Z.of_nat (length rest);
                  trace := trace w ++ evs; files := files w;
                  documents := documents w |})
    ∧ length news = length rest
    ∧ (∀ i m, rest !! i = Some m ->
         ∃ r, news !! i = Some r
           ∧ replaces (drop i rest ++ done ++ take i news) (next_id w + Z.of_nat i) m r)
    ∧ sends_deletes evs = flat_map swap_events (zip rest news).
Proof.
  revert done w. induction rest as [|m rest IH]; intros done w Hc Hnd Hlt.
  - exists [], []. split_and!; try done.
    + simpl. destruct w; simpl in *. by rewrite Hc, !app_nil_r, Z.add_0_r.
  - assert (Hni : msg_id m ∉ msg_id <$> rest ++ done).
    { rewrite Hc in Hnd. simpl in Hnd. by apply NoDup_cons in Hnd as [? _]. }
    assert (Hm : (msg_id m < next_id w)%Z).
    { rewrite Hc in Hlt. simpl in Hlt. by apply Forall_cons in Hlt as [? _]. }
    destruct (republish_one_run m (rest ++ done) w Hc Hni Hm)
      as (r & evs1 & Erun & Hrep & Hsd).
    pose proof (replaces_id _ _ _ _ Hrep) as Hr.
    set (w1 := {| chan := (rest ++ done) ++ [r]; next_id := next_id w + 1;
                  trace := trace w ++ evs1; files := files w;
                  documents := documents w |}) in *.
    destruct (IH (done ++ [r]) w1) as (news & evs2 & Eloop & Hlen & Hidx & Hsd2).
    { unfold w1. cbn [chan]. by rewrite <- app_assoc. }
    { unfold w1. cbn [chan]. rewrite fmap_app. apply NoDup_app. split_and!.
      - rewrite Hc in Hnd. simpl in Hnd. by apply NoDup_cons in Hnd as [_ ?].
      - intros x Hx. simpl. rewrite list_elem_of_singleton, Hr.
        apply list_elem_of_fmap in Hx as (m0 & -> & Hin).
        rewrite Forall_forall in Hlt. specialize (Hlt m0).
        rewrite Hc in Hlt. specialize (Hlt ltac:(by right)). lia.
      - apply NoDup_singleton. }
    { unfold w1. cbn [chan next_id]. apply Forall_app. split.
      - rewrite Hc in Hlt. simpl in Hlt. apply Forall_cons in Hlt as [_ Hlt].
        eapply Forall_impl; [exact Hlt|]. intros; simpl in *; lia.
      - repeat constructor. lia. }
    exists (r :: news), (evs1 ++ evs2). split_and!.
    + cbn [for_each]. erewrite bind_inr; [|exact Erun]. rewrite Eloop.
      unfold w1. cbn [chan next_id trace files documents length]. f_equal. f_equal.
      * by rewrite <- app_assoc.
      * lia.
      * by rewrite <- app_assoc.
    + simpl. lia.
    + intros [|i] m0 Hl.
      * simpl in Hl. injection Hl as <-. exists r. split; [done|].
        rewrite Z.add_0_r. cbn [drop take]. rewrite app_nil_r, <- Hc. exact Hrep.
      * simpl in Hl. destruct (Hidx i m0 Hl) as (r0 & Hn & Hrep0).
        exists r0. split; [done|]. cbn [drop take].
        replace (next_id w + Z.of_nat (S i))%Z with (next_id w1 + Z.of_nat i)%Z
          by (unfold w1; cbn [next_id]; lia).
        by rewrite <- app_assoc in Hrep0.
    + unfold sends_deletes in *. rewrite filter_app, Hsd, Hsd2. done.
Qed.


(** * The rest of the cog *)

(** ** More of the enrichment *)

Lemma fromkeys_acc_spec seen l x :
  x ∈ fromkeys_acc seen l <-> x ∈ l ∧ x ∉ seen.
Proof.
  revert seen. induction l as [|y l IH]; intros seen; simpl.
  - rewrite elem_of_nil. tauto.
  - case_bool_decide as Hy.
    + rewrite IH, elem_of_cons. split; [tauto|]. intros [[->|?] ?]; tauto.
    + rewrite elem_of_cons, IH, !elem_of_cons. split.
      * intros [->|[? ?]]; [tauto|]. split; [tauto|]. tauto.
      * intros [[->|?] ?]; [tauto|].
        destruct (decide (x = y)) as [->|]; [tauto|]. right. tauto.
Qed.

Lemma fromkeys_acc_NoDup seen l : NoDup (fromkeys_acc seen l).
Proof.
  revert seen. induction l as [|y l IH]; intros seen; simpl; [constructor|].
  case_bool_decide; [apply IH|]. constructor; [|apply IH].
  rewrite fromkeys_acc_spec, elem_of_cons. tauto.
Qed.

Lemma elem_of_fromkeys l x : x ∈ fromkeys l <-> x ∈ l.
Proof. unfold fromkeys. rewrite fromkeys_acc_spec, elem_of_nil. tauto. Qed.

Lemma findall_digits s i :
  i ∈ findall unfixed_link_re s ->
  i ≠ [] ∧ Forall (fun c => py_isdecimal c = true) i.
Proof.
  unfold findall. intros (m & -> & Hin)%list_elem_of_fmap.
  apply bare_match_shape in Hin as (www & path & tail & _ & _ & _ & _ & ? & ?).
  done.
Qed.

(** The ids [fix_item_links] collects are distinct, and each is a
    non-empty run of decimal digits. *)
Lemma item_ids_distinct s :
  NoDup (item_ids s)
  ∧ ∀ i, i ∈ item_ids s -> i ≠ [] ∧ Forall (fun c => py_isdecimal c = true) i.
Proof.
  split; [apply fromkeys_acc_NoDup|].
  intros i. unfold item_ids. rewrite elem_of_fromkeys. apply findall_digits.
Qed.

(** X1. The requests of one enrichment. The token is asked for at most
    once and no id is looked up twice; every lookup is for an id found in
    the text, a non-empty run of decimal digits, and carries the token the
    token service gave. *)
Theorem fix_item_links_requests h message :
  NoDup (calls (fix_item_links h message))
  ∧ ∀ i t, GetItem i t ∈ calls (fix_item_links h message) ->
      _get_blizzard_token h = inr t
      ∧ i ∈ item_ids (content message)
      ∧ i ≠ [] ∧ Forall (fun c => py_isdecimal c = true) i.
Proof.
  destruct (item_ids_distinct (content message)) as [Hnd Hd].
  unfold fix_item_links.
  destruct (item_ids (content message)) as [|i0 ids] eqn:E.
  { split; [constructor|]. intros i t Hin. by apply elem_of_nil in Hin. }
  destruct (_get_blizzard_token h) as [e|token] eqn:Et; cbn [calls].
  { split; [apply NoDup_singleton|].
    intros i t Hin. apply list_elem_of_singleton in Hin. done. }
  split.
  - constructor.
    + intros (i & Hi & _)%list_elem_of_fmap. done.
    + apply NoDup_fmap_2; [|done]. intros a b Hab. by injection Hab.
  - intros i t [Hin|Hin]%elem_of_cons; [done|].
    apply list_elem_of_fmap in Hin as (j & Hj & Hin). injection Hj as -> ->.
    split; [done|]. split; [done|]. by apply Hd.
Qed.

Lemma get_item_name_answers (h : Http) (token i name : text) :
  get_item_name h i token = Some name <-> answers_name h token i name.
Proof.
  unfold get_item_name, answers_name, raise_for_status, json_get.
  destruct (get_item h i token) as [e|r]; simpl.
  { split; [done|]. intros (r & o & Hr & _). discriminate Hr. }
  case_bool_decide as Hs; simpl.
  { split; [done|]. intros (r' & o & Hr & Hn & _). injection Hr as <-. done. }
  destruct (json r) as [o|] eqn:Ej; simpl.
  2:{ split; [done|]. intros (r' & o & Hr & _ & Hj & _). injection Hr as <-.
      congruence. }
  destruct (assoc (txt "name") o) as [v|] eqn:Ea; simpl.
  - split.
    + intros [= <-]. by exists r, o.
    + intros (r' & o' & Hr & _ & Hj & Hv). injection Hr as <-. congruence.
  - split; [done|]. intros (r' & o' & Hr & _ & Hj & Hv). injection Hr as <-.
    congruence.
Qed.

Lemma fetch_names_lookup_from (h : Http) (token : text) (ids : list text)
    (m : gmap text text) (i : text) :
  fetch_names h token ids m !! i
  = if bool_decide (i ∈ ids)
    then match stored_name h token i with
         | Some name => Some name
         | None => m !! i
         end
    else m !! i.
Proof.
  revert m. induction ids as [|j ids IH]; intros m; cbn [fetch_names].
  { by rewrite bool_decide_eq_false_2 by apply not_elem_of_nil. }
  rewrite IH. unfold stored_name.
  destruct (decide (i = j)) as [->|Hij].
  - rewrite (bool_decide_eq_true_2 (j ∈ j :: ids)) by left.
    destruct (get_item_name h j token) as [[|c name]|]; try by case_bool_decide.
    rewrite lookup_insert_eq. by case_bool_decide.
  - assert (Hm : (match get_item_name h j token with
                  | Some (c :: name) => <[j:=c :: name]> m
                  | _ => m
                  end) !! i = m !! i).
    { destruct (get_item_name h j token) as [[|c name]|]; try done.
      by rewrite lookup_insert_ne. }
    rewrite Hm.
    destruct (decide (i ∈ ids)) as [Hin|Hin].
    + rewrite (bool_decide_eq_true_2 (i ∈ ids)) by done.
      by rewrite (bool_decide_eq_true_2 (i ∈ j :: ids)) by (by right).
    + rewrite (bool_decide_eq_false_2 (i ∈ ids)) by done.
      rewrite (bool_decide_eq_false_2 (i ∈ j :: ids)); [done|].
      rewrite elem_of_cons. tauto.
Qed.

Lemma fetch_names_lookup (h : Http) (token : text) (l : list text) (i name : text) :
  fetch_names h token l ∅ !! i = Some name
  <-> i ∈ l ∧ answers_name h token i name ∧ name ≠ [].
Proof.
  rewrite fetch_names_lookup_from, <- get_item_name_answers.
  unfold stored_name. case_bool_decide as Hin.
  - destruct (get_item_name h i token) as [[|c n]|]; rewrite ?lookup_empty.
    + split; [done|]. intros (_ & [= <-] & ?). done.
    + split; [by intros [= <-]|]. by intros (_ & [= <-] & _).
    + split; [done|]. by intros (_ & ? & _).
  - rewrite lookup_empty. split; [done|]. tauto.
Qed.

(** X2. The table of names. It holds a name for an id exactly when the id
    was looked up and the catalogue answered with a status outside 4xx
    and 5xx and a JSON object whose name is not empty; it is this name.
    So the table is the same in whatever order the lookups complete. *)
Theorem fetch_names_table (h : Http) (token : text) (ids : list text) :
  (∀ i name : text,
     fetch_names h token ids ∅ !! i = Some name
     <-> i ∈ ids ∧ answers_name h token i name ∧ name ≠ [])
  ∧ (∀ ids', ids ≡ₚ ids' -> fetch_names h token ids' ∅ = fetch_names h token ids ∅).
Proof.
  split; [apply fetch_names_lookup|].
  intros ids' Hp. apply map_eq. intros i. apply option_eq. intros name.
  rewrite !fetch_names_lookup. by rewrite Hp.
Qed.

(** ** More of the commands *)

Lemma for_each_attr_send u (f : Message -> text) l w :
  for_each l (fun m => attr_send (Some u) (f m)) w
  = (inr (), with_chan w (chan w) ((fun m => DirectMessage (user_id u) (f m)) <$> l)).
Proof.
  revert w. induction l as [|m l IH]; intros w.
  - simpl. by rewrite with_chan_id.
  - cbn [for_each]. erewrite bind_inr; [|reflexivity]. rewrite IH.
    unfold with_chan. cbn [chan next_id trace files documents fmap list_fmap].
    by rewrite <- app_assoc.
Qed.


(** An id [int()] rejects ends the command with that error before
    anything is sent. *)
Lemma dump_messages_bad_id id e w :
  py_int id = inl e -> dump_messages id w = (inl e, w).
Proof.
  intros He. unfold dump_messages.
  erewrite bind_inl; [done|]. unfold lift. by rewrite He.
Qed.

Lemma foldl_toc_line d l :
  foldl toc_line d l = d ++ flat_map toc_entry l.
Proof.
  revert d. induction l as [|m l IH]; intros d; simpl; [by rewrite app_nil_r|].
  rewrite IH. unfold toc_line, toc_entry.
  destruct (reTitleGroup (content m)); [|done].
  by rewrite <- !app_assoc.
Qed.


Lemma republish_run w :
  wf w ->
  ∃ news evs,
    republish w
    = (inr (), {| chan := news; next_id := next_id w + Z.of_nat (length (chan w));
                  trace := trace w ++ evs; files := files w;
                  documents := documents w |})
    ∧ length news = length (chan w)
    ∧ ∀ i m, chan w !! i = Some m ->
        ∃ r, news !! i = Some r
          ∧ replaces (drop i (chan w) ++ take i news) (next_id w + Z.of_nat i) m r.
Proof.
  intros [Hnd Hlt].
  set (w0 := {| chan := chan w; next_id := next_id w;
                trace := trace w ++ [Responded (txt "Starting the process") true];
                files := files w; documents := documents w |}).
  destruct (republish_loop (chan w) [] w0) as (news & evs & Eloop & Hlen & Hidx & _).
  { cbn [chan]. by rewrite app_nil_r. }
  { done. }
  { done. }
  exists news, (Responded (txt "Starting the process") true :: evs). split_and!.
  - unfold republish.
    erewrite bind_inr; [|reflexivity].
    erewrite bind_inr; [|reflexivity].
    etransitivity; [exact Eloop|].
    unfold w0. cbn [chan next_id trace files documents app].
    by rewrite <- app_assoc.
  - done.
  - intros i m Hl. destruct (Hidx i m Hl) as (r & ? & ?). by exists r.
Qed.

Lemma replaces_bot l id m r : replaces l id m r -> is_bot r.
Proof. by destruct 1. Qed.

Lemma replaces_text l id m r :
  replaces l id m r -> content m ≠ [] ->
  attachments r = attachments m ∧ embeds r = embeds m.
Proof. by destruct 1. Qed.



(** ** More of export and import *)

Lemma save_messages_exported filename w :
  save_messages filename w = (inr (), exported w (export_name filename)).
Proof. destruct filename; apply (save_messages_run _ w). Qed.

Lemma store_all_other filename l fs p :
  p ≠ image_path filename -> store_all filename l fs !! p = fs !! p.
Proof.
  intros Hp. unfold store_all. revert fs. induction l as [|a l IH]; intros fs; [done|].
  simpl. rewrite IH. by rewrite lookup_insert_ne.
Qed.

Lemma store_all_last filename l fs :
  store_all filename l fs !! image_path filename
  = match last l with
    | Some a => Some (att_bytes a)
    | None => fs !! image_path filename
    end.
Proof.
  unfold store_all. revert fs. induction l as [|a l IH]; intros fs; [done|].
  cbn [foldl]. rewrite IH. destruct l as [|b l].
  - cbn [last]. by rewrite lookup_insert_eq.
  - change (last (a :: b :: l)) with (last (b :: l)).
    destruct (last (b :: l)) eqn:E; [done|]. by apply last_None in E.
Qed.



Lemma open_files_stored images w :
  Forall (fun i => is_Some (files w !! (FILEPATH ++ txt "/" ++ i))) images ->
  ∃ fs, open_files images w = (inr fs, w)
    ∧ upload <$> fs = image_attachment (files w) <$> images.
Proof.
  induction 1 as [|i images [data Hd] _ (fs & E & Hfs)].
  - by exists [].
  - eexists. cbn [open_files]. split.
    + erewrite bind_inr; [|unfold open_file; by rewrite Hd].
      erewrite bind_inr; [|exact E]. reflexivity.
    + rewrite !fmap_cons, Hfs. f_equal.
      unfold upload, image_attachment. cbn [file_name file_bytes]. by rewrite Hd.
Qed.

Lemma open_files_missing images1 image images2 w :
  Forall (fun i => is_Some (files w !! (FILEPATH ++ txt "/" ++ i))) images1 ->
  files w !! (FILEPATH ++ txt "/" ++ image) = None ->
  open_files (images1 ++ image :: images2) w
  = (inl (FileNotFoundError (FILEPATH ++ txt "/" ++ image)), w).
Proof.
  intros Hall Hnone. induction Hall as [|i images [data Hd] _ IH].
  - cbn [app open_files]. erewrite bind_inl; [done|]. unfold open_file. by rewrite Hnone.
  - cbn [app open_files].
    erewrite bind_inr; [|unfold open_file; by rewrite Hd].
    by erewrite bind_inl; [|exact IH].
Qed.

Lemma open_files_world images w : (open_files images w).2 = w.
Proof.
  induction images as [|i images IH]; [done|]. cbn [open_files].
  unfold mbind, m_bind at 1. unfold open_file at 1.
  destruct (files w !! (FILEPATH ++ txt "/" ++ i)); [|done].
  unfold mbind, m_bind. destruct (open_files images w) as [[e|fs] w1]; simpl in *; by subst.
Qed.

Lemma publish_one_sent c images ds w :
  Forall (fun i => is_Some (files w !! (FILEPATH ++ txt "/" ++ i))) images ->
  publish_one (Rec c images ds) w
  = (inr (), {| chan := chan w ++ [published (files w) (next_id w) c images ds];
                next_id := next_id w + 1;
                trace := trace w ++ [Sent (published (files w) (next_id w) c images ds)];
                files := files w; documents := documents w |}).
Proof.
  intros Hall. destruct (open_files_stored images w Hall) as (fs & E & Hfs).
  cbn [publish_one]. erewrite bind_inr; [|exact E].
  erewrite bind_inr; [|apply channel_send_run].
  unfold published. by rewrite Hfs.
Qed.

Lemma publish_entries recs w :
  Forall (openable (files w)) recs ->
  for_each recs publish_one w
  = (inr (), {| chan := chan w ++ published_all (files w) (next_id w) recs;
                next_id := next_id w + Z.of_nat (length recs);
                trace := trace w ++ (Sent <$> published_all (files w) (next_id w) recs);
                files := files w; documents := documents w |}).
Proof.
  intros Hall. revert w Hall. induction recs as [|e recs IH]; intros w Hall.
  - simpl. destruct w; simpl. by rewrite !app_nil_r, Z.add_0_r.
  - apply Forall_cons in Hall as [He Hall]. destruct e as [|c images ds]; [done|].
    cbn [for_each]. erewrite bind_inr; [|by apply publish_one_sent].
    rewrite IH by done. cbn [chan next_id trace files documents published_all length].
    f_equal. f_equal.
    + by rewrite <- app_assoc.
    + lia.
    + rewrite fmap_cons. by rewrite <- app_assoc.
Qed.

Lemma published_all_length fs id recs :
  Forall (openable fs) recs -> length (published_all fs id recs) = length recs.
Proof.
  intros Hall. revert id. induction Hall as [|e recs He _ IH]; intros id; [done|].
  destruct e; [done|]. simpl. by rewrite IH.
Qed.

Lemma publish_start filename w doc :
  documents w !! document_path filename = Some doc ->
  publish filename w
  = for_each (drop 1 doc) publish_one
      (with_chan w (chan w) [Responded (txt "Starting") false]).
Proof.
  intros Hdoc. unfold publish.
  erewrite bind_inr; cycle 1.
  { unfold get_document.
    change (FILEPATH ++ txt "/" ++ filename ++ txt ".json") with (document_path filename).
    by rewrite Hdoc. }
  cbv beta iota. by erewrite bind_inr; [|reflexivity].
Qed.

(** X9. [publish] on a document whose images are all in the file store.
    The first entry is skipped; for every entry after it one record is
    sent, in order: its text passed through [emojify], one attachment per
    image reference with the bytes of the file it names, one embed per
    description, without title. Nothing else changes. *)
Theorem publish_sends_every_entry filename w first recs :
  documents w !! document_path filename = Some (first :: recs) ->
  Forall (openable (files w)) recs ->
  ∃ w',
    publish filename w = (inr (), w')
    ∧ chan w' = chan w ++ published_all (files w) (next_id w) recs
    ∧ length (chan w') = length (chan w) + length recs
    ∧ files w' = files w ∧ documents w' = documents w.
Proof.
  intros Hdoc Hall. rewrite (publish_start _ _ _ Hdoc). cbn [drop].
  rewrite publish_entries by done. eexists. split; [done|].
  cbn [chan next_id files documents with_chan]. split_and!; try done.
  by rewrite length_app, published_all_length.
Qed.

(** X10. [publish] is not all or nothing. When an image of an entry is not
    in the file store, the command ends with [FileNotFoundError] for that
    path; the records for the entries before it have been sent and stay
    in the channel, and nothing is sent for this entry or a later one. *)
Theorem publish_stops_at_missing_image filename w first recs1 c
    images1 image images2 ds recs2 :
  documents w !! document_path filename
  = Some (first :: recs1 ++ Rec c (images1 ++ image :: images2) ds :: recs2) ->
  Forall (openable (files w)) recs1 ->
  Forall (fun i => is_Some (files w !! (FILEPATH ++ txt "/" ++ i))) images1 ->
  files w !! (FILEPATH ++ txt "/" ++ image) = None ->
  ∃ w',
    publish filename w = (inl (FileNotFoundError (FILEPATH ++ txt "/" ++ image)), w')
    ∧ chan w' = chan w ++ published_all (files w) (next_id w) recs1
    ∧ length (chan w') = length (chan w) + length recs1.
Proof.
  intros Hdoc Hall Himgs Hnone. rewrite (publish_start _ _ _ Hdoc). cbn [drop].
  set (w0 := with_chan w (chan w) [Responded (txt "Starting") false]).
  assert (Hsplit : ∀ (l1 l2 : list entry) w1 w2 r,
            for_each l1 publish_one w1 = (inr (), w2) ->
            for_each l2 publish_one w2 = r ->
            for_each (l1 ++ l2) publish_one w1 = r).
  { induction l1 as [|e l1 IH]; intros l2 w1 w2 r E1 E2.
    - simpl in E1. injection E1 as ->. done.
    - cbn [for_each app] in *. unfold mbind, m_bind in *.
      destruct (publish_one e w1) as [[err|[]] w3]; [done|]. by eapply IH. }
  eexists. split.
  - eapply Hsplit; [by apply publish_entries|].
    cbn [for_each publish_one].
    erewrite bind_inl; [done|].
    erewrite bind_inl; [done|].
    by apply open_files_missing.
  - cbn [chan files next_id with_chan]. split; [done|].
    by rewrite length_app, published_all_length.
Qed.

Lemma publish_loop_appends recs w :
  ∃ news,
    (for_each recs publish_one w).2
    = {| chan := chan w ++ news; next_id := next_id w + Z.of_nat (length news);
         trace := trace w ++ (Sent <$> news);
         files := files w; documents := documents w |}
    ∧ Forall is_bot news.
Proof.
  revert w. induction recs as [|e recs IH]; intros w.
  - exists []. simpl. destruct w; simpl. by rewrite !app_nil_r, Z.add_0_r.
  - destruct e as [|c images ds].
    { exists []. simpl. destruct w; simpl. by rewrite !app_nil_r, Z.add_0_r. }
    cbn [for_each publish_one].
    pose proof (open_files_world images w) as Hw.
    destruct (open_files images w) as [[err|fs] w1] eqn:E; simpl in Hw; subst w1.
    + exists []. erewrite bind_inl; cycle 1.
      { erewrite bind_inl; [done|exact E]. }
      simpl. destruct w; simpl. by rewrite !app_nil_r, Z.add_0_r.
    + erewrite bind_inr; cycle 1.
      { erewrite bind_inr; [|exact E].
        erewrite bind_inr; [|apply channel_send_run]. reflexivity. }
      match goal with |- context [for_each recs publish_one ?w1] =>
        destruct (IH w1) as (news & Enews & Hbot); rewrite Enews end.
      cbn [chan next_id trace files documents].
      match goal with |- context [Sent ?m] => exists (m :: news) end. split.
      * rewrite fmap_cons, <- !app_assoc. cbn [length app]. f_equal. lia.
      * by constructor.
Qed.

(** X11. What [publish] never does. Whatever the document holds and
    however the command ends, the records that were in the channel stay
    as they are, in place; what is added are records of the bot at the
    end; no file and no document is written; the command does nothing but
    respond and send. When there is no document of that name, it only
    responds. *)
Theorem publish_only_appends filename w :
  ∃ news evs,
    (publish filename w).2
    = {| chan := chan w ++ news; next_id := next_id w + Z.of_nat (length news);
         trace := trace w ++ evs; files := files w; documents := documents w |}
    ∧ Forall is_bot news
    ∧ Forall is_send_or_response evs
    ∧ (documents w !! document_path filename = None ->
       publish filename w
       = (inr (), with_chan w (chan w)
                    [Responded (txt "Bad filename: " ++ filename) true])).
Proof.
  destruct (documents w !! document_path filename) as [doc|] eqn:Hdoc.
  - rewrite (publish_start _ _ _ Hdoc).
    destruct (publish_loop_appends (drop 1 doc)
                (with_chan w (chan w) [Responded (txt "Starting") false]))
      as (news & E & Hbot).
    exists news, (Responded (txt "Starting") false :: (Sent <$> news)).
    rewrite E. cbn [chan next_id trace files documents with_chan].
    split_and!; [by rewrite <- app_assoc|done| |done].
    constructor; [done|]. apply Forall_fmap. by apply Forall_true.
  - assert (E : publish filename w
                = (inr (), with_chan w (chan w)
                             [Responded (txt "Bad filename: " ++ filename) true])).
    { unfold publish. erewrite bind_inr; cycle 1.
      { unfold get_document.
        change (FILEPATH ++ txt "/" ++ filename ++ txt ".json")
          with (document_path filename). by rewrite Hdoc. }
      done. }
    exists [], [Responded (txt "Bad filename: " ++ filename) true].
    rewrite E. cbn [snd with_chan length]. split_and!; try done.
    + by rewrite app_nil_r, Z.add_0_r.
    + by repeat constructor.
Qed.

Lemma basename_acc_plain acc q : 47%N ∉ q -> basename_acc acc q = acc ++ q.
Proof.
  revert acc. induction q as [|c q IH]; intros acc Hq; simpl; [by rewrite app_nil_r|].
  apply not_elem_of_cons in Hq as [Hc Hq].
  destruct (N.eqb_spec c 47) as [->|_]; [done|].
  rewrite IH by done. by rewrite <- app_assoc.
Qed.

Lemma basename_acc_slash acc p q :
  basename_acc acc (p ++ 47%N :: q) = basename_acc [] q.
Proof.
  revert acc. induction p as [|c p IH]; intros acc; simpl; [done|].
  destruct (N.eqb c 47); apply IH.
Qed.

Lemma basename_image_path filename :
  basename (FILEPATH ++ txt "/" ++ image_ref filename) = txt "0.png".
Proof.
  unfold basename, image_ref.
  assert (E : FILEPATH ++ txt "/" ++ filename ++ txt "/" ++ str_nat 0 ++ txt ".png"
              = (FILEPATH ++ txt "/" ++ filename) ++ 47%N :: txt "0.png").
  { rewrite <- !app_assoc. reflexivity. }
  rewrite E, basename_acc_slash, basename_acc_plain; [done|].
  apply (bool_decide_unpack _). vm_compute. exact I.
Qed.

Lemma round_trip_chan w filename :
  chan (round_trip w filename)
  = imported (store_all filename (concat (attachments <$> chan w)) (files w))
             filename (chan w) (next_id w).
Proof.
  unfold round_trip. rewrite save_messages_run. cbn [snd].
  assert (Hdoc : documents (empty_channel (exported w filename)) !! document_path filename
                 = Some (Header channel_name channel_id
                           :: (export_entry filename <$> chan w))).
  { unfold exported. cbn [documents empty_channel]. apply lookup_insert_eq. }
  rewrite (publish_start _ _ _ Hdoc). cbn [drop]. rewrite drop_0.
  rewrite publish_loop.
  - reflexivity.
  - intros m Hin Hne. cbn [files with_chan empty_channel exported].
    apply store_all_lookup. by eapply concat_attachments_nonempty.
Qed.

Lemma imported_Forall (P : Message -> Prop) fs filename hist id :
  (∀ i m, m ∈ hist -> P (imported_record fs filename i m)) ->
  Forall P (imported fs filename hist id).
Proof.
  revert id. induction hist as [|m hist IH]; intros id HP; [constructor|].
  cbn [imported]. constructor; [apply HP; left|].
  apply IH. intros i m' Hin. apply HP. by right.
Qed.


(** X13. The embeds after export and import. Every imported record is a
    record of the bot whose embeds have neither title nor colour; so a
    table of contents comes back as a record [republish] no longer takes
    for one. *)
Theorem round_trip_embeds w filename :
  Forall (fun m =>
    is_bot m
    ∧ Forall (fun e => embed_title e = None ∧ embed_colour e = None) (embeds m)
    ∧ qualifies m = false)
    (chan (round_trip w filename)).
Proof.
  rewrite round_trip_chan. apply imported_Forall. intros i m Hin.
  unfold qualifies, imported_record. cbn [embeds]. split; [done|]. split.
  - apply Forall_fmap, Forall_true. done.
  - destruct (embeds m) as [|e es]; [reflexivity|].
    rewrite !fmap_cons. unfold has_toc_title, description_only. cbn [embed_title].
    by apply bool_decide_eq_false_2.
Qed.

(** * The requests of the enrichment *)

Lemma starts_with_stop l x c rest :
  c ∉ l -> starts_with l (x ++ c :: rest) = starts_with l x.
Proof.
  revert x. induction l as [|a l IH]; intros x Hc; [by destruct x|].
  apply not_elem_of_cons in Hc as [Hac Hc].
  destruct x as [|b x]; cbn [app starts_with].
  - destruct (N.eqb_spec a c); [congruence|done].
  - by rewrite IH.
Qed.

Lemma run_stop cs x c rest :
  cset_mem cs c = false -> run cs (x ++ c :: rest) = run cs x.
Proof.
  intros Hc. induction x as [|b x IH]; cbn [app run]; [by rewrite Hc|].
  by rewrite IH.
Qed.

(** A character that no node of the pattern takes ends every match
    before it: what follows it does not matter. *)
Lemma match_at_stop r x c rest pos :
  Forall (rejects c) r -> match_at r (x ++ c :: rest) pos = match_at r x pos.
Proof.
  intros Hr. revert x pos. induction Hr as [|n r Hn Hr IH]; intros x pos; [done|].
  assert (Hlit : ∀ l, c ∉ l ->
    (if starts_with l (x ++ c :: rest)
     then match_at r (drop (length l) (x ++ c :: rest)) (pos + length l) else None)
    = (if starts_with l x then match_at r (drop (length l) x) (pos + length l) else None)).
  { intros l Hl. rewrite starts_with_stop by done.
    destruct (starts_with l x) eqn:E; [|done].
    apply starts_with_length in E. by rewrite drop_app_le, IH. }
  destruct n as [l|l|lo g cs|]; cbn [match_at rejects] in *.
  - by apply Hlit.
  - by rewrite Hlit, IH.
  - rewrite run_stop by done. apply first_some_ext.
    intros k Hk%elem_of_counts. pose proof (run_le cs x).
    rewrite drop_app_le by lia. apply IH.
  - by rewrite IH.
Qed.

Lemma match_at_marks r s pos e ms :
  match_at r s pos = Some (e, ms) -> Forall (fun k => pos ≤ k ≤ e) ms.
Proof.
  revert s pos e ms. induction r as [|n r IH]; intros s pos e ms E.
  - simpl in E. injection E as <- <-. constructor.
  - destruct n as [l|l|lo g cs|]; cbn [match_at] in E.
    + destruct (starts_with l s); [|done]. apply IH in E.
      eapply Forall_impl; [exact E|]. simpl. intros; lia.
    + destruct (starts_with l s).
      * destruct (match_at r (drop (length l) s) (pos + length l)) as [x|] eqn:E1.
        -- injection E as ->. apply IH in E1.
           eapply Forall_impl; [exact E1|]. simpl. intros; lia.
        -- by apply IH in E.
      * by apply IH in E.
    + revert E. generalize (counts lo (run cs s) g). intros l.
      induction l as [|k l IHl]; simpl; [done|].
      destruct (match_at r (drop k s) (pos + k)) as [x|] eqn:E1; [|done].
      intros [= ->]. apply IH in E1.
      eapply Forall_impl; [exact E1|]. simpl. intros; lia.
    + destruct (match_at r s pos) as [[e' ms']|] eqn:E1; [|done].
      injection E as <- <-. pose proof (match_at_bounds _ _ _ _ _ E1).
      apply IH in E1. constructor; [lia|done].
Qed.

Lemma scan_shift r T p q k :
  scan r T (p + q) k = shift_match p <$> scan r T q k.
Proof.
  revert q k. induction T as [|c T IH]; intros q k.
  - destruct k; [|done]. cbn [scan].
    rewrite (match_at_shift r [] (p + q)), (match_at_shift r [] q).
    destruct (match_at r [] 0) as [[e ms]|]; [|done].
    cbn. unfold shift_match. cbn. f_equal. f_equal; [lia|].
    rewrite <- list_fmap_compose. apply list_fmap_ext. intros; simpl; lia.
  - destruct k as [|k]; cbn [scan].
    + rewrite (match_at_shift r (c :: T) (p + q)), (match_at_shift r (c :: T) q).
      destruct (match_at r (c :: T) 0) as [[e ms]|]; cbn.
      * f_equal.
        -- unfold shift_match. cbn. f_equal; [lia|].
           rewrite <- list_fmap_compose. apply list_fmap_ext. intros; simpl; lia.
        -- replace (p + q + e - (p + q) - 1) with (q + e - q - 1) by lia.
           rewrite <- Nat.add_succ_r. apply (IH (S q)).
      * rewrite <- Nat.add_succ_r. apply (IH (S q)).
    + rewrite <- Nat.add_succ_r. apply (IH (S q)).
Qed.

Lemma group1_shift s p m : group1 s (shift_match p m) = group1 (drop p s) m.
Proof.
  unfold group1, shift_match. cbn [m_marks].
  destruct (m_marks m) as [|a [|b l]]; [done|done|].
  rewrite !fmap_cons. unfold slice. rewrite drop_drop. f_equal. lia.
Qed.

Lemma findall_from r s p :
  group1 s <$> scan r (drop p s) p 0 = findall r (drop p s).
Proof.
  unfold findall, finditer.
  replace p with (p + 0) at 2 by lia. rewrite scan_shift, <- list_fmap_compose.
  apply list_fmap_ext. intros i m _. apply group1_shift.
Qed.

Lemma match_at_nil r : never_empty r -> match_at r [] 0 = None.
Proof.
  intros Hne. destruct (match_at r [] 0) as [[e ms]|] eqn:E; [|done].
  pose proof (Hne _ _ _ E). apply match_at_bounds in E. simpl in E. lia.
Qed.

Lemma findall_dead r T : dead_all r T -> findall r T = [].
Proof. intros Hd. unfold findall, finditer. by rewrite scan_dead. Qed.

(** The first match of a text and the matches after it. *)
Lemma findall_first r T j e ms :
  never_empty r ->
  (∀ j', j' < j -> match_at r (drop j' T) 0 = None) ->
  match_at r (drop j T) 0 = Some (e, ms) ->
  findall r T
  = group1 (drop j T) {| m_start := 0; m_end := e; m_marks := ms |}
      :: findall r (drop (j + e) T).
Proof.
  intros Hne Hnone Hm.
  destruct (scan_first r T 0 Hne) as [[_ Hd]|(j1 & e1 & ms1 & Hle & He & Hd & Hm1 & Hs)].
  - destruct (decide (j ≤ length T)) as [Hj|Hj].
    + rewrite (Hd j Hj) in Hm. done.
    + rewrite drop_ge, match_at_nil in Hm by (done || lia). done.
  - assert (j1 = j) as ->.
    { destruct (lt_eq_lt_dec j1 j) as [[Hlt|Heq]|Hgt]; [|done|].
      - rewrite (Hnone _ Hlt) in Hm1. done.
      - rewrite (Hd _ Hgt) in Hm. done. }
    rewrite Hm in Hm1. injection Hm1 as <- <-.
    unfold findall at 1. unfold finditer. rewrite Hs, fmap_cons.
    f_equal.
    + rewrite <- group1_shift. f_equal.
    + apply findall_from.
Qed.

Lemma findall_skip r T n :
  never_empty r -> n ≤ length T ->
  (∀ j', j' < n -> match_at r (drop j' T) 0 = None) ->
  findall r T = findall r (drop n T).
Proof.
  intros Hne Hn Hnone.
  destruct (scan_first r (drop n T) 0 Hne)
    as [[_ Hd]|(j & e & ms & Hle & He & Hd & Hm & _)].
  - rewrite (findall_dead _ _ Hd). apply findall_dead.
    intros j Hj. destruct (decide (j < n)) as [Hlt|Hge]; [by apply Hnone|].
    replace j with (n + (j - n)) by lia. rewrite <- drop_drop. apply Hd.
    rewrite length_drop. lia.
  - rewrite (findall_first r (drop n T) j e ms Hne Hd Hm).
    rewrite (findall_first r T (n + j) e ms Hne).
    + by rewrite !drop_drop, <- Nat.add_assoc.
    + intros j' Hj'. destruct (decide (j' < n)) as [Hlt|Hge]; [by apply Hnone|].
      replace j' with (n + (j' - n)) by lia. rewrite <- drop_drop. apply Hd. lia.
    + by rewrite <- drop_drop.
Qed.

Lemma slice_app_l (x y : text) a b : a ≤ b ≤ length x -> slice (x ++ y) a b = slice x a b.
Proof.
  intros Hab. unfold slice. rewrite drop_app_le by lia.
  rewrite take_app_le; [done|]. rewrite length_drop. lia.
Qed.

(** A character that no node takes separates the matches before it from
    the matches after it. *)
Lemma findall_sep r c g rest :
  never_empty r -> Forall (rejects c) r ->
  findall r (g ++ c :: rest) = findall r g ++ findall r rest.
Proof.
  intros Hne Hr. remember (length g) as n eqn:En. revert g En.
  induction n as [n IH] using lt_wf_ind. intros g ->.
  assert (Hstop : ∀ j, j ≤ length g ->
    match_at r (drop j (g ++ c :: rest)) 0 = match_at r (drop j g) 0).
  { intros j Hj. by rewrite drop_app_le, match_at_stop. }
  destruct (scan_first r g 0 Hne)
    as [[_ Hd]|(j & e & ms & Hle & He & Hd & Hm & _)].
  - rewrite (findall_dead _ _ Hd). cbn [app].
    rewrite (findall_skip r (g ++ c :: rest) (S (length g)) Hne).
    + replace (S (length g)) with (length g + 1) by lia.
      by rewrite <- drop_drop, drop_app_length.
    + rewrite length_app. simpl. lia.
    + intros j' Hj'. rewrite Hstop by lia. apply Hd. lia.
  - rewrite (findall_first r g j e ms Hne Hd Hm).
    rewrite (findall_first r (g ++ c :: rest) j e ms Hne).
    + cbn [app]. f_equal.
      * rewrite drop_app_le by lia. unfold group1. cbn [m_marks].
        destruct ms as [|a [|b ms]]; [done|done|].
        pose proof (match_at_bounds _ _ _ _ _ Hm) as Hb.
        apply match_at_marks in Hm.
        apply Forall_cons in Hm as [Ha Hm]. apply Forall_cons in Hm as [Hb' _].
        destruct (decide (a ≤ b)) as [Hab|Hab].
        -- apply slice_app_l. simpl in Hb. lia.
        -- unfold slice. by replace (b - a) with 0 by lia.
      * rewrite drop_app_le by lia.
        apply (IH (length (drop (j + e) g))); [|done]. rewrite length_drop. lia.
    + intros j' Hj'. rewrite Hstop by lia. by apply Hd.
    + rewrite Hstop by lia. done.
Qed.

Lemma findall_nil r : never_empty r -> findall r [] = [].
Proof.
  intros Hne. apply findall_dead. intros j _. rewrite drop_nil. by apply match_at_nil.
Qed.

Lemma findall_blank r c g n rest :
  never_empty r -> Forall (rejects c) r -> 0 < n ->
  findall r (g ++ replicate n c ++ rest) = findall r g ++ findall r rest.
Proof.
  intros Hne Hr Hn. destruct n as [|n]; [lia|]. cbn [replicate app].
  rewrite findall_sep by done. f_equal.
  clear Hn. induction n as [|n IH]; [done|]. cbn [replicate app].
  change (findall r (c :: replicate n c ++ rest))
    with (findall r ([] ++ c :: replicate n c ++ rest)).
  rewrite (findall_sep r c [] _ Hne Hr). by rewrite findall_nil.
Qed.

Lemma bare_ids_app l1 l2 : bare_ids (l1 ++ l2) = bare_ids l1 ++ bare_ids l2.
Proof. apply flat_map_app. Qed.

Lemma bare_ids_cut g ms pos :
  bare_ids (cut g ms pos (fun m => Bare (group0 g m) (group1 g m)) (fun t => [Plain t]))
  = group1 g <$> ms.
Proof.
  revert pos. induction ms as [|m ms IH]; intros pos; [done|].
  cbn [cut]. rewrite bare_ids_app. cbn. by rewrite IH.
Qed.

Lemma bare_ids_bare_spans g : bare_ids (bare_spans g) = findall unfixed_link_re g.
Proof. apply bare_ids_cut. Qed.

Lemma elem_of_bare_ids i l : i ∈ bare_ids l <-> ∃ u, Bare u i ∈ l.
Proof.
  unfold bare_ids. rewrite list_elem_of_In, in_flat_map. split.
  - intros (p & Hp & Hi). apply list_elem_of_In in Hp.
    destruct p as [|u j|]; simpl in Hi; try done.
    destruct Hi as [<-|[]]. by exists u.
  - intros (u & Hu). exists (Bare u i). rewrite <- list_elem_of_In. split; [done|by left].
Qed.

Lemma group0_nonempty r s m :
  never_empty r -> m ∈ finditer r s -> 0 < length (group0 s m).
Proof.
  intros Hne Hm. apply scan_match_at in Hm as [_ Hm].
  rewrite Nat.sub_0_r, match_at_shift in Hm.
  destruct (match_at r (drop (m_start m) s) 0) as [[e ms]|] eqn:E; [|done].
  injection Hm as He _. pose proof (Hne _ _ _ E).
  apply match_at_bounds in E. rewrite length_drop in E. simpl in *.
  unfold group0, slice. rewrite length_take, length_drop. lia.
Qed.

Section Blanks.
Hypothesis space_isspace : py_isspace 32 = true.
Hypothesis space_isdecimal : py_isdecimal 32 = false.

Lemma unfixed_rejects_space : Forall (rejects 32%N) unfixed_link_re.
Proof.
  unfold unfixed_link_re. repeat constructor; cbn [rejects cset_mem existsb citem_mem];
    try (by rewrite ?space_isspace, ?space_isdecimal);
    by apply (bool_decide_unpack _); vm_compute.
Qed.

Lemma findall_blanked_loop s ms pos :
  (∀ m, m ∈ ms -> 0 < length (group0 s m)) ->
  findall unfixed_link_re (sub_loop s blank ms pos)
  = bare_ids (cut s ms pos (fun m => Resolved (group0 s m)) bare_spans).
Proof.
  revert pos. induction ms as [|m ms IH]; intros pos Hpos.
  - cbn [sub_loop cut]. by rewrite bare_ids_bare_spans.
  - cbn [sub_loop cut]. unfold blank at 1.
    rewrite findall_blank;
      [|apply unfixed_never_empty|apply unfixed_rejects_space|apply Hpos; left].
    rewrite bare_ids_app, bare_ids_bare_spans. f_equal.
    rewrite IH by (intros; apply Hpos; by right). done.
Qed.

(** The ids found in the blanked text are the ids of the bare links of
    the partition, in order. *)
Lemma findall_blanked s :
  findall unfixed_link_re (blanked s) = bare_ids (link_spans s).
Proof.
  unfold blanked, re_sub, link_spans. apply findall_blanked_loop.
  intros m Hm. eapply group0_nonempty; [apply fixed_never_empty|done].
Qed.

Lemma fix_item_links_looks_up_ids (message : Message) :
  item_ids (content message) = fromkeys (bare_ids (link_spans (content message))).
Proof. unfold item_ids. by rewrite findall_blanked. Qed.

(** X22. The ids [fix_item_links] looks up are those of the bare links of
    the text, outside the links already in display form: the ids of the
    partition the rewrite follows, each once, in the order of their first
    occurrence. A request for an id is made exactly when the token was
    granted and some bare link carries the id; no id of a display link is
    looked up for it. *)
Theorem fix_item_links_looks_up_bare_links h message :
  item_ids (content message) = fromkeys (bare_ids (link_spans (content message)))
  ∧ ∀ i t, GetItem i t ∈ calls (fix_item_links h message)
      <-> _get_blizzard_token h = inr t
          ∧ ∃ u, Bare u i ∈ link_spans (content message).
Proof.
  pose proof (fix_item_links_looks_up_ids message) as Hids.
  split; [done|]. intros i t.
  rewrite <- elem_of_bare_ids, <- (elem_of_fromkeys _ i), <- Hids.
  unfold fix_item_links.
  destruct (item_ids (content message)) as [|i0 ids] eqn:E.
  { cbn [calls]. split; [by intros ?%elem_of_nil|]. by intros [_ ?%elem_of_nil]. }
  destruct (_get_blizzard_token h) as [e|token] eqn:Et; cbn [calls].
  { split; [intros Hin; apply list_elem_of_singleton in Hin; done|]. by intros [? _]. }
  split.
  - intros [Hin|Hin]%elem_of_cons; [done|].
    apply list_elem_of_fmap in Hin as (j & Hj & Hin). by injection Hj as -> ->.
  - intros [[= ->] Hin]. right. apply list_elem_of_fmap. by exists i.
Qed.

Section Again.
Hypothesis lf_isspace : py_isspace 10 = true.
Hypothesis lf_isdecimal : py_isdecimal 10 = false.
Hypothesis paren_isdecimal : py_isdecimal 41 = false.

Lemma bare_ids_kept l : Forall kept l -> bare_ids l = [].
Proof.
  induction 1 as [|p l Hp _ IH]; [done|].
  unfold bare_ids in *. cbn [flat_map]. rewrite IH.
  destruct p as [|u i|]; try done. by destruct (Hp u i).
Qed.

(** X23. When the token is granted and the catalogue gives every id that
    is looked up a name that is not empty and holds neither a closing
    parenthesis nor a line feed, the text after the enrichment has no
    bare link left: enriching it again asks for no token, looks up
    nothing and returns it as it is. *)
Theorem second_enrichment_asks_nothing h message token :
  _get_blizzard_token h = inr token ->
  (∀ i, i ∈ item_ids (content message) ->
     ∃ name, answers_name h token i name ∧ plain_name name) ->
  fix_item_links h (message_after (fix_item_links h message))
  = {| outcome := inr ();
       message_after := message_after (fix_item_links h message);
       calls := [] |}.
Proof.
  intros Et Hall.
  pose proof (fix_item_links_looks_up_ids message) as Hids.
  assert (Hres : resolves (fetch_names h token (item_ids (content message)) ∅)
                          (link_spans (content message))).
  { intros u i Hin.
    assert (Hi : i ∈ item_ids (content message)).
    { rewrite Hids, elem_of_fromkeys, elem_of_bare_ids. by exists u. }
    destruct (Hall i Hi) as (name & Ha & Hp). exists name. split; [|done].
    apply fetch_names_lookup. split_and!; [done|done|apply Hp]. }
  unfold fix_item_links at 2 3.
  destruct (item_ids (content message)) as [|i0 ids] eqn:E.
  { cbn [message_after]. unfold fix_item_links. by rewrite E. }
  rewrite Et. cbn [message_after].
  set (idn := fetch_names h token (i0 :: ids) ∅) in *.
  assert (Hnone : item_ids (replace_unfixed idn (content message)) = []).
  { unfold item_ids. rewrite findall_blanked.
    rewrite bare_ids_kept; [done|].
    eapply (second_pass_spans lf_isspace lf_isdecimal paren_isdecimal idn).
    by apply first_pass_paired. }
  unfold fix_item_links. cbn [content with_content]. by rewrite Hnone.
Qed.

End Again.

End Blanks.

(** * The commands that edit a record *)

Section Editing.
Context `{Casing}.

(** ** Text functions *)

Lemma contains_cons sub c s :
  contains sub (c :: s) = starts_with sub (c :: s) || contains sub s.
Proof. done. Qed.

Lemma contains_app_r sub p q : contains sub q = true -> contains sub (p ++ q) = true.
Proof.
  intros Hq. induction p as [|c p IH]; [done|].
  cbn [app]. rewrite contains_cons, IH. apply orb_true_r.
Qed.

Lemma contains_prefix sub q : contains sub (sub ++ q) = true.
Proof.
  destruct (sub ++ q) eqn:E; simpl.
  - destruct sub; [done|]. done.
  - rewrite <- E. by rewrite starts_with_prefix.
Qed.

Lemma contains_false_cons sub c s :
  contains sub (c :: s) = false ->
  starts_with sub (c :: s) = false ∧ contains sub s = false.
Proof. rewrite contains_cons. apply orb_false_elim. Qed.

Lemma split_loop_skip sep s k part :
  k ≤ length s -> split_loop sep s k part = split_loop sep (drop k s) 0 part.
Proof.
  revert s. induction k as [|k IH]; intros s Hk; [by rewrite drop_0|].
  destruct s as [|c s]; simpl in *; [lia|]. apply IH. lia.
Qed.

Lemma split_loop_none sep s part :
  contains sep s = false -> split_loop sep s 0 part = [part ++ s].
Proof.
  revert part. induction s as [|c s IH]; intros part Hc.
  - simpl. by rewrite app_nil_r.
  - apply contains_false_cons in Hc as [Hs Hc].
    cbn [split_loop]. rewrite Hs, IH by done. by rewrite <- app_assoc.
Qed.

(** The scan splits at the leftmost separator. *)
Lemma split_loop_first sep a b part :
  sep ≠ [] ->
  (∀ k, k < length a -> starts_with sep (drop k (a ++ sep ++ b)) = false) ->
  split_loop sep (a ++ sep ++ b) 0 part = (part ++ a) :: split_loop sep b 0 [].
Proof.
  intros Hsep. revert part. induction a as [|c a IH]; intros part Hno.
  - cbn [app]. destruct sep as [|c sep]; [done|].
    pose proof (starts_with_prefix (c :: sep) b) as Hs.
    cbn [split_loop app] in Hs |- *. rewrite Hs.
    rewrite app_nil_r. f_equal.
    replace (length (c :: sep) - 1) with (length sep) by (simpl; lia).
    rewrite split_loop_skip by (rewrite length_app; lia).
    by rewrite drop_app_length.
  - pose proof (Hno 0 ltac:(simpl; lia)) as H0'.
    cbn [app split_loop drop] in H0' |- *. rewrite H0'.
    rewrite IH.
    + by rewrite <- app_assoc.
    + intros k Hk. apply (Hno (S k)). simpl. lia.
Qed.

Lemma contains_occurrence sub s :
  contains sub s = true <-> ∃ a b, s = a ++ sub ++ b.
Proof.
  split.
  - induction s as [|c s IH].
    + simpl. rewrite orb_false_r. intros Hs. apply starts_with_app in Hs.
      exists [], (drop (length sub) []). done.
    + rewrite contains_cons. intros [Hs|Hc]%orb_prop.
      * apply starts_with_app in Hs. exists [], (drop (length sub) (c :: s)). done.
      * destruct (IH Hc) as (a & b & ->). by exists (c :: a), b.
  - intros (a & b & ->). apply contains_app_r, contains_prefix.
Qed.

(** The leftmost occurrence of a separator. *)
Lemma leftmost_occurrence sep s :
  contains sep s = true ->
  ∃ a b, s = a ++ sep ++ b
    ∧ (∀ k, k < length a -> starts_with sep (drop k s) = false)
    ∧ ∀ a' b', s = a' ++ sep ++ b' -> length a ≤ length a'.
Proof.
  induction s as [|c s IH]; intros Hc.
  - simpl in Hc. rewrite orb_false_r in Hc. apply starts_with_app in Hc.
    exists [], (drop (length sep) []). split_and!; [done|simpl; lia|simpl; lia].
  - destruct (starts_with sep (c :: s)) eqn:Hs.
    + apply starts_with_app in Hs. exists [], (drop (length sep) (c :: s)).
      split_and!; [done|simpl; lia|simpl; lia].
    + rewrite contains_cons, Hs in Hc. simpl in Hc.
      destruct (IH Hc) as (a & b & -> & Hno & Hmin).
      exists (c :: a), b. split_and!; [done| |].
      * intros [|k] Hk; [done|]. simpl. apply Hno. simpl in Hk. lia.
      * intros [|c' a'] b' E.
        -- simpl in E. rewrite E, starts_with_prefix in Hs. done.
        -- simpl in E. injection E as <- E. simpl. specialize (Hmin _ _ E). lia.
Qed.

Lemma split_loop_nonempty sep s k part : split_loop sep s k part ≠ [].
Proof.
  revert k part. induction s as [|c s IH]; intros k part; [done|].
  simpl. destruct k; [|apply IH]. destruct (starts_with sep (c :: s)); [done|apply IH].
Qed.

(** Two separators that do not overlap give at least three parts. *)
Lemma split_loop_two sep a b c :
  sep ≠ [] -> 3 ≤ length (split_loop sep (a ++ sep ++ b ++ sep ++ c) 0 []).
Proof.
  intros Hsep. set (s := a ++ sep ++ b ++ sep ++ c).
  assert (Hc : contains sep s = true).
  { apply contains_occurrence. by exists a, (b ++ sep ++ c). }
  destruct (leftmost_occurrence _ _ Hc) as (x & y & E & Hno & Hmin).
  pose proof (Hmin a (b ++ sep ++ c) eq_refl) as Hle.
  rewrite E in Hno |- *. rewrite split_loop_first by done.
  assert (Hy : contains sep y = true).
  { assert (Ey : y = drop (length x + length sep) s).
    { rewrite E, <- drop_drop, drop_app_length, drop_app_length. done. }
    rewrite Ey. unfold s.
    assert (Es : a ++ sep ++ b ++ sep ++ c = (a ++ sep) ++ b ++ sep ++ c)
      by (by rewrite <- app_assoc).
    rewrite Es, drop_app_le by (rewrite length_app; lia).
    apply contains_app_r, contains_occurrence. by exists b, c. }
  destruct (leftmost_occurrence _ _ Hy) as (x' & y' & E' & Hno' & _).
  rewrite E' in Hno' |- *. rewrite split_loop_first by done.
  pose proof (split_loop_nonempty sep y' 0 []).
  destruct (split_loop sep y' 0 []); [done|]. simpl. lia.
Qed.

Lemma replace_loop_skip old new s k :
  k ≤ length s -> replace_loop old new s k = replace_loop old new (drop k s) 0.
Proof.
  revert s. induction k as [|k IH]; intros s Hk; [by rewrite drop_0|].
  destruct s as [|c s]; simpl in *; [lia|]. apply IH. lia.
Qed.

Lemma replace_loop_none old new s :
  contains old s = false -> replace_loop old new s 0 = s.
Proof.
  induction s as [|c s IH]; intros Hc; [done|].
  apply contains_false_cons in Hc as [Hs Hc].
  cbn [replace_loop]. by rewrite Hs, IH.
Qed.

(** Removing a title that stands at the start of a text and nowhere in
    what follows leaves what follows. *)
Lemma py_replace_prefix title body :
  title ≠ [] -> contains title body = false ->
  py_replace title [] (title ++ body) = body.
Proof.
  intros Ht Hb. destruct title as [|c title]; [done|].
  pose proof (starts_with_prefix (c :: title) body) as Hs.
  unfold py_replace. cbn [app replace_loop] in Hs |- *.
  rewrite Hs. cbn [app].
  replace (length (c :: title) - 1) with (length title) by (simpl; lia).
  rewrite replace_loop_skip by (rewrite length_app; lia).
  rewrite drop_app_length. by apply replace_loop_none.
Qed.

(** ** Commands that edit one record *)

Lemma log_run ev w : log ev w = (inr (), with_chan w (chan w) [ev]).
Proof. done. Qed.

Lemma find_msg_middle pre m post :
  NoDup (msg_id <$> pre ++ m :: post) ->
  find_msg (msg_id m) (pre ++ m :: post) = Some m.
Proof.
  rewrite fmap_app, fmap_cons. intros Hnd.
  apply NoDup_app in Hnd as (_ & Hd & _).
  rewrite find_msg_app_r.
  - simpl. by rewrite bool_decide_eq_true_2.
  - intros Hin. apply (Hd _ Hin). left.
Qed.

Lemma put_msg_middle pre m m' post :
  NoDup (msg_id <$> pre ++ m :: post) -> msg_id m' = msg_id m ->
  put_msg m' (pre ++ m :: post) = pre ++ m' :: post.
Proof.
  rewrite fmap_app, fmap_cons. intros Hnd Hid.
  apply NoDup_app in Hnd as (_ & Hd & Hnd).
  apply NoDup_cons in Hnd as [Hm _].
  rewrite put_msg_app, put_msg_notin.
  - f_equal. change (put_msg m' (m :: post)) with (put_msg m' [m] ++ put_msg m' post).
    rewrite (put_msg_notin m' post) by (by rewrite Hid).
    unfold put_msg. simpl. by rewrite bool_decide_eq_true_2.
  - rewrite Hid. intros Hin. apply (Hd _ Hin). left.
Qed.

Lemma edit_middle w pre m post c keep fs es s :
  NoDup (msg_id <$> chan w) -> chan w = pre ++ m :: post ->
  edit (msg_id m) c keep fs es s w
  = (inr (), with_chan w (pre ++ edited m c keep fs es s :: post)
                         [Edited (edited m c keep fs es s)]).
Proof.
  intros Hnd Hc. rewrite Hc in Hnd.
  rewrite (edit_run _ _ m) by (rewrite Hc; by apply find_msg_middle).
  by rewrite Hc, put_msg_middle.
Qed.

(** X14. The two commands that edit a record refuse a record the bot did
    not write: they answer "Cannot edit non-bot message" and do nothing
    else; [edit_message] sends no direct message and does not wait. *)
Theorem foreign_record_refused h user answer message w :
  ¬ is_bot message ->
  embedify_message message w
  = (inr (), with_chan w (chan w) [Responded (txt "Cannot edit non-bot message") true])
  ∧ edit_message h user answer message w
    = (inr (), with_chan w (chan w) [Responded (txt "Cannot edit non-bot message") true]).
Proof.
  intros Hb. unfold embedify_message, edit_message.
  rewrite !bool_decide_eq_false_2 by exact Hb. done.
Qed.

(** X15. On a record of the bot whose text has no title,
    [embedify_message] raises [AttributeError] before it edits or answers:
    the channel and the trace are as they were. *)
Theorem embedify_message_without_title message w :
  is_bot message -> reTitleGroup (content message) = None ->
  embedify_message message w = (inl (AttributeError (txt "group")), w).
Proof.
  intros Hb Ht. unfold embedify_message, title_group.
  rewrite bool_decide_eq_true_2 by exact Hb. cbn [negb]. by rewrite Ht.
Qed.

Lemma embedify_message_run w pre message post title :
  wf w -> chan w = pre ++ message :: post -> is_bot message ->
  reTitleGroup (content message) = Some title ->
  embedify_message message w
  = (inr (), with_chan w (pre ++ embedified message title :: post)
       [Edited (embedified message title);
        Responded (txt "Successfully changed message at " ++ jump_url (msg_id message))
                  true]).
Proof.
  intros [Hnd _] Hc Hb Ht. unfold embedify_message, title_group.
  rewrite bool_decide_eq_true_2 by exact Hb. cbn [negb]. rewrite Ht.
  erewrite bind_inr; [|reflexivity].
  erewrite bind_inr; [|by apply edit_middle].
  unfold respond. rewrite log_run, with_chan_twice.
  unfold edited, embedified, description_only. cbn [default fmap list_fmap chan with_chan].
  by rewrite app_nil_r.
Qed.

(** X16. On a record of the bot with a title, [embedify_message] rewrites
    that record in place: the title becomes its text, the rest of the
    text, stripped, the description of its only embed; id, author and
    attachments stay, and the records around it are untouched. When the
    text is the title followed by a body in which the title does not
    occur again, the description is the stripped body. *)
Theorem embedify_message_moves_text w pre message post title :
  wf w -> chan w = pre ++ message :: post -> is_bot message ->
  reTitleGroup (content message) = Some title ->
  ∃ w' m',
    embedify_message message w = (inr (), w')
    ∧ chan w' = pre ++ m' :: post
    ∧ msg_id m' = msg_id message ∧ author m' = author message
    ∧ attachments m' = attachments message
    ∧ content m' = title
    ∧ embeds m'
      = [description_only (Some (strip (py_replace title [] (content message))))]
    ∧ suppress_embeds m' = false
    ∧ ∀ body, title ≠ [] -> content message = title ++ body ->
        contains title body = false ->
        embeds m' = [description_only (Some (strip body))].
Proof.
  intros Hwf Hc Hb Ht. eexists _, (embedified message title).
  split; [by apply embedify_message_run|].
  split_and!; try done.
  intros body Hne E Hno. cbn [embedified embeds].
  by rewrite E, py_replace_prefix.
Qed.

Lemma prompt_run user message w :
  (_ ← respond (txt "Sent you a dm") true;
   _ ← to_files (attachments message);
   user_send user (edit_prompt message)) w
  = (inr (), with_chan w (chan w) (prompted user message)).
Proof.
  unfold respond, user_send. erewrite bind_inr; [|apply log_run].
  destruct (to_files_run (attachments message)
              (with_chan w (chan w) [Responded (txt "Sent you a dm") true]))
    as (fs & E & _).
  erewrite bind_inr; [|exact E].
  rewrite log_run. cbn [chan with_chan]. by rewrite !with_chan_twice.
Qed.

(** The command after the refusal test, with the prompt as one step. *)
Lemma edit_message_unfold h user answer message w :
  is_bot message ->
  edit_message h user answer message w
  = (_ ← (_ ← respond (txt "Sent you a dm") true;
          _ ← to_files (attachments message);
          user_send user (edit_prompt message));
     answ ← lift answer;
     if bool_decide (py_lower (content answ) = txt "cancel") then
       user_send user (txt "Cancelled")
     else
       let enriched := fix_item_links h answ in
       _ ← lift (outcome enriched);
       let answ := message_after enriched in
       _ ← (if contains (txt "EMBED") (content answ) then
              parts ← lift (py_split (txt "EMBED") (content answ));
              match strip <$> parts with
              | [messageContent; embedContent] =>
                  let embed := {| embed_title := None;
                                  embed_description := Some embedContent;
                                  embed_colour := None |} in
                  edit (msg_id message) (Some (emojify messageContent))
                       None [] (Some [embed]) None
              | _ => raise ValueError
              end
            else
              fs ← to_files (attachments answ);
              edit (msg_id message) (Some (emojify (content answ)))
                   (Some []) fs None None);
       user_send user
         (txt "Successfully changed message at " ++ jump_url (msg_id message))) w.
Proof.
  intros Hb. unfold edit_message. rewrite bool_decide_eq_true_2 by exact Hb. cbn [negb].
  cbv zeta. symmetry. rewrite bind_assoc.
  apply bind_ext; [done|]. intros _ w1. by rewrite bind_assoc.
Qed.

(** X17. [edit_message] gives up without touching the channel when no
    answer comes (the exception of [wait_for] is raised), when the answer
    is "cancel" in any casing (the user is told "Cancelled"), and when
    enriching the answer raises. In each case only the prompt went out
    before. *)
Theorem edit_message_aborts h user answer message w :
  is_bot message ->
  (∀ e, answer = inl e ->
     edit_message h user answer message w
     = (inl e, with_chan w (chan w) (prompted user message)))
  ∧ (∀ answ, answer = inr answ -> py_lower (content answ) = txt "cancel" ->
       edit_message h user answer message w
       = (inr (), with_chan w (chan w)
            (prompted user message ++ [DirectMessage (user_id user) (txt "Cancelled")])))
  ∧ (∀ answ e, answer = inr answ -> py_lower (content answ) ≠ txt "cancel" ->
       outcome (fix_item_links h answ) = inl e ->
       edit_message h user answer message w
       = (inl e, with_chan w (chan w) (prompted user message))).
Proof.
  intros Hb. rewrite (edit_message_unfold _ _ _ _ _ Hb).
  erewrite bind_inr; [|apply prompt_run].
  split_and!.
  - intros e ->. by erewrite bind_inl; [|reflexivity].
  - intros answ -> Hc. erewrite bind_inr; [|reflexivity].
    rewrite bool_decide_eq_true_2 by done.
    unfold user_send. rewrite log_run. cbn [chan with_chan]. by rewrite with_chan_twice.
  - intros answ e -> Hc Ho. erewrite bind_inr; [|reflexivity].
    rewrite bool_decide_eq_false_2 by done. cbv zeta.
    by erewrite bind_inl; [|unfold lift; by rewrite Ho].
Qed.

(** X18. An answer that holds the marker [EMBED] twice is split into more
    than two parts: [edit_message] raises [ValueError] at the unpacking,
    the record is not edited and the user gets no further message. *)
Theorem edit_message_two_markers h user answ message w a b c :
  is_bot message -> py_lower (content answ) ≠ txt "cancel" ->
  outcome (fix_item_links h answ) = inr () ->
  content (message_after (fix_item_links h answ))
  = a ++ txt "EMBED" ++ b ++ txt "EMBED" ++ c ->
  edit_message h user (inr answ) message w
  = (inl ValueError, with_chan w (chan w) (prompted user message)).
Proof.
  intros Hb Hc Ho E. rewrite (edit_message_unfold _ _ _ _ _ Hb).
  erewrite bind_inr; [|apply prompt_run].
  erewrite bind_inr; [|reflexivity].
  rewrite bool_decide_eq_false_2 by done. cbv zeta.
  erewrite bind_inr; [|unfold lift; by rewrite Ho].
  assert (Hin : contains (txt "EMBED") (content (message_after (fix_item_links h answ))) = true).
  { rewrite E. apply contains_occurrence. by exists a, (b ++ txt "EMBED" ++ c). }
  rewrite Hin.
  assert (Hsep : txt "EMBED" ≠ []) by done.
  pose proof (split_loop_two (txt "EMBED") a b c Hsep) as Hlen.
  rewrite <- E in Hlen.
  assert (Hs : py_split (txt "EMBED") (content (message_after (fix_item_links h answ)))
               = inr (split_loop (txt "EMBED")
                        (content (message_after (fix_item_links h answ))) 0 [])) by done.
  erewrite bind_inl; [done|].
  erewrite bind_inr; [|unfold lift; by rewrite Hs].
  destruct (split_loop _ _ 0 []) as [|p1 [|p2 [|p3 l]]]; simpl in Hlen; try lia.
  done.
Qed.

Lemma marker_codes : txt "EMBED" = [69; 77; 66; 69; 68]%N.
Proof. reflexivity. Qed.

(** No occurrence of the marker starts in a text before the marker and
    ends in the marker: no end of the marker is a beginning of it. *)
Lemma marker_straddle x b :
  x ≠ [] -> starts_with (txt "EMBED") x = false ->
  starts_with (txt "EMBED") (x ++ txt "EMBED" ++ b) = false.
Proof.
  rewrite marker_codes. intros Hx.
  destruct x as [|c1 [|c2 [|c3 [|c4 [|c5 x]]]]]; [done|..];
    cbn [starts_with app];
    repeat match goal with
           | |- context [N.eqb ?a ?b] => destruct (N.eqb_spec a b); [subst|]; cbn [andb]
           end; try done.
Qed.

Lemma marker_first a b k :
  contains (txt "EMBED") a = false -> k < length a ->
  starts_with (txt "EMBED") (drop k (a ++ txt "EMBED" ++ b)) = false.
Proof.
  revert k. induction a as [|c a IH]; intros k Hc Hk; [simpl in Hk; lia|].
  apply contains_false_cons in Hc as [Hs Hc].
  destruct k as [|k].
  - rewrite drop_0. by apply marker_straddle.
  - cbn [app drop]. apply IH; [done|]. simpl in Hk. lia.
Qed.

Lemma split_marker_once a b :
  contains (txt "EMBED") a = false -> contains (txt "EMBED") b = false ->
  py_split (txt "EMBED") (a ++ txt "EMBED" ++ b) = inr [a; b].
Proof.
  intros Ha Hb.
  change (py_split (txt "EMBED") (a ++ txt "EMBED" ++ b))
    with (inr (split_loop (txt "EMBED") (a ++ txt "EMBED" ++ b) 0 []) : Res (list text)).
  rewrite split_loop_first; [|done|intros k Hk; by apply marker_first].
  by rewrite split_loop_none.
Qed.

(** X19. An answer without the marker replaces the text and the
    attachments of the record and keeps its embeds: the record shows the
    enriched answer, with emoji names resolved, and the files of the
    answer; the records around it are untouched and the user is told. *)
Theorem edit_message_plain_answer h user answ message w pre post :
  wf w -> chan w = pre ++ message :: post -> is_bot message ->
  py_lower (content answ) ≠ txt "cancel" ->
  outcome (fix_item_links h answ) = inr () ->
  contains (txt "EMBED") (content (message_after (fix_item_links h answ))) = false ->
  let answ' := message_after (fix_item_links h answ) in
  edit_message h user (inr answ) message w
  = (inr (), with_chan w (pre ++ retexted message answ' :: post)
       (prompted user message ++ (Downloaded <$> attachments answ')
          ++ [Edited (retexted message answ'); changed_notice user message])).
Proof.
  intros [Hnd _] Hch Hb Hc Ho Hno answ'.
  rewrite (edit_message_unfold _ _ _ _ _ Hb).
  erewrite bind_inr; [|apply prompt_run].
  erewrite bind_inr; [|reflexivity].
  rewrite bool_decide_eq_false_2 by done. cbv zeta.
  erewrite bind_inr; [|unfold lift; by rewrite Ho].
  rewrite Hno. fold answ'.
  set (w1 := with_chan w (chan w) (prompted user message)).
  destruct (to_files_run (attachments answ') w1) as (fs & E & Hfs).
  erewrite bind_inr; [|erewrite bind_inr; [|exact E]; by apply edit_middle].
  unfold user_send. rewrite log_run. cbn [chan with_chan].
  unfold w1. rewrite !with_chan_twice.
  assert (Em : edited message (Some (emojify (content answ'))) (Some []) fs None None
               = retexted message answ').
  { unfold edited, retexted. cbn [default]. by rewrite Hfs. }
  rewrite Em. by rewrite <- ?app_assoc.
Qed.

(** X20. An answer that holds the marker once, between [a] and [b],
    replaces the text of the record by [a] and its embeds by one embed
    with the description [b], both stripped; the attachments of the
    record stay, those of the answer are not read. *)
Theorem edit_message_embed_answer h user answ message w pre post a b :
  wf w -> chan w = pre ++ message :: post -> is_bot message ->
  py_lower (content answ) ≠ txt "cancel" ->
  outcome (fix_item_links h answ) = inr () ->
  content (message_after (fix_item_links h answ)) = a ++ txt "EMBED" ++ b ->
  contains (txt "EMBED") a = false -> contains (txt "EMBED") b = false ->
  edit_message h user (inr answ) message w
  = (inr (), with_chan w (pre ++ reembedded message a b :: post)
       (prompted user message
          ++ [Edited (reembedded message a b); changed_notice user message])).
Proof.
  intros [Hnd _] Hch Hb Hc Ho E Ha Hnb.
  rewrite (edit_message_unfold _ _ _ _ _ Hb).
  erewrite bind_inr; [|apply prompt_run].
  erewrite bind_inr; [|reflexivity].
  rewrite bool_decide_eq_false_2 by done. cbv zeta.
  erewrite bind_inr; [|unfold lift; by rewrite Ho].
  rewrite E.
  assert (Hin : contains (txt "EMBED") (a ++ txt "EMBED" ++ b) = true).
  { apply contains_occurrence. by exists a, b. }
  rewrite Hin.
  erewrite bind_inr;
    [|erewrite bind_inr; [|unfold lift; by rewrite split_marker_once];
      cbn [fmap list_fmap]; by apply edit_middle].
  unfold user_send. rewrite log_run. cbn [chan with_chan].
  rewrite !with_chan_twice.
  assert (Em : edited message (Some (emojify (strip a))) None []
                 (Some [{| embed_title := None; embed_description := Some (strip b);
                           embed_colour := None |}]) None
               = reembedded message a b).
  { unfold edited, reembedded, description_only. cbn [default fmap list_fmap].
    by rewrite app_nil_r. }
  rewrite Em. by rewrite <- ?app_assoc.
Qed.

(** ** What the editing commands leave alone *)

Lemma touches_refl id w : touches_only id w w.
Proof. by split_and!. Qed.

Lemma touches_trans id w1 w2 w3 :
  touches_only id w1 w2 -> touches_only id w2 w3 -> touches_only id w1 w3.
Proof.
  intros (E1 & K1 & N1 & F1 & D1) (E2 & K2 & N2 & F2 & D2).
  split_and!; try congruence.
  intros i m Hi Hm. apply K2; [|done]. by apply K1.
Qed.

Lemma touches_bind {A B} id (c : M A) (k : A -> M B) w :
  touches_only id w (c w).2 ->
  (∀ a w1, touches_only id w1 (k a w1).2) ->
  touches_only id w ((x ← c; k x) w).2.
Proof.
  intros Hc Hk. unfold mbind, m_bind.
  destruct (c w) as [[e|a] w1]; [done|].
  eapply touches_trans; [exact Hc|apply Hk].
Qed.

Lemma touches_log id ev w : touches_only id w (log ev w).2.
Proof. by split_and!. Qed.

Lemma touches_lift {A} id (r : Res A) w : touches_only id w (lift r w).2.
Proof. apply touches_refl. Qed.

Lemma touches_raise {A} id e w : touches_only id w (@raise A e w).2.
Proof. apply touches_refl. Qed.

Lemma touches_to_files id l w : touches_only id w (to_files l w).2.
Proof.
  destruct (to_files_run l w) as (fs & -> & _). by split_and!.
Qed.

Lemma touches_edit id c keep fs es s w : touches_only id w (edit id c keep fs es s w).2.
Proof.
  destruct (find_msg id (chan w)) as [m|] eqn:E.
  - rewrite (edit_run _ _ m) by done. pose proof (find_msg_id _ _ _ E) as Hid.
    unfold touches_only. cbn [snd chan with_chan next_id files documents].
    split_and!; try done.
    + apply list_eq. intros i. unfold put_msg. rewrite !list_lookup_fmap.
      destruct (chan w !! i); [|done]. simpl. case_bool_decide; simpl in *; congruence.
    + intros i x Hi Hx. unfold put_msg. rewrite list_lookup_fmap, Hi. simpl.
      rewrite bool_decide_eq_false_2; [done|]. congruence.
  - unfold edit, mbind, m_bind, get_chan. rewrite E. apply touches_refl.
Qed.

(** X21. Whatever the answer and however they end, [embedify_message] and
    [edit_message] add, remove and move no record, change no record other
    than the one they were called on, and store nothing. *)
Theorem editing_touches_one_record h user answer message w :
  touches_only (msg_id message) w (embedify_message message w).2
  ∧ touches_only (msg_id message) w (edit_message h user answer message w).2.
Proof.
  split.
  - unfold embedify_message. destruct (negb _); [apply touches_log|].
    apply touches_bind.
    + unfold title_group. destruct (reTitleGroup _); apply touches_refl.
    + intros title w1. apply touches_bind; [apply touches_edit|].
      intros _ w2. apply touches_log.
  - unfold edit_message. destruct (negb _); [apply touches_log|]. cbv zeta.
    apply touches_bind; [apply touches_log|]. intros _ w1.
    apply touches_bind; [apply touches_to_files|]. intros _ w2.
    apply touches_bind; [apply touches_log|]. intros _ w3.
    apply touches_bind; [apply touches_lift|]. intros answ w4.
    case_bool_decide; [apply touches_log|].
    apply touches_bind; [apply touches_lift|]. intros _ w5.
    apply touches_bind; [|intros _ w6; apply touches_log].
    destruct (contains _ _).
    + apply touches_bind; [apply touches_lift|]. intros parts w6.
      destruct (strip <$> parts) as [|p1 [|p2 [|p3 l]]];
        try apply touches_raise. apply touches_edit.
    + apply touches_bind; [apply touches_to_files|]. intros fs w6.
      apply touches_edit.
Qed.

End Editing.

(** * The patterns and the replies of a trigger *)

Lemma lstrip_head s c t : lstrip s = c :: t -> py_isspace c = false.
Proof.
  induction s as [|a s IH]; [done|]. simpl.
  destruct (py_isspace a) eqn:E; [done|]. by intros [= <- _].
Qed.

Lemma lstrip_nonspace c t : py_isspace c = false -> lstrip (c :: t) = c :: t.
Proof. intros E. simpl. by rewrite E. Qed.

Lemma lstrip_twice s : lstrip (lstrip s) = lstrip s.
Proof.
  destruct (lstrip s) as [|c t] eqn:E; [done|].
  apply lstrip_nonspace. by apply lstrip_head in E.
Qed.

Lemma lstrip_snoc s c :
  py_isspace c = false -> ∃ t, lstrip (s ++ [c]) = t ++ [c].
Proof.
  intros E. induction s as [|a s [t IH]].
  - exists []. simpl. by rewrite E.
  - cbn [app lstrip]. destruct (py_isspace a); [by exists t|].
    by exists (a :: s).
Qed.

Lemma elem_of_lstrip c s : c ∈ lstrip s -> c ∈ s.
Proof.
  induction s as [|a s IH]; [done|]. simpl.
  destruct (py_isspace a); [|done]. intros Hc. right. by apply IH.
Qed.

Lemma elem_of_strip c s : c ∈ strip s -> c ∈ s.
Proof.
  unfold strip. rewrite elem_of_reverse. intros Hc%elem_of_lstrip.
  rewrite elem_of_reverse in Hc. by apply elem_of_lstrip.
Qed.

Lemma lstrip_reverse_fixed a :
  lstrip a = a ->
  lstrip (reverse (lstrip (reverse a))) = reverse (lstrip (reverse a)).
Proof.
  destruct a as [|c a]; [done|]. intros E. pose proof (lstrip_head _ _ _ E) as Hc.
  rewrite reverse_cons. destruct (lstrip_snoc (reverse a) c Hc) as [t ->].
  rewrite reverse_app, reverse_singleton. by apply lstrip_nonspace.
Qed.

(** Stripping a stripped text changes nothing. *)
Lemma strip_twice s : strip (strip s) = strip s.
Proof.
  unfold strip. rewrite lstrip_reverse_fixed by apply lstrip_twice.
  rewrite reverse_involutive. apply lstrip_reverse_fixed, lstrip_twice.
Qed.

Lemma starts_with_single c a s : starts_with [c] (a :: s) = N.eqb c a.
Proof. simpl. apply andb_true_r. Qed.

Lemma contains_single c s : c ∉ s -> contains [c] s = false.
Proof.
  induction s as [|a s IH]; [done|]. intros [Hca Hc]%not_elem_of_cons.
  rewrite contains_cons, starts_with_single, IH by done.
  destruct (N.eqb_spec c a); [congruence|done].
Qed.

(** A part of a text split at a character does not hold the
    character. *)
Lemma split_loop_parts c s part p :
  c ∉ part -> p ∈ split_loop [c] s 0 part -> c ∉ p.
Proof.
  revert part. induction s as [|a s IH]; intros part Hpart.
  - simpl. by intros ->%list_elem_of_singleton.
  - cbn [split_loop]. rewrite starts_with_single.
    destruct (N.eqb_spec c a) as [->|Hca].
    + cbn [length]. intros [->|Hp]%elem_of_cons; [done|].
      apply (IH []); [apply not_elem_of_nil|done].
    + apply IH. rewrite not_elem_of_app, not_elem_of_cons. split; [done|].
      split; [done|apply not_elem_of_nil].
Qed.

(** Splitting what was joined gives the parts back, when no part holds
    the separator. *)
Lemma split_join c l :
  l ≠ [] -> Forall (fun p => c ∉ p) l ->
  split_loop [c] (py_join [c] l) 0 [] = l.
Proof.
  intros Hl Hall. induction Hall as [|x l Hx Hall IH]; [done|].
  destruct l as [|y l].
  - cbn [py_join]. by rewrite split_loop_none by (by apply contains_single).
  - change (py_join [c] (x :: y :: l)) with (x ++ [c] ++ py_join [c] (y :: l)).
    rewrite split_loop_first; [|done|].
    + cbn [app]. f_equal. by apply IH.
    + intros k Hk. rewrite drop_app_le by lia.
      destruct (drop k x) as [|a t] eqn:E.
      { apply (f_equal length) in E. rewrite length_drop in E. simpl in E. lia. }
      cbn [app]. rewrite starts_with_single.
      destruct (N.eqb_spec c a) as [->|]; [|done].
      destruct Hx. rewrite <- (take_drop k x), E. apply elem_of_app. right. left.
Qed.

Lemma pattern_list_shape patterns :
  Forall (fun p => p ≠ [] ∧ strip p = p ∧ 44%N ∉ p) (pattern_list patterns).
Proof.
  apply Forall_forall. intros p Hp. unfold pattern_list in Hp.
  apply list_elem_of_filter in Hp as [Hne Hp].
  apply list_elem_of_fmap in Hp as (q & -> & Hq).
  split_and!; [done|apply strip_twice|].
  intros Hc%elem_of_strip. revert Hc.
  apply (split_loop_parts 44%N patterns [] q); [apply not_elem_of_nil|done].
Qed.

Lemma filter_stripped l :
  Forall (fun p => p ≠ [] ∧ strip p = p ∧ 44%N ∉ p) l ->
  filter (fun p => p ≠ []) (strip <$> l) = l.
Proof.
  induction 1 as [|p l (Hne & Hs & _) _ IH]; [done|].
  rewrite fmap_cons, Hs, filter_cons_True by done. by rewrite IH.
Qed.

(** X24. What [set_trigger] stores for the patterns of a trigger is read
    back by [on_message] as the list [set_trigger] validated: splitting
    the stored text at the commas, stripping and dropping the empty parts
    gives the same patterns in the same order. Each of them is stripped,
    not empty and holds no comma. *)
Theorem pattern_list_stored patterns :
  pattern_list (patterns_str patterns) = pattern_list patterns
  ∧ Forall (fun p => p ≠ [] ∧ strip p = p ∧ 44%N ∉ p) (pattern_list patterns).
Proof.
  split; [|apply pattern_list_shape].
  pose proof (pattern_list_shape patterns) as Hall.
  unfold patterns_str. destruct (pattern_list patterns) as [|p l] eqn:E; [done|].
  unfold pattern_list at 1.
  change (txt ",") with [44%N].
  rewrite split_join; [by apply filter_stripped|done|].
  eapply Forall_impl; [exact Hall|]. by intros q (_ & _ & ?).
Qed.

(** The scan replaces the leftmost occurrence. *)
Lemma replace_loop_first old new a b :
  old ≠ [] ->
  (∀ k, k < length a -> starts_with old (drop k (a ++ old ++ b)) = false) ->
  replace_loop old new (a ++ old ++ b) 0 = a ++ new ++ replace_loop old new b 0.
Proof.
  intros Hold. induction a as [|c a IH]; intros Hno.
  - cbn [app]. destruct old as [|c old]; [done|].
    pose proof (starts_with_prefix (c :: old) b) as Hs.
    cbn [replace_loop app] in Hs |- *. rewrite Hs. f_equal.
    replace (length (c :: old) - 1) with (length old) by (simpl; lia).
    rewrite replace_loop_skip by (rewrite length_app; lia).
    by rewrite drop_app_length.
  - pose proof (Hno 0 ltac:(simpl; lia)) as Hz.
    cbn [app replace_loop drop] in Hz |- *. rewrite Hz. f_equal.
    apply IH. intros k Hk. apply (Hno (S k)). simpl. lia.
Qed.

(** X25. A reply to a trigger with a link always holds the link: it
    takes the place of [<>] where the response text has one, and follows
    the response text after a blank where it has none. Without a link
    the reply is the response text. *)
Theorem reply_content_holds_link response_text c url :
  contains (c :: url) (reply_content response_text (Some (c :: url))) = true
  ∧ (contains (txt "<>") response_text = false ->
     reply_content response_text (Some (c :: url))
     = response_text ++ txt " " ++ c :: url)
  ∧ reply_content response_text None = response_text
  ∧ reply_content response_text (Some []) = response_text.
Proof.
  split_and!; [|intros E; unfold reply_content; by rewrite E|done|done].
  unfold reply_content. destruct (contains (txt "<>") response_text) eqn:E.
  - destruct (leftmost_occurrence _ _ E) as (a & b & -> & Hno & _).
    change (py_replace (txt "<>") (c :: url) (a ++ txt "<>" ++ b))
      with (replace_loop (txt "<>") (c :: url) (a ++ txt "<>" ++ b) 0).
    rewrite replace_loop_first by done.
    apply contains_occurrence. by eexists _, _.
  - apply contains_occurrence. exists (response_text ++ txt " "), [].
    by rewrite app_nil_r, <- app_assoc.
Qed.

End Proofs.

(** * The commands on concrete channels *)

#[local] Existing Instance ascii_unicode.
#[local] Existing Instance demo_env.

Lemma wf_world_of_distinct (l : list Message) (n : Z) :
  bool_decide (NoDup (msg_id <$> l)) = true ->
  forallb (fun m => bool_decide (msg_id m < n)%Z) l = true ->
  wf (world_of l n).
Proof.
  intros Hnd Hlt. split.
  - by apply bool_decide_eq_true in Hnd.
  - apply Forall_forall. intros m Hin.
    rewrite forallb_forall in Hlt. apply list_elem_of_In in Hin.
    by apply Hlt, bool_decide_eq_true in Hin.
Qed.

(** ** Cascade insertion *)






(** ** Link enrichment *)

(** One link already resolved and one bare link to another id: only the
    bare one is rewritten. *)
Example replace_unfixed_only_bare :
  content (message_after (fix_item_links demo_http
    (note 1 1 "See [Sword](https://www.wowhead.com/item=1) and https://www.wowhead.com/item=3 (ok)")))
  = txt "See [Sword](https://www.wowhead.com/item=1) and [Three](https://www.wowhead.com/ru/item=3) (ok)".
Proof. vm_compute. reflexivity. Qed.

(** The first pass finds the ids 2 and 3: the first link runs on to the
    white space and its id is read after its last [item=]. Item 2 has no
    name, so only the second link is rewritten. The link that rewrite
    writes ends in a closing parenthesis, which completes an already-fixed
    link from [[x]] on: the second pass sees the first link end before
    [[x]], reads the id 1 and rewrites it. *)
Lemma fix_item_links_not_idempotent :
  content (message_after (fix_item_links demo_http (note 1 1
    "https://wowhead.com/item=1[x](https://wowhead.com/item=2 https://wowhead.com/item=3")))
  = txt "https://wowhead.com/item=1[x](https://wowhead.com/item=2 [Three](https://www.wowhead.com/ru/item=3)"
  ∧ content (message_after (fix_item_links demo_http (note 1 1
    "https://wowhead.com/item=1[x](https://wowhead.com/item=2 [Three](https://www.wowhead.com/ru/item=3)")))
  = txt "[One](https://www.wowhead.com/ru/item=1)[x](https://wowhead.com/item=2 [Three](https://www.wowhead.com/ru/item=3)"
  ∧ ¬ idempotent_at demo_http (note 1 1
    "https://wowhead.com/item=1[x](https://wowhead.com/item=2 https://wowhead.com/item=3").
Proof.
  split_and!.
  - vm_compute. reflexivity.
  - vm_compute. reflexivity.
  - unfold idempotent_at. vm_compute. discriminate.
Qed.

(** One bare link, which the catalogue names, and one display link: the
    first pass writes the name, the second changes nothing. *)
Lemma fix_item_links_idempotent_witness :
  content (message_after (fix_item_links demo_http
    (note 1 1 "see https://wowhead.com/item=3 and [x](https://wowhead.com/item=2)")))
  = txt "see [Three](https://www.wowhead.com/ru/item=3) and [x](https://wowhead.com/item=2)"
  ∧ idempotent_at demo_http
      (note 1 1 "see https://wowhead.com/item=3 and [x](https://wowhead.com/item=2)").
Proof.
  split; [vm_compute; reflexivity|].
  apply (fix_item_links_idempotent demo_http
           (note 1 1 "see https://wowhead.com/item=3 and [x](https://wowhead.com/item=2)"));
    [reflexivity|reflexivity|reflexivity|].
  intros token Ht u i Hin.
  assert (Etok : _get_blizzard_token demo_http = inr (txt "tok"))
    by (vm_compute; reflexivity).
  rewrite Etok in Ht. injection Ht as <-.
  assert (El : link_spans (content
            (note 1 1 "see https://wowhead.com/item=3 and [x](https://wowhead.com/item=2)"))
          = [Plain (txt "see "); Bare (txt "https://wowhead.com/item=3") (txt "3");
             Plain (txt " and "); Resolved (txt "[x](https://wowhead.com/item=2)");
             Plain []]) by (vm_compute; reflexivity).
  rewrite El in Hin.
  repeat (apply elem_of_cons in Hin as [Hin|Hin]; [try discriminate Hin|]).
  - injection Hin as -> ->. exists (txt "Three").
    split; [vm_compute; reflexivity|].
    split_and!; [done| |]; apply (bool_decide_unpack _); vm_compute; exact I.
  - by apply elem_of_nil in Hin.
Defined.

(** ** Export and import *)

(** C7, on a record with two attachments: both are written to
    [x/0.png], the second over the first, both image references of the
    document are [x/0.png], and no [x/1.png] is written. *)
Lemma save_messages_numbers_every_attachment_0 :
  let w := (save_messages (Some (txt "x"))
              (world_of [with_attachments demo_a [png_a; png_b]] 4)).2 in
  documents w !! txt "data/x.json"
  = Some [Header (txt "faq") 5; Rec (txt "a") [txt "x/0.png"; txt "x/0.png"] []]
  ∧ files w !! txt "data/x/0.png" = Some [2%N]
  ∧ files w !! txt "data/x/1.png" = None.
Proof.
  split_and!.
  - vm_compute. reflexivity.
  - vm_compute. reflexivity.
  - vm_compute. reflexivity.
Qed.



(** ** Republish *)


(** ** dump_messages *)

Lemma dump_messages_unknown_user_witness :
  dump_messages (txt "7") demo_world = (inl (AttributeError (txt "name")), demo_world).
Proof.
  apply (dump_messages_unknown_user (txt "7") 7 demo_world).
  - reflexivity.
  - reflexivity.
Defined.


(** ** More of republish *)



(** ** More of publish *)

Lemma publish_sends_every_entry_witness :
  ∃ w', publish (txt "x") demo_store = (inr (), w')
    ∧ content <$> chan w' = [txt "a"; txt "a"; txt "b"]
    ∧ (fun m => att_bytes <$> attachments m) <$> chan w' = [[]; [[1%N]]; []].
Proof.
  destruct (publish_sends_every_entry (txt "x") demo_store (Header (txt "faq") 5)
              [Rec (txt "a") [txt "x/0.png"] [Some (txt "d")]; Rec (txt "b") [] []])
    as (w' & E & Hc & _).
  - reflexivity.
  - repeat constructor. by exists [1%N].
  - exists w'. split; [exact E|]. rewrite Hc. split; reflexivity.
Defined.

Lemma publish_stops_at_missing_image_witness :
  ∃ w', publish (txt "x") demo_store_no_file
        = (inl (FileNotFoundError (txt "data/x/0.png")), w')
    ∧ chan w' = [demo_a].
Proof.
  destruct (publish_stops_at_missing_image (txt "x") demo_store_no_file
              (Header (txt "faq") 5) [] (txt "a") [] (txt "x/0.png") []
              [Some (txt "d")] [Rec (txt "b") [] []])
    as (w' & E & Hc & _).
  - reflexivity.
  - constructor.
  - constructor.
  - reflexivity.
  - exists w'. split; [exact E|exact Hc].
Defined.

(** ** The requests of the enrichment *)

Lemma fix_item_links_looks_up_bare_links_witness :
  item_ids (txt "see https://wowhead.com/item=3 and [x](https://wowhead.com/item=2)")
  = [txt "3"]
  ∧ GetItem (txt "3") (txt "tok")
    ∈ calls (fix_item_links demo_http
        (note 1 1 "see https://wowhead.com/item=3 and [x](https://wowhead.com/item=2)")).
Proof.
  destruct (@fix_item_links_looks_up_bare_links ascii_unicode eq_refl eq_refl demo_http
              (note 1 1 "see https://wowhead.com/item=3 and [x](https://wowhead.com/item=2)"))
    as [Hids Hcalls].
  split.
  - etransitivity; [exact Hids|]. vm_compute. reflexivity.
  - apply Hcalls. split; [vm_compute; reflexivity|].
    exists (txt "https://wowhead.com/item=3").
    assert (El : link_spans (content
              (note 1 1 "see https://wowhead.com/item=3 and [x](https://wowhead.com/item=2)"))
            = [Plain (txt "see "); Bare (txt "https://wowhead.com/item=3") (txt "3");
               Plain (txt " and "); Resolved (txt "[x](https://wowhead.com/item=2)");
               Plain []]) by (vm_compute; reflexivity).
    rewrite El. right. left.
Defined.

Lemma second_enrichment_asks_nothing_witness :
  calls (fix_item_links demo_http (note 1 1 "see https://wowhead.com/item=3"))
  = [PostToken; GetItem (txt "3") (txt "tok")]
  ∧ calls (fix_item_links demo_http
             (message_after
                (fix_item_links demo_http (note 1 1 "see https://wowhead.com/item=3"))))
    = [].
Proof.
  split; [vm_compute; reflexivity|].
  rewrite (@second_enrichment_asks_nothing ascii_unicode eq_refl eq_refl eq_refl eq_refl
             eq_refl demo_http (note 1 1 "see https://wowhead.com/item=3") (txt "tok"));
    [reflexivity|vm_compute; reflexivity|].
  intros i Hi.
  assert (Ei : item_ids (content (note 1 1 "see https://wowhead.com/item=3")) = [txt "3"])
    by (vm_compute; reflexivity).
  rewrite Ei in Hi. apply list_elem_of_singleton in Hi as ->.
  exists (txt "Three"). split.
  - eexists _, _. split_and!; [vm_compute; reflexivity|simpl; lia|reflexivity|].
    vm_compute. reflexivity.
  - split_and!; [done| |]; apply (bool_decide_unpack _); vm_compute; exact I.
Defined.

(** ** The commands that edit a record *)

#[local] Existing Instance ascii_casing.

Lemma foreign_record_refused_witness :
  edit_message demo_http ann (inr (note 9 42 "new")) demo_f demo_world
  = (inr (), with_chan demo_world (chan demo_world)
               [Responded (txt "Cannot edit non-bot message") true]).
Proof.
  apply (foreign_record_refused demo_http ann (inr (note 9 42 "new")) demo_f demo_world).
  vm_compute. discriminate.
Defined.

Lemma embedify_message_without_title_witness :
  embedify_message demo_a demo_world
  = (inl (AttributeError (txt "group")), demo_world).
Proof.
  apply (embedify_message_without_title demo_a demo_world).
  - reflexivity.
  - reflexivity.
Defined.

Lemma embedify_message_moves_text_witness :
  ∃ w' m',
    @embedify_message ascii_unicode titled_env demo_titled (world_of [demo_titled; demo_f] 4)
    = (inr (), w')
    ∧ chan w' = [m'; demo_f]
    ∧ content m' = txt "# Mounts"
    ∧ embeds m' = [description_only (Some (txt "where to get them"))].
Proof.
  destruct (@embedify_message_moves_text ascii_unicode titled_env
              (world_of [demo_titled; demo_f] 4) [] demo_titled [demo_f] (txt "# Mounts"))
    as (w' & m' & E & Hc & _ & _ & _ & Ht & _ & _ & Hbody).
  - apply wf_world_of_distinct; reflexivity.
  - reflexivity.
  - reflexivity.
  - reflexivity.
  - exists w', m'. split; [exact E|]. split; [exact Hc|]. split; [exact Ht|].
    rewrite (Hbody ([10%N] ++ txt "where to get them")); [reflexivity|done|reflexivity|reflexivity].
Defined.

Lemma edit_message_aborts_witness :
  edit_message demo_http ann (inr (note 9 42 "Cancel")) demo_a demo_world
  = (inr (), with_chan demo_world (chan demo_world)
       [Responded (txt "Sent you a dm") true;
        DirectMessage 42 (edit_prompt demo_a);
        DirectMessage 42 (txt "Cancelled")]).
Proof.
  etransitivity.
  - destruct (edit_message_aborts demo_http ann (inr (note 9 42 "Cancel"))
                demo_a demo_world) as (_ & Hcancel & _); [reflexivity|].
    apply (Hcancel _ eq_refl). reflexivity.
  - vm_compute. reflexivity.
Defined.

Lemma edit_message_two_markers_witness :
  edit_message demo_http ann (inr (note 9 42 "a EMBED b EMBED c")) demo_a demo_world
  = (inl ValueError, with_chan demo_world (chan demo_world) (prompted ann demo_a)).
Proof.
  apply (edit_message_two_markers demo_http ann (note 9 42 "a EMBED b EMBED c")
           demo_a demo_world (txt "a ") (txt " b ") (txt " c")).
  - reflexivity.
  - vm_compute. discriminate.
  - reflexivity.
  - reflexivity.
Defined.

Lemma edit_message_plain_answer_witness :
  ∃ w',
    edit_message demo_http ann (inr (note 9 42 "see https://wowhead.com/item=1"))
      demo_a demo_world
    = (inr (), w')
    ∧ content <$> chan w'
      = [txt "see [One](https://www.wowhead.com/ru/item=1)"; txt "f"; txt "b"].
Proof.
  eexists. split.
  - apply (edit_message_plain_answer demo_http ann
             (note 9 42 "see https://wowhead.com/item=1") demo_a demo_world
             [] [demo_f; demo_b]).
    + apply wf_world_of_distinct; reflexivity.
    + reflexivity.
    + reflexivity.
    + vm_compute. discriminate.
    + vm_compute. reflexivity.
    + vm_compute. reflexivity.
  - vm_compute. reflexivity.
Defined.

Lemma edit_message_embed_answer_witness :
  ∃ w',
    edit_message demo_http ann (inr (note 9 42 "new text EMBED the details"))
      demo_a demo_world
    = (inr (), w')
    ∧ content <$> chan w' = [txt "new text"; txt "f"; txt "b"]
    ∧ (fun m => embed_description <$> embeds m) <$> chan w'
      = [[Some (txt "the details")]; []; []].
Proof.
  eexists. split.
  - apply (edit_message_embed_answer demo_http ann
             (note 9 42 "new text EMBED the details") demo_a demo_world
             [] [demo_f; demo_b] (txt "new text ") (txt " the details")).
    + apply wf_world_of_distinct; reflexivity.
    + reflexivity.
    + reflexivity.
    + vm_compute. discriminate.
    + vm_compute. reflexivity.
    + vm_compute. reflexivity.
    + vm_compute. reflexivity.
    + vm_compute. reflexivity.
  - split; vm_compute; reflexivity.
Defined.
